(** * Depth sensing: ingestion, projection and client gating

    A shallow embedding of the [Depth] manager of xrblocks (the class [Depth]
    of [src/demos/3dgs-walkthrough/main.js], lines 296-686) together with the
    methods of three.js it calls ([Matrix4], [Vector3]).

    Conventions of the embedding.
    - A finite JavaScript number is an exact rational ([Q]).  The rounding
      of doubles is modelled where it decides what is read: in the products
      and the difference from which [getDepth] and [getVertex] take the pixel
      ([Double.round]).  The scaling of a sample and the arithmetic of
      matrices and vectors are exact.  A value that is [NaN] or infinite (a
      product with [undefined], a division by zero) is [NaN] of [number].
    - A JavaScript array that may have holes is a [list (option A)];
      reading a hole or past the end yields [undefined] ([None]).
    - A typed array of [depthArray] is a view on an [ArrayBuffer], which has
      an identity and holds bytes, in little-endian order.  The elements of
      the array are decoded from the bytes by its element type, and what
      [set()] writes is seen through every view of the buffer that the object
      holds.  A buffer holds whole 32-bit words, so both typed arrays exist on
      it.  Outside of [set()] the contents of a buffer are those it had when
      it was handed in.
    - The private fields [renderer] and [camera], which [init] assigns, are
      the flag [renderer] of the state: [updateDepthMatrices] throws when it
      reads them of an object without them.  A frame is handed to
      [updateLocalDepth] by the XR manager of the renderer; the binding and
      the reference space the method reads of it are fields of the frame.
    - [Matrix4.invert] of three.js is taken as it comes, as the routine
      [Matrix4_invert] of the environment.
    - The objects [Depth] only calls into (session, textures, mesh, console)
      are observed through the [Event]s a method emits.
    - A [TypeError] or [RangeError] is the completion [Throw].
    - [update] and [renderOcclusionPass] write no field of the object beyond
      what [updateLocalDepth] writes, and are left out.

    Three smaller embeddings follow the one of [Depth], each in a module of
    its own: [Raycaster] (the sorting function and the traversal of
    [src/src/core/components/Raycaster.ts]), [DetectedMesh] ([toFlatArray]
    and the class [DetectedMesh] of [main.js]) and [Walkthrough] (the
    crossfade of the class [WalkthroughManager] of [main.js]). *)

From Stdlib Require Import ZArith QArith Qround Qminmax Qfield Qabs Lia Lqa.
From stdpp Require Import base option list gmap sorting.

Local Open Scope Q_scope.

(** ** JavaScript numbers *)

Module Num.

Inductive number := Fin (q : Q) | NaN.

Definition lift2 (f : Q -> Q -> Q) (a b : number) : number :=
  match a, b with
  | Fin x, Fin y => Fin (f x y)
  | _, _ => NaN
  end.

Definition add := lift2 Qplus.
Definition mul := lift2 Qmult.
Definition opp (a : number) : number :=
  match a with Fin x => Fin (- x) | NaN => NaN end.

(** [a / b]; a zero divisor gives an infinity or [NaN] in JavaScript. *)
Definition div (a b : number) : number :=
  match a, b with
  | Fin x, Fin y => if Qeq_bool y 0 then NaN else Fin (x / y)
  | _, _ => NaN
  end.

(** Equality of numbers up to the equality of rationals. *)
Definition equiv (a b : number) : Prop :=
  match a, b with
  | Fin x, Fin y => x == y
  | NaN, NaN => True
  | _, _ => False
  end.

(** The rational a finite number stands for. *)
Definition to_Q (a : number) : Q :=
  match a with Fin x => x | NaN => 0 end.

End Num.

Abbreviation number := Num.number.
Abbreviation Fin := Num.Fin.
Abbreviation NaN := Num.NaN.
Coercion Num.Fin : Q >-> Num.number.

(** ** Completions: a method returns a value or throws *)

Inductive completion (A : Type) :=
  | Return (a : A)
  | Throw.
Arguments Return {A} a.
Arguments Throw {A}.

Definition cbind {A B} (c : completion A) (k : A -> completion B) : completion B :=
  match c with
  | Return a => k a
  | Throw => Throw
  end.

(** ** Doubles

    The pixel coordinates of [getDepth] are rounded products: which pixel is
    read depends on the rounding of the product to a double. *)

Module Double.

(** [2 ^ e] for an integer [e]. *)
Definition pow2 (e : Z) : Q := Qpower 2 e.

(** The integer nearest to [q], a tie going to the even one. *)
Definition nearest_even (q : Q) : Z :=
  let f := Qfloor q in
  match Qcompare (q - inject_Z f) (1 # 2) with
  | Lt => f
  | Gt => (f + 1)%Z
  | Eq => if Z.even f then f else (f + 1)%Z
  end.

(** [floor (log2 q)] for a positive [q]. *)
Definition exponent (q : Q) : Z :=
  let e := (Z.log2 (Qnum q) - Z.log2 (Zpos (Qden q)))%Z in
  if Qle_bool (pow2 e) q then e else (e - 1)%Z.

(** The double nearest to [q]: binary64, round to nearest, ties to even,
    with subnormals.  A value that rounds past the largest double becomes
    [2 ^ 1024], which stands for the infinity of its sign. *)
Definition round (q : Q) : Q :=
  if Qeq_bool q 0 then 0 else
  let a := Qabs q in
  let ulp := pow2 (Z.max (exponent a) (-1022) - 52) in
  let r := Qred (Qmin (inject_Z (nearest_even (a / ulp)) * ulp) (pow2 1024)) in
  if Qle_bool 0 q then r else - r.

End Double.

(** ** utils: clamp and Math.round *)

(** Modelled from the spec: [clamp] of [src/utils/utils] is imported by the
    source and not part of it; the spec says out-of-range inputs are clamped
    to the bounds, which is [Math.min(Math.max(value, min), max)]. *)
Definition clamp (value min max : Q) : Q := Qmin (Qmax value min) max.

(** [Math.round]: the nearest integer, halves rounded up. *)
Definition Math_round (x : Q) : Z := Qfloor (x + (1 # 2)).

(** ** JavaScript arrays with holes *)

Section JSArray.
Context {A : Type}.

(** [a[i]]: [undefined] on a hole and out of range. *)
Definition array_get (a : list (option A)) (i : nat) : option A :=
  mjoin (a !! i).

(** [a[i] = x]: writing at or past [a.length] extends [a] with holes. *)
Definition array_set (a : list (option A)) (i : nat) (x : A) : list (option A) :=
  if decide (i < length a)%nat then <[i := Some x]> a
  else a ++ replicate (i - length a) None ++ [Some x].

End JSArray.

(** ** three.js: Matrix4, Vector3, Quaternion *)

(** [Matrix4.elements], sixteen numbers in column-major order. *)
Record Matrix4 := mkMatrix4 {
  e0 : Q; e1 : Q; e2 : Q; e3 : Q;
  e4 : Q; e5 : Q; e6 : Q; e7 : Q;
  e8 : Q; e9 : Q; e10 : Q; e11 : Q;
  e12 : Q; e13 : Q; e14 : Q; e15 : Q
}.

Record Vector3 := mkVector3 { vx : number; vy : number; vz : number }.

Record Quaternion := mkQuaternion { qx : Q; qy : Q; qz : Q; qw : Q }.

Module Matrix4.

(** [new THREE.Matrix4()] is the identity. *)
Definition identity : Matrix4 :=
  mkMatrix4 1 0 0 0  0 1 0 0  0 0 1 0  0 0 0 1.

Definition zero : Matrix4 :=
  mkMatrix4 0 0 0 0  0 0 0 0  0 0 0 0  0 0 0 0.

Definition elements (m : Matrix4) : list Q :=
  [e0 m; e1 m; e2 m; e3 m; e4 m; e5 m; e6 m; e7 m;
   e8 m; e9 m; e10 m; e11 m; e12 m; e13 m; e14 m; e15 m].


(** [this.multiplyMatrices(a, b)]. *)
Definition multiplyMatrices (a b : Matrix4) : Matrix4 :=
  let a11 := e0 a in let a12 := e4 a in let a13 := e8 a in let a14 := e12 a in
  let a21 := e1 a in let a22 := e5 a in let a23 := e9 a in let a24 := e13 a in
  let a31 := e2 a in let a32 := e6 a in let a33 := e10 a in let a34 := e14 a in
  let a41 := e3 a in let a42 := e7 a in let a43 := e11 a in let a44 := e15 a in
  let b11 := e0 b in let b12 := e4 b in let b13 := e8 b in let b14 := e12 b in
  let b21 := e1 b in let b22 := e5 b in let b23 := e9 b in let b24 := e13 b in
  let b31 := e2 b in let b32 := e6 b in let b33 := e10 b in let b34 := e14 b in
  let b41 := e3 b in let b42 := e7 b in let b43 := e11 b in let b44 := e15 b in
  {| e0 := a11 * b11 + a12 * b21 + a13 * b31 + a14 * b41;
     e4 := a11 * b12 + a12 * b22 + a13 * b32 + a14 * b42;
     e8 := a11 * b13 + a12 * b23 + a13 * b33 + a14 * b43;
     e12 := a11 * b14 + a12 * b24 + a13 * b34 + a14 * b44;
     e1 := a21 * b11 + a22 * b21 + a23 * b31 + a24 * b41;
     e5 := a21 * b12 + a22 * b22 + a23 * b32 + a24 * b42;
     e9 := a21 * b13 + a22 * b23 + a23 * b33 + a24 * b43;
     e13 := a21 * b14 + a22 * b24 + a23 * b34 + a24 * b44;
     e2 := a31 * b11 + a32 * b21 + a33 * b31 + a34 * b41;
     e6 := a31 * b12 + a32 * b22 + a33 * b32 + a34 * b42;
     e10 := a31 * b13 + a32 * b23 + a33 * b33 + a34 * b43;
     e14 := a31 * b14 + a32 * b24 + a33 * b34 + a34 * b44;
     e3 := a41 * b11 + a42 * b21 + a43 * b31 + a44 * b41;
     e7 := a41 * b12 + a42 * b22 + a43 * b32 + a44 * b42;
     e11 := a41 * b13 + a42 * b23 + a43 * b33 + a44 * b43;
     e15 := a41 * b14 + a42 * b24 + a43 * b34 + a44 * b44 |}.

(** The cofactors along the first column. *)
Definition t11 (m : Matrix4) : Q :=
  let n22 := e5 m in let n32 := e6 m in let n42 := e7 m in
  let n23 := e9 m in let n33 := e10 m in let n43 := e11 m in
  let n24 := e13 m in let n34 := e14 m in let n44 := e15 m in
  n23 * n34 * n42 - n24 * n33 * n42 + n24 * n32 * n43
  - n22 * n34 * n43 - n23 * n32 * n44 + n22 * n33 * n44.

Definition t12 (m : Matrix4) : Q :=
  let n12 := e4 m in let n32 := e6 m in let n42 := e7 m in
  let n13 := e8 m in let n33 := e10 m in let n43 := e11 m in
  let n14 := e12 m in let n34 := e14 m in let n44 := e15 m in
  n14 * n33 * n42 - n13 * n34 * n42 - n14 * n32 * n43
  + n12 * n34 * n43 + n13 * n32 * n44 - n12 * n33 * n44.

Definition t13 (m : Matrix4) : Q :=
  let n12 := e4 m in let n22 := e5 m in let n42 := e7 m in
  let n13 := e8 m in let n23 := e9 m in let n43 := e11 m in
  let n14 := e12 m in let n24 := e13 m in let n44 := e15 m in
  n13 * n24 * n42 - n14 * n23 * n42 + n14 * n22 * n43
  - n12 * n24 * n43 - n13 * n22 * n44 + n12 * n23 * n44.

Definition t14 (m : Matrix4) : Q :=
  let n12 := e4 m in let n22 := e5 m in let n32 := e6 m in
  let n13 := e8 m in let n23 := e9 m in let n33 := e10 m in
  let n14 := e12 m in let n24 := e13 m in let n34 := e14 m in
  n14 * n23 * n32 - n13 * n24 * n32 - n14 * n22 * n33
  + n12 * n24 * n33 + n13 * n22 * n34 - n12 * n23 * n34.

Definition determinant (m : Matrix4) : Q :=
  e0 m * t11 m + e1 m * t12 m + e2 m * t13 m + e3 m * t14 m.

(** The inverse over the rationals, the adjugate over the determinant, and
    the zero matrix for a matrix that has none.  [Matrix4.invert] of three.js
    computes an inverse in doubles; the ingestion takes that routine as it
    comes, as a field of its environment, and [inverse] is the routine of the
    sample environments. *)
Definition inverse (m : Matrix4) : Matrix4 :=
  let n11 := e0 m in let n21 := e1 m in let n31 := e2 m in let n41 := e3 m in
  let n12 := e4 m in let n22 := e5 m in let n32 := e6 m in let n42 := e7 m in
  let n13 := e8 m in let n23 := e9 m in let n33 := e10 m in let n43 := e11 m in
  let n14 := e12 m in let n24 := e13 m in let n34 := e14 m in let n44 := e15 m in
  let det := determinant m in
  if Qeq_bool det 0 then zero else
  let detInv := 1 / det in
  {| e0 := t11 m * detInv;
     e1 := (n24 * n33 * n41 - n23 * n34 * n41 - n24 * n31 * n43
            + n21 * n34 * n43 + n23 * n31 * n44 - n21 * n33 * n44) * detInv;
     e2 := (n22 * n34 * n41 - n24 * n32 * n41 + n24 * n31 * n42
            - n21 * n34 * n42 - n22 * n31 * n44 + n21 * n32 * n44) * detInv;
     e3 := (n23 * n32 * n41 - n22 * n33 * n41 - n23 * n31 * n42
            + n21 * n33 * n42 + n22 * n31 * n43 - n21 * n32 * n43) * detInv;
     e4 := t12 m * detInv;
     e5 := (n13 * n34 * n41 - n14 * n33 * n41 + n14 * n31 * n43
            - n11 * n34 * n43 - n13 * n31 * n44 + n11 * n33 * n44) * detInv;
     e6 := (n14 * n32 * n41 - n12 * n34 * n41 - n14 * n31 * n42
            + n11 * n34 * n42 + n12 * n31 * n44 - n11 * n32 * n44) * detInv;
     e7 := (n12 * n33 * n41 - n13 * n32 * n41 + n13 * n31 * n42
            - n11 * n33 * n42 - n12 * n31 * n43 + n11 * n32 * n43) * detInv;
     e8 := t13 m * detInv;
     e9 := (n14 * n23 * n41 - n13 * n24 * n41 - n14 * n21 * n43
            + n11 * n24 * n43 + n13 * n21 * n44 - n11 * n23 * n44) * detInv;
     e10 := (n12 * n24 * n41 - n14 * n22 * n41 + n14 * n21 * n42
             - n11 * n24 * n42 - n12 * n21 * n44 + n11 * n22 * n44) * detInv;
     e11 := (n13 * n22 * n41 - n12 * n23 * n41 - n13 * n21 * n42
             + n11 * n23 * n42 + n12 * n21 * n43 - n11 * n22 * n43) * detInv;
     e12 := t14 m * detInv;
     e13 := (n13 * n24 * n31 - n14 * n23 * n31 + n14 * n21 * n33
             - n11 * n24 * n33 - n13 * n21 * n34 + n11 * n23 * n34) * detInv;
     e14 := (n14 * n22 * n31 - n12 * n24 * n31 - n14 * n21 * n32
             + n11 * n24 * n32 + n12 * n21 * n34 - n11 * n22 * n34) * detInv;
     e15 := (n12 * n23 * n31 - n13 * n22 * n31 + n13 * n21 * n32
             - n11 * n23 * n32 - n12 * n21 * n33 + n11 * n22 * n33) * detInv |}.

(** Entrywise equality of rationals. *)
Definition equiv (a b : Matrix4) : Prop :=
  Forall2 Qeq (elements a) (elements b).



End Matrix4.

Module Vector3.

(** [new THREE.Vector3()] is the zero vector. *)
Definition zero : Vector3 := mkVector3 0 0 0.

(** [this.applyMatrix4(m)]: the affine image of the point, divided by the
    homogeneous coordinate. *)
Definition applyMatrix4 (v : Vector3) (m : Matrix4) : Vector3 :=
  let x := vx v in let y := vy v in let z := vz v in
  let w := Num.div 1
    (Num.add (Num.add (Num.add (Num.mul (e3 m) x) (Num.mul (e7 m) y))
                      (Num.mul (e11 m) z)) (e15 m)) in
  {| vx := Num.mul (Num.add (Num.add (Num.add (Num.mul (e0 m) x) (Num.mul (e4 m) y))
                                     (Num.mul (e8 m) z)) (e12 m)) w;
     vy := Num.mul (Num.add (Num.add (Num.add (Num.mul (e1 m) x) (Num.mul (e5 m) y))
                                     (Num.mul (e9 m) z)) (e13 m)) w;
     vz := Num.mul (Num.add (Num.add (Num.add (Num.mul (e2 m) x) (Num.mul (e6 m) y))
                                     (Num.mul (e10 m) z)) (e14 m)) w |}.

(** [this.multiplyScalar(s)]. *)
Definition multiplyScalar (v : Vector3) (s : number) : Vector3 :=
  {| vx := Num.mul (vx v) s; vy := Num.mul (vy v) s; vz := Num.mul (vz v) s |}.

Definition equiv (a b : Vector3) : Prop :=
  Num.equiv (vx a) (vx b) /\ Num.equiv (vy a) (vy b) /\ Num.equiv (vz a) (vz b).

End Vector3.


(** ** The data model *)

(** [XRView] and client handles are opaque identities. *)
Definition XRView := nat.
Definition Client := nat.

(** [XRRigidTransform]: a pose and the matrix of its inverse. *)
Record XRRigidTransform := mkXRRigidTransform {
  position : Vector3;
  orientation : Quaternion;
  inverse_matrix : Matrix4
}.

(** [XRDepthInformation]: what the CPU and the GPU sample have in common. *)
Record XRDepthInformation := mkXRDepthInformation {
  info_width : Z;
  info_height : Z;
  info_rawValueToMeters : Q;
  projectionMatrix : option Matrix4;
  transform : option XRRigidTransform
}.

(** The contents of a buffer, in the byte order of the platform, which is
    little-endian: a 32-bit word is two 16-bit halves of two bytes each, the
    low one first. *)
Definition Half : Type := Byte.byte * Byte.byte.
Definition Word : Type := Half * Half.

(** An [ArrayBuffer]: its identity and its contents.  Two values with one
    [buffer_id] are the same buffer.  The buffer of a depth sample is a whole
    number of words, so that [new Uint16Array(buffer)] and
    [new Float32Array(buffer)] both exist; a buffer whose byte length is not
    a multiple of the element size, on which the constructor is a
    [RangeError], is not a value of this type. *)
Record ArrayBuffer := mkArrayBuffer {
  buffer_id : nat;
  buffer_words : list Word
}.

(** [XRCPUDepthInformation]: [data] is the buffer of the sample. *)
Record XRCPUDepthInformation := mkXRCPUDepthInformation {
  cpu_info : XRDepthInformation;
  data : ArrayBuffer
}.

(** [XRWebGLDepthInformation]: a texture handle, no samples. *)
Record XRWebGLDepthInformation := mkXRWebGLDepthInformation {
  gpu_info : XRDepthInformation;
  texture : nat
}.

(** [DepthArray = Float32Array | Uint16Array]: a view on a buffer, from its
    first byte on. *)
Record DepthArray := mkDepthArray {
  isFloat32 : bool;
  buffer : ArrayBuffer
}.

(** [new Float32Array(buffer)] or [new Uint16Array(buffer)]: a view, not a
    copy. *)
Definition typedArray (useFloat32 : bool) (buffer : ArrayBuffer) : DepthArray :=
  mkDepthArray useFloat32 buffer.

Definition byte_value (b : Byte.byte) : Z := Z.of_N (Byte.to_N b).

Definition half_value (h : Half) : Z := (byte_value h.1 + 256 * byte_value h.2)%Z.

Definition word_value (w : Word) : Z := (half_value w.1 + 65536 * half_value w.2)%Z.

(** The 16-bit elements of a buffer. *)
Definition halves (ws : list Word) : list Half := flat_map (fun w => [w.1; w.2]) ws.

(** The number a binary32 pattern stands for: a sign bit, eight bits of
    exponent, 23 bits of fraction.  An infinity reads as [NaN], numbers
    having no infinities here. *)
Definition float32_of_bits (w : Z) : number :=
  let negative := (w / 2 ^ 31 =? 1)%Z in
  let e := ((w / 2 ^ 23) mod 256)%Z in
  let m := (w mod 2 ^ 23)%Z in
  if (e =? 255)%Z then NaN
  else
    let magnitude :=
      if (e =? 0)%Z then inject_Z m * Double.pow2 (-149)
      else inject_Z (2 ^ 23 + m) * Double.pow2 (e - 150) in
    Fin (Qred (if negative then - magnitude else magnitude)).

(** The elements of a typed array, as the numbers a read gives. *)
Definition samples (a : DepthArray) : list number :=
  if isFloat32 a
  then map (fun w => float32_of_bits (word_value w)) (buffer_words (buffer a))
  else map (fun h => Fin (inject_Z (half_value h))) (halves (buffer_words (buffer a))).

(** [target[index]] of a typed array: [undefined] out of range, and
    [undefined] in arithmetic is [NaN]. *)
Definition typedArray_get (target : DepthArray) (index : Z) : number :=
  if (index <? 0)%Z then NaN
  else default NaN (samples target !! Z.to_nat index).

(** The bytes of an element that is stored. *)
Definition byte_of (k : Z) : Byte.byte :=
  default Byte.x00 (Byte.of_N (Z.to_N (k mod 256))).

Definition half_of (k : Z) : Half := (byte_of k, byte_of (k / 256)).

Definition word_of (w : Z) : Word := (half_of w, half_of (w / 65536)).

(** The words that a list of 16-bit elements fills. *)
Fixpoint words (hs : list Half) : list Word :=
  match hs with
  | h0 :: h1 :: hs => (h0, h1) :: words hs
  | _ => []
  end.

(** The binary32 pattern of an element of a [Uint16Array], which a
    [Float32Array] holds exactly. *)
Definition float32_bits (k : Z) : Z :=
  if (k <=? 0)%Z then 0%Z
  else let e := Z.log2 k in ((e + 127) * 2 ^ 23 + (k - 2 ^ e) * 2 ^ (23 - e))%Z.

(** [ToUint16]: the integer part, modulo [2 ^ 16]; 0 for what is not a
    finite number. *)
Definition ToUint16 (x : number) : Z :=
  match x with
  | Num.Fin q => ((if Qle_bool 0 q then Qfloor q else Qceiling q) mod 65536)%Z
  | Num.NaN => 0%Z
  end.

(** [target.set(source)]: writes the elements of [source], each converted to
    the element type of [target], over the first elements of [target], in
    the buffer of [target]; a [source] longer than [target] is a
    [RangeError].  The result is [target] with its buffer as the call leaves
    it. *)
Definition typedArray_set (target source : DepthArray) : completion DepthArray :=
  if decide (length (samples source) <= length (samples target))%nat
  then
    let source_words := buffer_words (buffer source) in
    let target_words := buffer_words (buffer target) in
    let stored :=
      if isFloat32 target then
        let written :=
          if isFloat32 source then source_words
          else map (fun h => word_of (float32_bits (half_value h))) (halves source_words) in
        written ++ drop (length written) target_words
      else
        let written :=
          if isFloat32 source
          then map (fun w => half_of (ToUint16 (float32_of_bits (word_value w))))
                 source_words
          else halves source_words in
        words (written ++ drop (length written) (halves target_words)) in
    Return (mkDepthArray (isFloat32 target)
              (mkArrayBuffer (buffer_id (buffer target)) stored))
  else Throw.

(** The fields of [DepthOptions] that [Depth] reads. *)
Record DepthOptions := mkDepthOptions {
  options_enabled : bool;
  useFloat32 : bool;
  depthTexture_enabled : bool;
  depthMesh_enabled : bool;
  occlusion_enabled : bool
}.

(** A camera of three.js, as far as [Depth] reads it. *)
Record Camera := mkCamera {
  camera_projectionMatrix : Matrix4;
  camera_matrixWorldInverse : Matrix4;
  camera_position : Vector3;
  camera_quaternion : Quaternion
}.

(** The pose of the [DepthMesh] object that [Depth] writes. *)
Record DepthMesh := mkDepthMesh {
  mesh_position : Vector3;
  mesh_quaternion : Quaternion
}.

(** [new DepthMesh(...)] is an [Object3D] at the origin. *)
Definition DepthMesh_new : DepthMesh :=
  mkDepthMesh Vector3.zero (mkQuaternion 0 0 0 1).

(** The fields of [Depth].  [renderer] tells whether [init] has assigned the
    private fields [renderer] and [camera], which it assigns together;
    [depthMesh] is there once [init] constructed it, and [depthTextures] tells
    whether [init] constructed the textures. *)
Record Depth := mkDepth {
  renderer : bool;
  enabled : bool;
  view : list (option XRView);
  cpuDepthData : list (option XRCPUDepthInformation);
  gpuDepthData : list (option XRWebGLDepthInformation);
  depthArray : list (option DepthArray);
  depthMesh : option DepthMesh;
  depthTextures : bool;
  options : DepthOptions;
  width : Z;
  height : Z;
  depthClientsInitialized : bool;
  depthClients : gset Client;
  depthProjectionMatrices : list Matrix4;
  depthProjectionInverseMatrices : list Matrix4;
  depthViewMatrices : list Matrix4;
  depthViewProjectionMatrices : list Matrix4;
  depthCameraPositions : list Vector3;
  depthCameraRotations : list Quaternion
}.

(** Field updates: [set_f x d] is [d] after [this.f = x]. *)

Definition set_view (x : list (option XRView)) (d : Depth) : Depth :=
  mkDepth (renderer d) (enabled d) x (cpuDepthData d) (gpuDepthData d) (depthArray d)
    (depthMesh d) (depthTextures d) (options d) (width d) (height d)
    (depthClientsInitialized d) (depthClients d) (depthProjectionMatrices d)
    (depthProjectionInverseMatrices d) (depthViewMatrices d)
    (depthViewProjectionMatrices d) (depthCameraPositions d) (depthCameraRotations d).

Definition set_cpuDepthData (x : list (option XRCPUDepthInformation)) (d : Depth) : Depth :=
  mkDepth (renderer d) (enabled d) (view d) x (gpuDepthData d) (depthArray d) (depthMesh d)
    (depthTextures d) (options d) (width d) (height d) (depthClientsInitialized d)
    (depthClients d) (depthProjectionMatrices d) (depthProjectionInverseMatrices d)
    (depthViewMatrices d) (depthViewProjectionMatrices d) (depthCameraPositions d)
    (depthCameraRotations d).

Definition set_gpuDepthData (x : list (option XRWebGLDepthInformation)) (d : Depth) : Depth :=
  mkDepth (renderer d) (enabled d) (view d) (cpuDepthData d) x (depthArray d) (depthMesh d)
    (depthTextures d) (options d) (width d) (height d) (depthClientsInitialized d)
    (depthClients d) (depthProjectionMatrices d) (depthProjectionInverseMatrices d)
    (depthViewMatrices d) (depthViewProjectionMatrices d) (depthCameraPositions d)
    (depthCameraRotations d).

Definition set_depthArray (x : list (option DepthArray)) (d : Depth) : Depth :=
  mkDepth (renderer d) (enabled d) (view d) (cpuDepthData d) (gpuDepthData d) x (depthMesh d)
    (depthTextures d) (options d) (width d) (height d) (depthClientsInitialized d)
    (depthClients d) (depthProjectionMatrices d) (depthProjectionInverseMatrices d)
    (depthViewMatrices d) (depthViewProjectionMatrices d) (depthCameraPositions d)
    (depthCameraRotations d).

Definition set_depthMesh (x : option DepthMesh) (d : Depth) : Depth :=
  mkDepth (renderer d) (enabled d) (view d) (cpuDepthData d) (gpuDepthData d) (depthArray d) x
    (depthTextures d) (options d) (width d) (height d) (depthClientsInitialized d)
    (depthClients d) (depthProjectionMatrices d) (depthProjectionInverseMatrices d)
    (depthViewMatrices d) (depthViewProjectionMatrices d) (depthCameraPositions d)
    (depthCameraRotations d).

Definition set_width (x : Z) (d : Depth) : Depth :=
  mkDepth (renderer d) (enabled d) (view d) (cpuDepthData d) (gpuDepthData d) (depthArray d)
    (depthMesh d) (depthTextures d) (options d) x (height d)
    (depthClientsInitialized d) (depthClients d) (depthProjectionMatrices d)
    (depthProjectionInverseMatrices d) (depthViewMatrices d)
    (depthViewProjectionMatrices d) (depthCameraPositions d) (depthCameraRotations d).

Definition set_height (x : Z) (d : Depth) : Depth :=
  mkDepth (renderer d) (enabled d) (view d) (cpuDepthData d) (gpuDepthData d) (depthArray d)
    (depthMesh d) (depthTextures d) (options d) (width d) x
    (depthClientsInitialized d) (depthClients d) (depthProjectionMatrices d)
    (depthProjectionInverseMatrices d) (depthViewMatrices d)
    (depthViewProjectionMatrices d) (depthCameraPositions d) (depthCameraRotations d).

Definition set_depthClientsInitialized (x : bool) (d : Depth) : Depth :=
  mkDepth (renderer d) (enabled d) (view d) (cpuDepthData d) (gpuDepthData d) (depthArray d)
    (depthMesh d) (depthTextures d) (options d) (width d) (height d) x
    (depthClients d) (depthProjectionMatrices d) (depthProjectionInverseMatrices d)
    (depthViewMatrices d) (depthViewProjectionMatrices d) (depthCameraPositions d)
    (depthCameraRotations d).

Definition set_depthClients (x : gset Client) (d : Depth) : Depth :=
  mkDepth (renderer d) (enabled d) (view d) (cpuDepthData d) (gpuDepthData d) (depthArray d)
    (depthMesh d) (depthTextures d) (options d) (width d) (height d)
    (depthClientsInitialized d) x (depthProjectionMatrices d)
    (depthProjectionInverseMatrices d) (depthViewMatrices d)
    (depthViewProjectionMatrices d) (depthCameraPositions d) (depthCameraRotations d).

Definition set_depthProjectionMatrices (x : list Matrix4) (d : Depth) : Depth :=
  mkDepth (renderer d) (enabled d) (view d) (cpuDepthData d) (gpuDepthData d) (depthArray d)
    (depthMesh d) (depthTextures d) (options d) (width d) (height d)
    (depthClientsInitialized d) (depthClients d) x (depthProjectionInverseMatrices d)
    (depthViewMatrices d) (depthViewProjectionMatrices d) (depthCameraPositions d)
    (depthCameraRotations d).

Definition set_depthProjectionInverseMatrices (x : list Matrix4) (d : Depth) : Depth :=
  mkDepth (renderer d) (enabled d) (view d) (cpuDepthData d) (gpuDepthData d) (depthArray d)
    (depthMesh d) (depthTextures d) (options d) (width d) (height d)
    (depthClientsInitialized d) (depthClients d) (depthProjectionMatrices d) x
    (depthViewMatrices d) (depthViewProjectionMatrices d) (depthCameraPositions d)
    (depthCameraRotations d).

Definition set_depthViewMatrices (x : list Matrix4) (d : Depth) : Depth :=
  mkDepth (renderer d) (enabled d) (view d) (cpuDepthData d) (gpuDepthData d) (depthArray d)
    (depthMesh d) (depthTextures d) (options d) (width d) (height d)
    (depthClientsInitialized d) (depthClients d) (depthProjectionMatrices d)
    (depthProjectionInverseMatrices d) x (depthViewProjectionMatrices d)
    (depthCameraPositions d) (depthCameraRotations d).

Definition set_depthViewProjectionMatrices (x : list Matrix4) (d : Depth) : Depth :=
  mkDepth (renderer d) (enabled d) (view d) (cpuDepthData d) (gpuDepthData d) (depthArray d)
    (depthMesh d) (depthTextures d) (options d) (width d) (height d)
    (depthClientsInitialized d) (depthClients d) (depthProjectionMatrices d)
    (depthProjectionInverseMatrices d) (depthViewMatrices d) x
    (depthCameraPositions d) (depthCameraRotations d).

Definition set_depthCameraPositions (x : list Vector3) (d : Depth) : Depth :=
  mkDepth (renderer d) (enabled d) (view d) (cpuDepthData d) (gpuDepthData d) (depthArray d)
    (depthMesh d) (depthTextures d) (options d) (width d) (height d)
    (depthClientsInitialized d) (depthClients d) (depthProjectionMatrices d)
    (depthProjectionInverseMatrices d) (depthViewMatrices d)
    (depthViewProjectionMatrices d) x (depthCameraRotations d).

Definition set_depthCameraRotations (x : list Quaternion) (d : Depth) : Depth :=
  mkDepth (renderer d) (enabled d) (view d) (cpuDepthData d) (gpuDepthData d) (depthArray d)
    (depthMesh d) (depthTextures d) (options d) (width d) (height d)
    (depthClientsInitialized d) (depthClients d) (depthProjectionMatrices d)
    (depthProjectionInverseMatrices d) (depthViewMatrices d)
    (depthViewProjectionMatrices d) (depthCameraPositions d) x.

(** The state of a fresh [Depth] object: every array is empty, the size is
    [DEFAULT_DEPTH_WIDTH] by [DEFAULT_DEPTH_HEIGHT]. *)
Definition DEFAULT_DEPTH_WIDTH : Z := 160.
Definition DEFAULT_DEPTH_HEIGHT : Z := DEFAULT_DEPTH_WIDTH.

Definition Depth_new (defaults : DepthOptions) : Depth :=
  {| renderer := false; enabled := false; view := []; cpuDepthData := []; gpuDepthData := [];
     depthArray := []; depthMesh := None; depthTextures := false;
     options := defaults;
     width := DEFAULT_DEPTH_WIDTH; height := DEFAULT_DEPTH_HEIGHT;
     depthClientsInitialized := false; depthClients := ∅;
     depthProjectionMatrices := []; depthProjectionInverseMatrices := [];
     depthViewMatrices := []; depthViewProjectionMatrices := [];
     depthCameraPositions := []; depthCameraRotations := [] |}.

(** What [Depth] reads from its collaborators during a call: the main camera
    that [init] was given, the cameras of [renderer.xr.getCamera()], the
    result of [DepthMesh.convertGPUToGPU], which is [null] when the read-back
    is not available, and [Matrix4.invert] of three.js, a routine of the
    library that is taken as it comes. *)
Record Env := mkEnv {
  camera : Camera;
  xrCameras : list Camera;
  convertGPUToGPU : XRWebGLDepthInformation -> option XRCPUDepthInformation;
  Matrix4_invert : Matrix4 -> Matrix4
}.

(** [XRSession], as far as [updateLocalDepth] reads it. *)
Record XRSession := mkXRSession {
  depthActive : option bool;
  depthUsage_gpu_optimized : bool
}.

(** [XRFrame], with the reference space and the binding of the renderer. *)
Record XRFrame := mkXRFrame {
  session : XRSession;
  referenceSpace : bool;
  viewerPose : option (list XRView);
  frame_getDepthInformation : XRView -> option XRCPUDepthInformation;
  binding_getDepthInformation : XRView -> option XRWebGLDepthInformation
}.

(** Calls into the collaborators.  The two calls into the session are made
    when the session has the method ([session.pauseDepthSensing?.()]). *)
Inductive Event :=
  | SessionPauseDepthSensing
  | SessionResumeDepthSensing
  | MeshConvertGPUToGPU (viewId : nat)
  | MeshUpdateDepth
  | MeshUpdateGPUDepth
  | TexturesUpdateData (viewId : nat)
  | TexturesUpdateNativeTexture (viewId : nat)
  | ConsoleError.

(** ** Methods as actions on the state

    A method maps the state of the object to a completion, the state it
    leaves behind and the calls it made; a method that throws keeps the
    writes it made before. *)

Record Result (A : Type) := mkResult {
  value : completion A;
  final : Depth;
  trace : list Event
}.
Arguments mkResult {A} value final trace.
Arguments value {A} r.
Arguments final {A} r.
Arguments trace {A} r.

Definition Action (A : Type) : Type := Depth -> Result A.

Definition ret {A} (a : A) : Action A := fun d => mkResult (Return a) d [].

Definition throw {A} : Action A := fun d => mkResult Throw d [].

Definition bind {A B} (m : Action A) (k : A -> Action B) : Action B := fun d =>
  let r := m d in
  match value r with
  | Return a =>
      let r' := k a (final r) in
      mkResult (value r') (final r') (trace r ++ trace r')
  | Throw => mkResult Throw (final r) (trace r)
  end.

Definition gets {A} (f : Depth -> A) : Action A := fun d => mkResult (Return (f d)) d [].

Definition modify (f : Depth -> Depth) : Action unit := fun d => mkResult (Return tt) (f d) [].

Definition emit (e : Event) : Action unit := fun d => mkResult (Return tt) d [e].

Definition when (b : bool) (m : Action unit) : Action unit := if b then m else ret tt.

Notation "'let!' x ':=' m 'in' k" := (bind m (fun x => k))
  (at level 10, x name, m at level 100, k at level 200).
Notation "m '>>' k" := (bind m (fun _ => k))
  (at level 90, right associativity).

(** [this.f[i]] where the element is then used as an object: a [TypeError]
    when it is [undefined]. *)
Definition element {A} (f : Depth -> list A) (i : nat) : Action A := fun d =>
  match f d !! i with
  | Some x => ret x d
  | None => throw d
  end.

(** [this.f[i].copy(x)] and the like: overwrites the object at index [i]. *)
Definition overwrite {A} (f : Depth -> list A) (set_f : list A -> Depth -> Depth)
    (i : nat) (x : A) : Action unit :=
  element f i >> modify (fun d => set_f (<[i := x]> (f d)) d).

(** *** Queries *)

(** [get rawValueToMeters()]. *)
Definition rawValueToMeters (d : Depth) : completion Q :=
  match cpuDepthData d with
  | c :: _ =>
      match c with
      | Some depthData => Return (info_rawValueToMeters (cpu_info depthData))
      | None => Throw
      end
  | [] =>
      match gpuDepthData d with
      | g :: _ =>
          match g with
          | Some depthData => Return (info_rawValueToMeters (gpu_info depthData))
          | None => Throw
          end
      | [] => Return 0
      end
  end.

(** [Math.round(clamp(u * this.width, 0, this.width - 1))]; the product is
    a double. *)
Definition depthX (d : Depth) (u : Q) : Z :=
  Math_round (clamp (Double.round (u * inject_Z (width d))) 0 (inject_Z (width d) - 1)).

(** [Math.round(clamp((1.0 - v) * this.height, 0, this.height - 1))]; the
    difference and the product are doubles. *)
Definition depthY (d : Depth) (v : Q) : Z :=
  Math_round (clamp (Double.round (Double.round (1 - v) * inject_Z (height d))) 0
                (inject_Z (height d) - 1)).

(** [this.depthArray[0][depthY * this.width + depthX]]; a coordinate that is
    not a number makes the index [NaN], which reads [undefined]. *)
Definition rawDepth (d : Depth) (array : DepthArray) (u v : number) : number :=
  match u, v with
  | Fin u, Fin v => typedArray_get array (depthY d v * width d + depthX d u)
  | _, _ => NaN
  end.

(** [getDepth(u, v)]: 0 when there is no depth array for view 0 yet. *)
Definition getDepth (d : Depth) (u v : number) : completion number :=
  match array_get (depthArray d) 0 with
  | None => Return (Fin 0)
  | Some array =>
      let rawDepth := rawDepth d array u v in
      cbind (rawValueToMeters d) (fun scale =>
      Return (Num.mul scale rawDepth))
  end.

(** [(2.0 * (u - 0.5), 2.0 * (v - 0.5), -1)]. *)
Definition clipPoint (u v : number) : Vector3 :=
  mkVector3 (Num.mul 2 (Num.add u (Num.opp (1 # 2))))
            (Num.mul 2 (Num.add v (Num.opp (1 # 2))))
            (- (1)).

(** The element [i] of an array of objects, used as an argument that the
    callee dereferences. *)
Definition object_at {A} (l : list A) (i : nat) : completion A :=
  match l !! i with
  | Some x => Return x
  | None => Throw
  end.

(** [getVertex(u, v)]: [null] when there is no depth array for view 0 yet. *)
Definition getVertex (d : Depth) (u v : number) : completion (option Vector3) :=
  match array_get (depthArray d) 0 with
  | None => Return None
  | Some array =>
      let rawDepth := rawDepth d array u v in
      cbind (rawValueToMeters d) (fun scale =>
      let depth := Num.mul scale rawDepth in
      let vertexPosition := clipPoint u v in
      cbind (object_at (depthProjectionInverseMatrices d) 0) (fun inverse =>
      let vertexPosition := Vector3.applyMatrix4 vertexPosition inverse in
      Return (Some (Vector3.multiplyScalar vertexPosition
                      (Num.div (Num.opp depth) (vz vertexPosition))))))
  end.

(** [getProjectedDepthViewPositionFromWorldPosition(position)], with a fresh
    [target]. *)
Definition getProjectedDepthViewPositionFromWorldPosition (d : Depth) (position : Vector3)
    : completion Vector3 :=
  cbind (object_at (depthViewMatrices d) 0) (fun viewMatrix =>
  cbind (object_at (depthProjectionMatrices d) 0) (fun projection =>
  let clipSpacePosition :=
    Vector3.applyMatrix4 (Vector3.applyMatrix4 position viewMatrix) projection in
  let u := Num.mul (1 # 2) (Num.add (vx clipSpacePosition) 1) in
  let v := Num.mul (1 # 2) (Num.add (vy clipSpacePosition) 1) in
  cbind (getDepth d u v) (fun depth =>
  let target := clipPoint u v in
  cbind (object_at (depthProjectionInverseMatrices d) 0) (fun inverse =>
  let target := Vector3.applyMatrix4 target inverse in
  Return (Vector3.multiplyScalar target (Num.div (Num.opp depth) (vz target))))))).

(** *** Ingestion *)

(** One turn of the loop of [updateDepthMatrices]: a default entry is pushed
    on each of the six arrays. *)
Definition pushView (d : Depth) : Depth :=
  set_depthCameraRotations (depthCameraRotations d ++ [mkQuaternion 0 0 0 1])
  (set_depthCameraPositions (depthCameraPositions d ++ [Vector3.zero])
  (set_depthProjectionInverseMatrices
     (depthProjectionInverseMatrices d ++ [Matrix4.identity])
  (set_depthProjectionMatrices (depthProjectionMatrices d ++ [Matrix4.identity])
  (set_depthViewProjectionMatrices
     (depthViewProjectionMatrices d ++ [Matrix4.identity])
  (set_depthViewMatrices (depthViewMatrices d ++ [Matrix4.identity]) d))))).

(** [while (viewId >= this.depthViewMatrices.length) { ... }]: the loop runs
    [viewId + 1 - length] times. *)
Definition populate (viewId : nat) (d : Depth) : Depth :=
  Nat.iter (S viewId - length (depthViewMatrices d)) pushView d.

(** A write into the buffer with the identity of [b], which then holds the
    bytes of [b]: every typed array and every sample the object holds that is
    a view of that buffer sees it. *)
Definition refresh_array (b : ArrayBuffer) (a : DepthArray) : DepthArray :=
  if decide (buffer_id (buffer a) = buffer_id b) then mkDepthArray (isFloat32 a) b else a.

Definition refresh_sample (b : ArrayBuffer) (c : XRCPUDepthInformation)
    : XRCPUDepthInformation :=
  if decide (buffer_id (data c) = buffer_id b)
  then mkXRCPUDepthInformation (cpu_info c) b else c.

Definition write_buffer (b : ArrayBuffer) (d : Depth) : Depth :=
  set_cpuDepthData (map (fmap (refresh_sample b)) (cpuDepthData d))
    (set_depthArray (map (fmap (refresh_array b)) (depthArray d)) d).

Section Ingestion.
Variable env : Env.

Definition updateDepthMatrices (depthData : XRDepthInformation) (viewId : nat)
    : Action unit :=
  modify (populate viewId) >>
  match projectionMatrix depthData, transform depthData with
  | Some projection, Some transform =>
      overwrite depthProjectionMatrices set_depthProjectionMatrices viewId projection >>
      overwrite depthViewMatrices set_depthViewMatrices viewId
        (inverse_matrix transform) >>
      overwrite depthCameraPositions set_depthCameraPositions viewId
        (position transform) >>
      overwrite depthCameraRotations set_depthCameraRotations viewId
        (orientation transform)
  | _, _ =>
      (* [this.renderer.xr?.getCamera()?.cameras?.[viewId] ?? this.camera] *)
      let! assigned := gets renderer in
      if assigned then
        let camera := default (camera env) (xrCameras env !! viewId) in
        overwrite depthProjectionMatrices set_depthProjectionMatrices viewId
          (camera_projectionMatrix camera) >>
        overwrite depthViewMatrices set_depthViewMatrices viewId
          (camera_matrixWorldInverse camera) >>
        overwrite depthCameraPositions set_depthCameraPositions viewId
          (camera_position camera) >>
        overwrite depthCameraRotations set_depthCameraRotations viewId
          (camera_quaternion camera)
      else throw
  end >>
  let! projection := element depthProjectionMatrices viewId in
  overwrite depthProjectionInverseMatrices set_depthProjectionInverseMatrices viewId
    (Matrix4_invert env projection) >>
  let! projection := element depthProjectionMatrices viewId in
  let! viewMatrix := element depthViewMatrices viewId in
  overwrite depthViewProjectionMatrices set_depthViewProjectionMatrices viewId
    (Matrix4.multiplyMatrices projection viewMatrix).

(** [this.depthMesh.position.copy(this.depthCameraPositions[0])] and
    [this.depthMesh.quaternion.copy(this.depthCameraRotations[0])]. *)
Definition poseMesh (mesh : DepthMesh) : Action unit :=
  let! cameraPosition := element depthCameraPositions 0 in
  modify (set_depthMesh (Some (mkDepthMesh cameraPosition (mesh_quaternion mesh)))) >>
  let! cameraRotation := element depthCameraRotations 0 in
  modify (set_depthMesh (Some (mkDepthMesh cameraPosition cameraRotation))).

Definition updateCPUDepthData (depthData : XRCPUDepthInformation) (viewId : nat)
    : Action unit :=
  modify (fun d => set_cpuDepthData (array_set (cpuDepthData d) viewId depthData) d) >>
  updateDepthMatrices (cpu_info depthData) viewId >>
  (* Updates Depth Array. *)
  modify (fun d => set_depthArray
            (array_set (depthArray d) viewId
               (typedArray (useFloat32 (options d)) (data depthData))) d) >>
  modify (set_width (info_width (cpu_info depthData))) >>
  modify (set_height (info_height (cpu_info depthData))) >>
  (* Updates Depth Texture. *)
  let! opts := gets options in
  let! textures := gets depthTextures in
  when (depthTexture_enabled opts && textures)
    (emit (TexturesUpdateData viewId)) >>
  let! mesh := gets depthMesh in
  match mesh with
  | Some mesh =>
      when (depthMesh_enabled opts && bool_decide (viewId = 0%nat))
        (emit MeshUpdateDepth >> poseMesh mesh)
  | None => ret tt
  end.

Definition updateGPUDepthData (depthData : XRWebGLDepthInformation) (viewId : nat)
    : Action unit :=
  modify (fun d => set_gpuDepthData (array_set (gpuDepthData d) viewId depthData) d) >>
  updateDepthMatrices (gpu_info depthData) viewId >>
  (* For now, assume that we need cpu depth only if depth mesh is enabled. *)
  let! opts := gets options in
  let! mesh := gets depthMesh in
  let needCpuDepth := depthMesh_enabled opts in
  let! cpuDepth :=
    (if needCpuDepth && bool_decide (is_Some mesh)
     then emit (MeshConvertGPUToGPU viewId) >> ret (convertGPUToGPU env depthData)
     else ret None) in
  match cpuDepth with
  | Some cpuDepth =>
      let! current := gets (fun d => array_get (depthArray d) viewId) in
      match current with
      | None =>
          modify (fun d => set_depthArray
                    (array_set (depthArray d) viewId
                       (typedArray (useFloat32 opts) (data cpuDepth))) d) >>
          modify (set_width (info_width (cpu_info cpuDepth))) >>
          modify (set_height (info_height (cpu_info cpuDepth)))
      | Some target =>
          (* Copies the data from an ArrayBuffer to the existing TypedArray. *)
          match typedArray_set target (typedArray (useFloat32 opts) (data cpuDepth)) with
          | Return target' => modify (write_buffer (buffer target'))
          | Throw => throw
          end
      end
  | None => ret tt
  end >>
  (* Updates Depth Texture. *)
  let! textures := gets depthTextures in
  when (depthTexture_enabled opts && textures)
    (emit (TexturesUpdateNativeTexture viewId)) >>
  match mesh with
  | Some mesh =>
      when (depthMesh_enabled opts && bool_decide (viewId = 0%nat))
        (emit (if cpuDepth is Some _ then MeshUpdateDepth else MeshUpdateGPUDepth) >>
         poseMesh mesh)
  | None => ret tt
  end.

(** The body of the loop over [pose.views], from index [viewId] on; a view
    without depth information ends the call. *)
Fixpoint ingestViews (frame : XRFrame) (views : list XRView) (viewId : nat)
    : Action unit :=
  match views with
  | [] => ret tt
  | xrView :: views =>
      modify (fun d => set_view (array_set (view d) viewId xrView) d) >>
      if depthUsage_gpu_optimized (session frame) then
        match binding_getDepthInformation frame xrView with
        | None => ret tt
        | Some depthData =>
            updateGPUDepthData depthData viewId >>
            ingestViews frame views (S viewId)
        end
      else
        match frame_getDepthInformation frame xrView with
        | None => ret tt
        | Some depthData =>
            updateCPUDepthData depthData viewId >>
            ingestViews frame views (S viewId)
        end
  end.

(** The gate at the start of [updateLocalDepth]: the commands sent to the
    session, and whether the call ends there. *)
Definition gate (frame : XRFrame) : Action bool :=
  let session := session frame in
  let pausingDepthSupported := bool_decide (is_Some (depthActive session)) in
  let! initialized := gets depthClientsInitialized in
  let! clients := gets depthClients in
  if pausingDepthSupported && initialized then
    let needsDepth := bool_decide (0 < size clients)%nat in
    let active := default false (depthActive session) in
    (if active && negb needsDepth then emit SessionPauseDepthSensing
     else if negb active && needsDepth then emit SessionResumeDepthSensing
     else ret tt) >>
    ret (bool_decide (size clients = 0%nat))
  else ret false.

Definition updateLocalDepth (frame : XRFrame) : Action unit :=
  let! stop := gate frame in
  if stop then ret tt
  else if referenceSpace frame then
    match viewerPose frame with
    | Some views => ingestViews frame views 0
    | None => emit ConsoleError
    end
  else ret tt.
End Ingestion.

(** *** Clients *)

Definition resumeDepth (client : Client) : Action unit :=
  modify (set_depthClientsInitialized true) >>
  modify (fun d => set_depthClients ({[client]} ∪ depthClients d) d).

Definition pauseDepth (client : Client) : Action unit :=
  modify (set_depthClientsInitialized true) >>
  modify (fun d => set_depthClients (depthClients d ∖ {[client]}) d).

(** [init]: stores the options and constructs the consumers they enable. *)
Definition init (options : DepthOptions) : Action unit :=
  modify (fun d =>
    mkDepth true (options_enabled options) (view d) (cpuDepthData d) (gpuDepthData d)
      (depthArray d)
      (if depthMesh_enabled options then Some DepthMesh_new else depthMesh d)
      (if depthTexture_enabled options then true else depthTextures d)
      options (width d) (height d) (depthClientsInitialized d) (depthClients d)
      (depthProjectionMatrices d) (depthProjectionInverseMatrices d)
      (depthViewMatrices d) (depthViewProjectionMatrices d)
      (depthCameraPositions d) (depthCameraRotations d)).

(** ** Reachable states *)

Inductive Call :=
  | CallInit (options : DepthOptions)
  | CallUpdateLocalDepth (env : Env) (frame : XRFrame)
  | CallUpdateCPUDepthData (env : Env) (depthData : XRCPUDepthInformation) (viewId : nat)
  | CallUpdateGPUDepthData (env : Env) (depthData : XRWebGLDepthInformation) (viewId : nat)
  | CallResumeDepth (client : Client)
  | CallPauseDepth (client : Client).

Definition perform (c : Call) : Action unit :=
  match c with
  | CallInit options => init options
  | CallUpdateLocalDepth env frame => updateLocalDepth env frame
  | CallUpdateCPUDepthData env depthData viewId => updateCPUDepthData env depthData viewId
  | CallUpdateGPUDepthData env depthData viewId => updateGPUDepthData env depthData viewId
  | CallResumeDepth client => resumeDepth client
  | CallPauseDepth client => pauseDepth client
  end.

(** The states of a [Depth] object in use: the one [init] leaves of a fresh
    object, and the one any call of a method leaves behind, whether the call
    returns or throws. *)
Inductive reachable : Depth -> Prop :=
  | reachable_init defaults options :
      reachable (final (init options (Depth_new defaults)))
  | reachable_call d c : reachable d -> reachable (final (perform c d)).

(** The states reached after a first [resumeDepth] or [pauseDepth]. *)
Inductive requested : Depth -> Prop :=
  | requested_resume d client : reachable d -> requested (final (resumeDepth client d))
  | requested_pause d client : reachable d -> requested (final (pauseDepth client d))
  | requested_call d c : requested d -> requested (final (perform c d)).

(** ** Vocabulary of the specification *)

(** The six per-view arrays have one length. *)
Definition aligned (d : Depth) : Prop :=
  length (depthViewProjectionMatrices d) = length (depthViewMatrices d) /\
  length (depthProjectionMatrices d) = length (depthViewMatrices d) /\
  length (depthProjectionInverseMatrices d) = length (depthViewMatrices d) /\
  length (depthCameraPositions d) = length (depthViewMatrices d) /\
  length (depthCameraRotations d) = length (depthViewMatrices d).

(** The state after [n] turns of the loop of [updateDepthMatrices]. *)
Definition pushed (n : nat) (d : Depth) : Depth :=
  set_depthCameraRotations (depthCameraRotations d ++ replicate n (mkQuaternion 0 0 0 1))
  (set_depthCameraPositions (depthCameraPositions d ++ replicate n Vector3.zero)
  (set_depthProjectionInverseMatrices
     (depthProjectionInverseMatrices d ++ replicate n Matrix4.identity)
  (set_depthProjectionMatrices (depthProjectionMatrices d ++ replicate n Matrix4.identity)
  (set_depthViewProjectionMatrices
     (depthViewProjectionMatrices d ++ replicate n Matrix4.identity)
  (set_depthViewMatrices (depthViewMatrices d ++ replicate n Matrix4.identity) d))))).

(** The matrices and the pose an update takes: those of the depth
    information when it has both a projection matrix and a transform, else
    those of the render camera of the view, else those of the main camera. *)
Definition sourceCamera (env : Env) (depthData : XRDepthInformation) (viewId : nat)
    : Camera :=
  match projectionMatrix depthData, transform depthData with
  | Some projection, Some transform =>
      mkCamera projection (inverse_matrix transform) (position transform)
        (orientation transform)
  | _, _ => default (camera env) (xrCameras env !! viewId)
  end.

(** Whether [updateDepthMatrices] has a source for its matrices: the depth
    information has a projection matrix and a transform, or [init] has
    assigned the renderer and the camera. *)
Definition sourced (depthData : XRDepthInformation) (d : Depth) : bool :=
  match projectionMatrix depthData, transform depthData with
  | Some _, Some _ => true
  | _, _ => renderer d
  end.

(** The state [updateDepthMatrices] leaves when the arrays have an entry for
    [viewId]. *)
Definition withMatrices (invert : Matrix4 -> Matrix4) (source : Camera) (viewId : nat)
    (d : Depth) : Depth :=
  let projection := camera_projectionMatrix source in
  let viewMatrix := camera_matrixWorldInverse source in
  set_depthViewProjectionMatrices
    (<[viewId := Matrix4.multiplyMatrices projection viewMatrix]>
       (depthViewProjectionMatrices d))
  (set_depthProjectionInverseMatrices
    (<[viewId := invert projection]> (depthProjectionInverseMatrices d))
  (set_depthCameraRotations
    (<[viewId := camera_quaternion source]> (depthCameraRotations d))
  (set_depthCameraPositions
    (<[viewId := camera_position source]> (depthCameraPositions d))
  (set_depthViewMatrices (<[viewId := viewMatrix]> (depthViewMatrices d))
  (set_depthProjectionMatrices (<[viewId := projection]> (depthProjectionMatrices d))
     d))))).

(** From a state with [P], the method leaves a state with [Q], whether it
    returns or throws. *)
Definition hoare {A} (P : Depth -> Prop) (m : Action A) (Q : Depth -> Prop) : Prop :=
  forall d, P d -> Q (final (m d)).

Abbreviation stable P m := (hoare P m P).

(** The invariant of the ingestion: the per-view arrays are aligned and are
    longer than the index of every stored depth array. *)
Definition covered (d : Depth) : Prop :=
  aligned d /\
  forall i, is_Some (array_get (depthArray d) i) -> (i < length (depthViewMatrices d))%nat.

(** [covered], and the per-view arrays have an entry for [viewId]. *)
Definition covering (viewId : nat) (d : Depth) : Prop :=
  covered d /\ (viewId < length (depthViewMatrices d))%nat.








(** ** Sample inputs *)

(** The scenario of the spec: a CPU sample of 4 by 4 pixels, every raw value
    1000 in 16 bits, one raw unit a millimetre. *)
Definition sample4x4 : XRCPUDepthInformation :=
  {| cpu_info := {| info_width := 4; info_height := 4;
                    info_rawValueToMeters := 1 # 1000;
                    projectionMatrix := None; transform := None |};
     data := mkArrayBuffer 1 (replicate 8 (half_of 1000, half_of 1000)) |}.

(** The same sample in 32-bit floats: the pattern of [1000.0]. *)
Definition float4x4 : XRCPUDepthInformation :=
  {| cpu_info := cpu_info sample4x4;
     data := mkArrayBuffer 4 (replicate 16 (word_of 1148846080)) |}.

(** A CPU sample of 3 by 2 pixels with the raw values 10 to 60. *)
Definition sample3x2 : XRCPUDepthInformation :=
  {| cpu_info := {| info_width := 3; info_height := 2;
                    info_rawValueToMeters := 1 # 1000;
                    projectionMatrix := None; transform := None |};
     data := mkArrayBuffer 3 [(half_of 10, half_of 20); (half_of 30, half_of 40);
                              (half_of 50, half_of 60)] |}.

(** The double nearest to one sixth.  It is below one sixth, and three times
    it, which is below one half, is one half as a double. *)
Definition sixth : Q := Eval vm_compute in Double.round (1 # 6).

(** A GPU sample of the same size. *)
Definition texture4x4 : XRWebGLDepthInformation :=
  {| gpu_info := cpu_info sample4x4; texture := 1%nat |}.


Definition exampleCamera : Camera :=
  mkCamera Matrix4.identity Matrix4.identity Vector3.zero (mkQuaternion 0 0 0 1).

Definition exampleEnv : Env := mkEnv exampleCamera [] (fun _ => None) Matrix4.inverse.

(** Depth enabled on the CPU path, without textures, mesh or occlusion. *)
Definition exampleOptions : DepthOptions := mkDepthOptions true false false false false.

(** The state of an object that was initialised with them. *)
Definition initialDepth : Depth := final (init exampleOptions (Depth_new exampleOptions)).

(** The state after the sample of the scenario was ingested for view 0. *)
Definition exampleDepth : Depth :=
  final (updateCPUDepthData exampleEnv sample4x4 0 initialDepth).

(** The image of the clip-space point of [(0.5, 0.5)] under the inverse
    projection matrix of [exampleDepth], its z-component, and the depth there. *)
Definition exampleRay : Vector3 :=
  Vector3.applyMatrix4
    (mkVector3 (2 * (1 # 2) - 1) (2 * (1 # 2) - 1) (- (1))) Matrix4.identity.

Definition exampleRayZ : Q := Eval vm_compute in Num.to_Q (vz exampleRay).

Definition exampleMeters : number :=
  Eval vm_compute in
    match getDepth exampleDepth (1 # 2) (1 # 2) with
    | Return meters => meters
    | Throw => NaN
    end.

(** Options with the depth mesh enabled, and the state of an object that was
    initialised with them. *)
Definition meshOptions : DepthOptions := mkDepthOptions true false false true false.

Definition meshDepth : Depth := final (init meshOptions (Depth_new exampleOptions)).

(** A CPU sample as the read-back of the depth mesh delivers it: 4 by 4
    pixels, every raw value 2000, in a buffer of its own. *)
Definition converted4x4 : XRCPUDepthInformation :=
  {| cpu_info := cpu_info sample4x4;
     data := mkArrayBuffer 2 (replicate 8 (half_of 2000, half_of 2000)) |}.

(** An environment whose read-back is available. *)
Definition convertingEnv : Env :=
  mkEnv exampleCamera [] (fun _ => Some converted4x4) Matrix4.inverse.

(** The state after a GPU sample was ingested for view 0 and read back, and a
    CPU sample was ingested for view 1: [cpuDepthData] has a hole at index 0. *)
Definition holeDepth : Depth :=
  final (updateCPUDepthData exampleEnv sample4x4 1
           (final (updateGPUDepthData convertingEnv texture4x4 0 meshDepth))).




(** A frame of a session that can pause depth sensing, with two views of
    which only the first has depth information. *)
Definition exampleFrame : XRFrame :=
  {| session := mkXRSession (Some true) false;
     referenceSpace := true;
     viewerPose := Some [0%nat; 1%nat];
     frame_getDepthInformation := fun xrView =>
       if decide (xrView = 0%nat) then Some sample4x4 else None;
     binding_getDepthInformation := fun _ => None |}.

(** ** Vocabulary of the further properties *)

(** From a state with [P] the method returns, with a value and a state
    that satisfy [Q]. *)
Definition total {A} (P : Depth -> Prop) (m : Action A) (Q : A -> Depth -> Prop) : Prop :=
  forall d, P d -> exists a, value (m d) = Return a /\ Q a (final (m d)).

(** What [updateCPUDepthData] has stored when it is done. *)
Definition storedCPU (d : Depth) (depthData : XRCPUDepthInformation) (viewId : nat)
    (d' : Depth) : Prop :=
  covering viewId d' /\
  array_get (depthArray d') viewId =
    Some (typedArray (useFloat32 (options d)) (data depthData)) /\
  array_get (cpuDepthData d') viewId = Some depthData /\
  width d' = info_width (cpu_info depthData) /\
  height d' = info_height (cpu_info depthData) /\
  options d' = options d /\
  gpuDepthData d' = gpuDepthData d /\
  view d' = view d /\
  (forall j, j <> viewId -> array_get (depthArray d') j = array_get (depthArray d) j) /\
  (forall j, j <> viewId -> array_get (cpuDepthData d') j = array_get (cpuDepthData d) j).


(** [d'] has everything [d] has: no per-view array is shorter, and every
    index that held a view, a depth sample or a depth array still holds one. *)
Definition extends (d d' : Depth) : Prop :=
  (length (depthViewMatrices d) <= length (depthViewMatrices d'))%nat /\
  (length (depthProjectionMatrices d) <= length (depthProjectionMatrices d'))%nat /\
  (length (depthProjectionInverseMatrices d)
   <= length (depthProjectionInverseMatrices d'))%nat /\
  (length (depthViewProjectionMatrices d) <= length (depthViewProjectionMatrices d'))%nat /\
  (length (depthCameraPositions d) <= length (depthCameraPositions d'))%nat /\
  (length (depthCameraRotations d) <= length (depthCameraRotations d'))%nat /\
  (forall i, is_Some (array_get (view d) i) -> is_Some (array_get (view d') i)) /\
  (forall i, is_Some (array_get (cpuDepthData d) i) ->
             is_Some (array_get (cpuDepthData d') i)) /\
  (forall i, is_Some (array_get (gpuDepthData d) i) ->
             is_Some (array_get (gpuDepthData d') i)) /\
  (forall i, is_Some (array_get (depthArray d) i) -> is_Some (array_get (depthArray d') i)).

(** Where [updateCPUDepthData] and [updateGPUDepthData] leave the depth mesh
    of the state [d] after an update of the view [viewId] from [source]. *)
Definition posedMesh (d : Depth) (source : Camera) (viewId : nat) : option DepthMesh :=
  match depthMesh d with
  | Some mesh =>
      if depthMesh_enabled (options d) && bool_decide (viewId = 0%nat)
      then Some (mkDepthMesh (camera_position source) (camera_quaternion source))
      else Some mesh
  | None => None
  end.

(** The events that are commands to the XR session. *)
Definition sessionCommand (e : Event) : bool :=
  match e with
  | SessionPauseDepthSensing | SessionResumeDepthSensing => true
  | _ => false
  end.

(** Every event of the method satisfies [E], whatever the state. *)
Definition emits {A} (E : Event -> Prop) (m : Action A) : Prop :=
  forall d, Forall E (trace (m d)).

(** The events of the ingestion of a view: no command to the session and no
    error message. *)
Abbreviation ingesting := (fun e : Event => sessionCommand e = false /\ e <> ConsoleError).

(** The command the gate of [updateLocalDepth] sends in the state [d]. *)
Definition gateCommand (frame : XRFrame) (d : Depth) : list Event :=
  match depthActive (session frame) with
  | Some active =>
      if depthClientsInitialized d then
        if active && bool_decide (size (depthClients d) = 0%nat)
        then [SessionPauseDepthSensing]
        else if negb active && negb (bool_decide (size (depthClients d) = 0%nat))
        then [SessionResumeDepthSensing]
        else []
      else []
  | None => []
  end.

(** Whether [updateLocalDepth] ends at its gate in the state [d]. *)
Definition gated (frame : XRFrame) (d : Depth) : bool :=
  bool_decide (is_Some (depthActive (session frame))) && depthClientsInitialized d &&
  bool_decide (size (depthClients d) = 0%nat).

(** What the loop of [updateLocalDepth] has stored when it has gone through
    [views] from the index [viewId] on, on the CPU path. *)
Definition ingested (frame : XRFrame) (views : list XRView) (viewId : nat)
    (d d' : Depth) : Prop :=
  covered d' /\ options d' = options d /\
  (forall k xrView, views !! k = Some xrView ->
     exists depthData,
       frame_getDepthInformation frame xrView = Some depthData /\
       array_get (depthArray d') (viewId + k) =
         Some (typedArray (useFloat32 (options d)) (data depthData)) /\
       array_get (cpuDepthData d') (viewId + k) = Some depthData /\
       array_get (view d') (viewId + k) = Some xrView) /\
  (forall j, (j < viewId)%nat ->
     array_get (depthArray d') j = array_get (depthArray d) j /\
     array_get (cpuDepthData d') j = array_get (cpuDepthData d) j /\
     array_get (view d') j = array_get (view d) j).

(** A frame with two views, both with depth information. *)
Definition stereoFrame : XRFrame :=
  {| session := mkXRSession None false;
     referenceSpace := true;
     viewerPose := Some [0%nat; 1%nat];
     frame_getDepthInformation := fun _ => Some sample4x4;
     binding_getDepthInformation := fun _ => None |}.

(** * Raycaster: the order of intersections

    The class [Raycaster] of [src/src/core/components/Raycaster.ts] with its
    two helpers.  An intersection is what the sorting function reads of it.
    An object of the scene graph is what [intersect] reads of it: the mask of
    its layers, its children, and its method [raycast], given by the
    intersections it pushes for the ray at hand and by whether it returns
    [false].  [Array.prototype.sort] belongs to the engine and is a parameter
    of the two methods that call it. *)

Module Raycaster.

Record Intersection := mkIntersection {
  distance : Q;
  object_renderOrder : Q;
  object_id : Z
}.

(** Sorting function which uses the render order to try to find which
    element is on top. *)
Definition defaultSortFunction (a b : Intersection) : Q :=
  (* 1. Primary: Distance (Ascending). *)
  let distDiff := distance a - distance b in
  if negb (Qle_bool (Qabs distDiff) (1 # 100000)) then distDiff
  (* 2. Secondary: Render Order (Descending). *)
  else if negb (Qeq_bool (object_renderOrder a) (object_renderOrder b))
  then object_renderOrder b - object_renderOrder a
  (* 3. Fallback to id (Descending). *)
  else inject_Z (object_id b) - inject_Z (object_id a).

#[warnings="-register-all"] Inductive Object3D := mkObject3D {
  layers : Z;
  raycast_pushes : list Intersection;
  raycast_returns_false : bool;
  children : list Object3D
}.

(** three.js: [Layers.test], [(this.mask & layers.mask) !== 0]. *)
Definition Layers_test (mask other : Z) : bool := negb (Z.land mask other =? 0)%Z.

(** [intersect(object, raycaster, intersects, recursive)]; the result is
    [intersects] after the call. *)
Fixpoint intersect (object : Object3D) (raycaster_layers : Z)
    (intersects : list Intersection) (recursive : bool) : list Intersection :=
  let tested := Layers_test (layers object) raycaster_layers in
  let intersects := if tested then intersects ++ raycast_pushes object else intersects in
  let propagate := negb (tested && raycast_returns_false object) in
  if propagate && recursive then
    fold_left (fun intersects child => intersect child raycaster_layers intersects true)
      (children object) intersects
  else intersects.

Record Raycaster := mkRaycaster {
  raycaster_layers : Z;
  sortFunction : Intersection -> Intersection -> Q
}.

(** A raycaster as its constructor leaves it, for the layers [mask]. *)
Definition Raycaster_new (mask : Z) : Raycaster := mkRaycaster mask defaultSortFunction.

Section Sort.
Variable sort : (Intersection -> Intersection -> Q) -> list Intersection -> list Intersection.

Definition intersectObject (this : Raycaster) (object : Object3D) (recursive : bool)
    (intersects : list Intersection) : list Intersection :=
  sort (sortFunction this) (intersect object (raycaster_layers this) intersects recursive).

Definition intersectObjects (this : Raycaster) (objects : list Object3D) (recursive : bool)
    (intersects : list Intersection) : list Intersection :=
  sort (sortFunction this)
    (fold_left (fun intersects object =>
                  intersect object (raycaster_layers this) intersects recursive)
       objects intersects).
End Sort.

(** The objects [intersect] calls [raycast] on or skips for their layers, in
    the order it reaches them: the descendants of an object whose [raycast]
    ran and returned [false] are left out. *)
Fixpoint visited (raycaster_layers : Z) (object : Object3D) : list Object3D :=
  object ::
  (if Layers_test (layers object) raycaster_layers && raycast_returns_false object
   then []
   else flat_map (visited raycaster_layers) (children object)).

(** What the [raycast] of [object] adds for a raycaster with the layers
    [raycaster_layers]. *)
Definition hits (raycaster_layers : Z) (object : Object3D) : list Intersection :=
  if Layers_test (layers object) raycaster_layers then raycast_pushes object else [].

(** Two intersections whose distances the sorting function does not tell
    apart. *)
Definition tied (a b : Intersection) : Prop :=
  Qabs (distance a - distance b) <= 1 # 100000.

(** A stable merge sort by the sign of the comparator. *)
Definition mergeSort (compare : Intersection -> Intersection -> Q)
    (l : list Intersection) : list Intersection :=
  merge_sort (fun a b => Qle_bool (compare a b) 0) l.

(** Three intersections a hundredth of a millimetre apart, the farther the
    higher its render order, and a small scene that produces them. *)
Definition near : Intersection := mkIntersection 0 0 1.
Definition middle : Intersection := mkIntersection (6 # 1000000) 1 2.
Definition far : Intersection := mkIntersection (12 # 1000000) 2 3.

Definition exampleScene : Object3D :=
  mkObject3D 1 [far] false
    [ mkObject3D 2 [middle] false [mkObject3D 1 [near] false []];
      mkObject3D 1 [] true [mkObject3D 1 [middle] false []] ].

End Raycaster.

(** * DetectedMesh: the geometry of a detected mesh and its collider

    [toFlatArray] and the class [DetectedMesh] of
    [src/demos/3dgs-walkthrough/main.js], lines 209-278.  A [Float32Array] is
    the list of its elements.  The physics world is observed through the
    [Call]s made to it; a collider is the triangle mesh it was created from.
    The normals [computeVertexNormals] derives are not modelled. *)

Module DetectedMesh.

(** [xrMesh.vertices]: a [Float32Array], or an array of them. *)
Inductive Vertices :=
  | Flat (array : list Q)
  | Chunks (array : list (list Q)).

(** [new Float32Array(length)]. *)
Definition Float32Array_new (length : nat) : list Q := replicate length 0.

(** [result.set(arr, offset)]: a [RangeError] when [arr] does not fit at
    [offset]. *)
Definition Float32Array_set (result arr : list Q) (offset : nat) : completion (list Q) :=
  if decide (offset + length arr <= length result)%nat
  then Return (take offset result ++ arr ++ drop (offset + length arr) result)
  else Throw.

Definition toFlatArray (array : Vertices) : completion (list Q) :=
  match array with
  | Flat array => Return array
  | Chunks array =>
      let result :=
        Float32Array_new (fold_left (fun sum arr => (sum + length arr)%nat) array 0%nat) in
      cbind
        (fold_left
           (fun state arr =>
              cbind state (fun '(result, offset) =>
              cbind (Float32Array_set result arr offset) (fun result =>
              Return (result, (offset + length arr)%nat))))
           array (Return (result, 0%nat)))
        (fun '(result, _) => Return result)
  end.

Record XRMesh := mkXRMesh {
  vertices : Vertices;
  indices : list Z;
  mesh_lastChangedTime : Q;
  mesh_semanticLabel : option String.string
}.

(** A [BufferGeometry] with its [position] attribute and its index. *)
Record BufferGeometry := mkBufferGeometry {
  position : list Q;
  index : list Z
}.

(** [RAPIER.ColliderDesc.trimesh(vertices, indices)], and the collider
    created from it. *)
Record Collider := trimesh {
  collider_vertices : list Q;
  collider_indices : list Z
}.

Record DetectedMesh := mkDetectedMesh {
  geometry : BufferGeometry;
  RAPIER : bool;
  rigidBody : bool;
  collider : option Collider;
  blendedWorld : bool;
  lastChangedTime : Q;
  semanticLabel : option String.string
}.

(** The calls a method makes on the geometry it replaces and on the physics
    world. *)
Inductive Call :=
  | GeometryDispose (geometry : BufferGeometry)
  | CreateRigidBody
  | RemoveCollider (collider : Collider)
  | CreateCollider (desc : Collider).

Record Outcome := mkOutcome {
  outcome : completion unit;
  after : DetectedMesh;
  calls : list Call
}.

(** [new DetectedMesh(xrMesh, material)]. *)
Definition constructor (xrMesh : XRMesh) : completion DetectedMesh :=
  cbind (toFlatArray (vertices xrMesh)) (fun vertices =>
  Return (mkDetectedMesh (mkBufferGeometry vertices (indices xrMesh)) false false None
            false (mesh_lastChangedTime xrMesh) (mesh_semanticLabel xrMesh))).

Definition initRapierPhysics (this : DetectedMesh) : Outcome :=
  let colliderDesc := trimesh (position (geometry this)) (index (geometry this)) in
  mkOutcome (Return tt)
    (mkDetectedMesh (geometry this) true true (Some colliderDesc) true
       (lastChangedTime this) (semanticLabel this))
    [CreateRigidBody; CreateCollider colliderDesc].

Definition updateVertices (mesh : XRMesh) (this : DetectedMesh) : Outcome :=
  if Qeq_bool (mesh_lastChangedTime mesh) (lastChangedTime this)
  then mkOutcome (Return tt) this []
  else
    let this :=
      mkDetectedMesh (geometry this) (RAPIER this) (rigidBody this) (collider this)
        (blendedWorld this) (mesh_lastChangedTime mesh) (semanticLabel this) in
    match toFlatArray (vertices mesh) with
    | Throw => mkOutcome Throw this []
    | Return vertices =>
        let disposed := GeometryDispose (geometry this) in
        let this :=
          mkDetectedMesh (mkBufferGeometry vertices (indices mesh)) (RAPIER this)
            (rigidBody this) (collider this) (blendedWorld this) (lastChangedTime this)
            (semanticLabel this) in
        match collider this with
        | Some old =>
            if RAPIER this then
              if blendedWorld this then
                let colliderDesc := trimesh vertices (indices mesh) in
                mkOutcome (Return tt)
                  (mkDetectedMesh (geometry this) (RAPIER this) (rigidBody this)
                     (Some colliderDesc) (blendedWorld this) (lastChangedTime this)
                     (semanticLabel this))
                  [disposed; RemoveCollider old; CreateCollider colliderDesc]
              else mkOutcome Throw this [disposed]
            else mkOutcome (Return tt) this [disposed]
        | None => mkOutcome (Return tt) this [disposed]
        end
    end.

(** The meshes the class produces: a constructed one, and one after a call
    of a method. *)
Inductive reachable : DetectedMesh -> Prop :=
  | reachable_constructor xrMesh this :
      constructor xrMesh = Return this -> reachable this
  | reachable_initRapierPhysics this :
      reachable this -> reachable (after (initRapierPhysics this))
  | reachable_updateVertices mesh this :
      reachable this -> reachable (after (updateVertices mesh this)).

(** The collider, when there is one, was made from the geometry, and the
    physics world it lives in is known. *)
Definition collider_current (this : DetectedMesh) : Prop :=
  forall c, collider this = Some c ->
    RAPIER this = true /\ blendedWorld this = true /\
    c = trimesh (position (geometry this)) (index (geometry this)).

(** A detected mesh in two chunks, and a later version of it. *)
Definition exampleMesh : XRMesh :=
  mkXRMesh (Chunks [[0; 0; 0; 1; 0; 0]; [0; 1; 0]]) [0; 1; 2]%Z 1 None.

Definition laterMesh : XRMesh :=
  mkXRMesh (Flat [0; 0; 0; 2; 0; 0; 0; 2; 0]) [0; 1; 2]%Z 2 None.

Definition exampleDetectedMesh : DetectedMesh :=
  Eval vm_compute in
    match constructor exampleMesh with
    | Return this => this
    | Throw => mkDetectedMesh (mkBufferGeometry [] []) false false None false 0 None
    end.

End DetectedMesh.

(** * WalkthroughManager: the crossfade between splats

    The fade state of the class [WalkthroughManager] of
    [src/demos/3dgs-walkthrough/main.js], lines 1-208: [cycleSplat],
    [onKeyDown] and [updateFade].  A splat mesh is its opacity and whether it
    is in the scene; the meshes are distinct objects.  [null] is [None].  The
    flags of the movement keys, which these methods do not read, and
    [updateLocomotion] are not modelled.  [Math.cos], [Math.PI],
    [String.prototype.toLowerCase] and [parseInt] belong to the engine and are
    parameters; [parseInt] yields an integer, or [None] when the result is
    not finite. *)

Module Walkthrough.

Definition FADE_DURATION_S : Q := 1.

Record SplatMesh := mkSplatMesh {
  opacity : Q;
  parent : bool
}.

Record WalkthroughManager := mkWalkthroughManager {
  splatMeshes : list SplatMesh;
  currentIndex : option number;
  fadeProgress : option Q;
  nextIndex : option number
}.

(** [x < y] of two numbers. *)
Definition Qlt_bool (x y : Q) : bool := negb (Qle_bool y x).

(** The number an index stands for in arithmetic: [null] is [0]. *)
Definition to_number (i : option number) : number := default (Fin 0) i.

(** [Math.trunc], and [a % b]: the remainder has the sign of [a], and is
    [NaN] when [b] is zero. *)
Definition trunc (x : Q) : Z := if Qle_bool 0 x then Qfloor x else Qceiling x.

Definition rem (a b : number) : number :=
  match a, b with
  | Num.Fin x, Num.Fin y =>
      if Qeq_bool y 0 then NaN else Fin (x - y * inject_Z (trunc (x / y)))
  | _, _ => NaN
  end.

(** [array[i]]: the position [i] denotes when it is an index of [array];
    [undefined] otherwise. *)
Definition index_of {A} (array : list A) (i : option number) : option nat :=
  match i with
  | Some (Num.Fin q) =>
      let z := Qfloor q in
      if Qeq_bool (inject_Z z) q && (0 <=? z)%Z && (Z.to_nat z <? length array)%nat
      then Some (Z.to_nat z)
      else None
  | _ => None
  end.

(** [idx !== this.currentIndex]. *)
Definition strict_ne (idx : number) (i : option number) : bool :=
  match idx, i with
  | Num.Fin x, Some (Num.Fin y) => negb (Qeq_bool x y)
  | _, _ => true
  end.

Definition set_mesh (i : nat) (f : SplatMesh -> SplatMesh) (this : WalkthroughManager)
    : WalkthroughManager :=
  mkWalkthroughManager (alter f i (splatMeshes this)) (currentIndex this)
    (fadeProgress this) (nextIndex this).

(** [this.splatMeshes[i].opacity = x]. *)
Definition set_opacity (i : nat) (x : Q) : WalkthroughManager -> WalkthroughManager :=
  set_mesh i (fun mesh => mkSplatMesh x (parent mesh)).

(** [xb.scene.remove(this.splatMeshes[i])] and [xb.add(this.splatMeshes[i])]. *)
Definition scene_remove (i : nat) : WalkthroughManager -> WalkthroughManager :=
  set_mesh i (fun mesh => mkSplatMesh (opacity mesh) false).

Definition scene_add (i : nat) : WalkthroughManager -> WalkthroughManager :=
  set_mesh i (fun mesh => mkSplatMesh (opacity mesh) true).

Definition has_parent (i : nat) (this : WalkthroughManager) : bool :=
  match splatMeshes this !! i with
  | Some mesh => parent mesh
  | None => false
  end.

Record Outcome := mkOutcome {
  outcome : completion unit;
  after : WalkthroughManager
}.

(** The fade state [init] leaves, given the meshes it has loaded: the first
    one is shown. *)
Definition init (meshes : list SplatMesh) : WalkthroughManager :=
  scene_add 0 (mkWalkthroughManager meshes (Some (Fin 0)) None None).

(** Starts a crossfade to the next splat (wrapping around). *)
Definition cycleSplat (this : WalkthroughManager) : WalkthroughManager :=
  match fadeProgress this with
  | Some _ => this
  | None =>
      mkWalkthroughManager (splatMeshes this) (currentIndex this) (Some 0)
        (Some (rem (Num.add (to_number (currentIndex this)) (Fin 1))
                 (Fin (inject_Z (Z.of_nat (length (splatMeshes this)))))))
  end.

Section Engine.
Variable Math_cos : Q -> Q.
Variable Math_PI : Q.
Variable toLowerCase : String.string -> String.string.
Variable parseInt : String.string -> option Z.

Definition easeInOutSine (x : Q) : Q := - (Math_cos (Math_PI * x) - 1) / 2.

Definition onKeyDown (event_key : String.string) (this : WalkthroughManager)
    : WalkthroughManager :=
  let key := toLowerCase event_key in
  (* Number key: jump to that splat (1-indexed). *)
  match parseInt key with
  | Some n =>
      let idx := inject_Z n - 1 in
      if Qle_bool 0 idx &&
         Qlt_bool idx (inject_Z (Z.of_nat (length (splatMeshes this)))) &&
         strict_ne (Fin idx) (currentIndex this) &&
         bool_decide (fadeProgress this = None)
      then mkWalkthroughManager (splatMeshes this) (currentIndex this) (Some 0)
             (Some (Fin idx))
      else this
  | None => this
  end.

(** Handles the fade-out, fade-in crossfade between splats. *)
Definition updateFade (dt : Q) (this : WalkthroughManager) : Outcome :=
  match fadeProgress this with
  | None => mkOutcome (Return tt) this
  | Some progress =>
      let progress := progress + dt in
      let this :=
        mkWalkthroughManager (splatMeshes this) (currentIndex this) (Some progress)
          (nextIndex this) in
      match index_of (splatMeshes this) (currentIndex this) with
      | None => mkOutcome Throw this
      | Some current =>
          if Qlt_bool progress FADE_DURATION_S then
            (* Fading out the current splat. *)
            mkOutcome (Return tt)
              (set_opacity current
                 (1 - easeInOutSine (progress / FADE_DURATION_S)) this)
          else if Qlt_bool progress (2 * FADE_DURATION_S) then
            (* Swap on the first frame of the fade-in phase. *)
            let swapped :=
              if has_parent current this then
                let this := scene_remove current this in
                let this :=
                  mkWalkthroughManager (splatMeshes this) (nextIndex this)
                    (fadeProgress this) (nextIndex this) in
                match index_of (splatMeshes this) (currentIndex this) with
                | Some next => mkOutcome (Return tt) (scene_add next (set_opacity next 0 this))
                | None => mkOutcome Throw this
                end
              else mkOutcome (Return tt) this in
            match outcome swapped with
            | Throw => swapped
            | Return _ =>
                let this := after swapped in
                (* Fading in the new splat. *)
                let inProgress := (progress - FADE_DURATION_S) / FADE_DURATION_S in
                match index_of (splatMeshes this) (currentIndex this) with
                | Some shown =>
                    mkOutcome (Return tt)
                      (set_opacity shown (easeInOutSine inProgress) this)
                | None => mkOutcome Throw this
                end
            end
          else
            (* Fade complete. *)
            mkOutcome (Return tt)
              (mkWalkthroughManager (splatMeshes (set_opacity current 1 this))
                 (currentIndex this) None None)
      end
  end.
(** The states of the fade: the one [init] leaves when it has loaded some
    meshes, none of them in the scene, and the ones the methods lead to. *)
Inductive reachable : WalkthroughManager -> Prop :=
  | reachable_init meshes :
      meshes <> [] -> Forall (fun mesh => parent mesh = false) meshes ->
      reachable (init meshes)
  | reachable_cycleSplat this : reachable this -> reachable (cycleSplat this)
  | reachable_onKeyDown event_key this :
      reachable this -> reachable (onKeyDown event_key this)
  | reachable_updateFade dt this :
      reachable this -> reachable (after (updateFade dt this)).
End Engine.

(** ** Vocabulary *)

(** [i] is the number of the position [k]. *)
Definition denotes (i : option number) (k : nat) : Prop :=
  exists q, i = Some (Fin q) /\ q == inject_Z (Z.of_nat k).

(** The splat at the position [current] is the one shown: the current index
    denotes it, it alone is in the scene, and a fade in progress has a
    target among the meshes. *)
Definition shows (current : nat) (this : WalkthroughManager) : Prop :=
  (current < length (splatMeshes this))%nat /\
  denotes (currentIndex this) current /\
  (forall k mesh, splatMeshes this !! k = Some mesh ->
     parent mesh = true <-> k = current) /\
  match fadeProgress this with
  | None => nextIndex this = None
  | Some _ => exists next, (next < length (splatMeshes this))%nat /\
                           denotes (nextIndex this) next
  end.

(** Two loaded splats, none in the scene yet. *)
Definition loaded : list SplatMesh := [mkSplatMesh 1 false; mkSplatMesh 1 false].

(** The first splat fading out towards the second, and the second fading in
    after the swap. *)
Definition fading : WalkthroughManager :=
  mkWalkthroughManager [mkSplatMesh 1 true; mkSplatMesh 1 false]
    (Some (Fin 0)) (Some 0) (Some (Fin 1)).

Definition swapped : WalkthroughManager :=
  mkWalkthroughManager [mkSplatMesh 1 false; mkSplatMesh 0 true]
    (Some (Fin 1)) (Some 1) (Some (Fin 1)).

End Walkthrough.

(** * Properties *)

(** ** Arrays with holes *)

Lemma array_get_set_eq {A} (a : list (option A)) i x :
  array_get (array_set a i x) i = Some x.
Proof.
  unfold array_get, array_set. case_decide as Hi.
  - by rewrite list_lookup_insert_eq.
  - rewrite lookup_app_r by lia. rewrite lookup_app_r by (rewrite length_replicate; lia).
    rewrite length_replicate.
    by replace (i - length a - (i - length a))%nat with 0%nat by lia.
Qed.

Lemma array_get_set_ne {A} (a : list (option A)) i j x :
  i <> j -> array_get (array_set a i x) j = array_get a j.
Proof.
  intros Hne. unfold array_get, array_set. case_decide as Hi.
  - by rewrite list_lookup_insert_ne.
  - destruct (decide (j < length a)%nat) as [Hj|Hj].
    + by rewrite lookup_app_l.
    + rewrite lookup_app_r by lia. rewrite (lookup_ge_None_2 a j) by lia.
      destruct (decide (j - length a < i - length a)%nat) as [Hlt|Hge].
      * rewrite lookup_app_l by (rewrite length_replicate; lia).
        by rewrite lookup_replicate_2.
      * rewrite lookup_app_r by (rewrite length_replicate; lia).
        rewrite length_replicate.
        rewrite lookup_ge_None_2; [done | simpl; lia].
Qed.

Lemma array_get_nil {A} i : array_get (@nil (option A)) i = None.
Proof. unfold array_get. by rewrite lookup_nil. Qed.

Lemma array_get_fmap {A B} (f : A -> B) (a : list (option A)) i :
  array_get (map (fmap f) a) i = f <$> array_get a i.
Proof.
  unfold array_get. revert i. by induction a as [|x a IH]; intros [|i]; cbn.
Qed.

(** ** Matrices *)




(** ** Arithmetic of numbers up to the equality of rationals *)

Lemma Num_equiv_refl (a : number) : Num.equiv a a.
Proof. destruct a; cbn; [reflexivity | exact I]. Qed.

Lemma Num_add_equiv (a a' b b' : number) :
  Num.equiv a a' -> Num.equiv b b' -> Num.equiv (Num.add a b) (Num.add a' b').
Proof. destruct a, a', b, b'; cbn; try tauto. intros H1 H2. by rewrite H1, H2. Qed.

Lemma Num_mul_equiv (a a' b b' : number) :
  Num.equiv a a' -> Num.equiv b b' -> Num.equiv (Num.mul a b) (Num.mul a' b').
Proof. destruct a, a', b, b'; cbn; try tauto. intros H1 H2. by rewrite H1, H2. Qed.

Lemma Qeq_bool_equiv (x y z : Q) : x == y -> Qeq_bool x z = Qeq_bool y z.
Proof.
  intros H. destruct (Qeq_bool y z) eqn:Hy.
  - apply Qeq_bool_iff. apply Qeq_bool_iff in Hy. by rewrite H.
  - destruct (Qeq_bool x z) eqn:Hx; [| done].
    apply Qeq_bool_iff in Hx. rewrite H in Hx. apply Qeq_bool_iff in Hx. congruence.
Qed.

Lemma Num_div_equiv (a a' b b' : number) :
  Num.equiv a a' -> Num.equiv b b' -> Num.equiv (Num.div a b) (Num.div a' b').
Proof.
  destruct a, a', b, b'; cbn; try tauto. intros H1 H2.
  rewrite (Qeq_bool_equiv _ _ 0 H2). destruct (Qeq_bool q2 0); cbn; [done |].
  by rewrite H1, H2.
Qed.

Lemma applyMatrix4_equiv (a b : Vector3) (m : Matrix4) :
  Vector3.equiv a b -> Vector3.equiv (Vector3.applyMatrix4 a m) (Vector3.applyMatrix4 b m).
Proof.
  intros (Hx & Hy & Hz). unfold Vector3.applyMatrix4, Vector3.equiv. cbn [vx vy vz].
  repeat split;
    repeat first [ apply Num_mul_equiv | apply Num_add_equiv | apply Num_div_equiv
                 | apply Num_equiv_refl | assumption ].
Qed.

Lemma multiplyScalar_equiv (a b : Vector3) (s t : number) :
  Vector3.equiv a b -> Num.equiv s t ->
  Vector3.equiv (Vector3.multiplyScalar a s) (Vector3.multiplyScalar b t).
Proof.
  intros (Hx & Hy & Hz) Hs. unfold Vector3.multiplyScalar, Vector3.equiv. cbn [vx vy vz].
  repeat split; by apply Num_mul_equiv.
Qed.

Lemma clipPoint_equiv (u v : Q) :
  Vector3.equiv (clipPoint u v) (mkVector3 (2 * u - 1) (2 * v - 1) (- (1))).
Proof. unfold clipPoint, Vector3.equiv. cbn. repeat split; ring. Qed.

(** ** Rounding and clamping *)

Lemma clamp_bounds (value lo hi : Q) : lo <= hi -> lo <= clamp value lo hi <= hi.
Proof.
  intros Hle. unfold clamp. split.
  - apply Q.min_glb; [apply Q.le_max_r | exact Hle].
  - apply Q.le_min_r.
Qed.

Lemma Math_round_bounds (x : Q) (lo hi : Z) :
  inject_Z lo <= x <= inject_Z hi -> (lo <= Math_round x <= hi)%Z.
Proof.
  intros [Hlo Hhi]. unfold Math_round. split.
  - rewrite <- (Qfloor_Z lo). apply Qfloor_resp_le. lra.
  - assert (H : (Qfloor (x + (1 # 2)) < hi + 1)%Z); [| lia].
    rewrite Zlt_Qlt. eapply Qle_lt_trans; [apply Qfloor_le |].
    rewrite inject_Z_plus. change (inject_Z 1) with 1. lra.
Qed.

Lemma pixel_bounds (x : Q) (size : Z) :
  (0 < size)%Z ->
  (0 <= Math_round (clamp x 0 (inject_Z size - 1)) <= size - 1)%Z.
Proof.
  intros Hsize. apply Math_round_bounds.
  assert (Hq : inject_Z (size - 1) == inject_Z size - 1).
  { unfold Z.sub. rewrite inject_Z_plus. reflexivity. }
  change (inject_Z 0) with 0. rewrite Hq.
  apply clamp_bounds.
  assert (1 <= inject_Z size); [| lra].
  change 1 with (inject_Z 1). rewrite <- Zle_Qle. lia.
Qed.

(** ** Doubles and typed arrays *)

(** [0.1] is the double [3602879701896397 / 2 ^ 55]; a power of two and a
    double are doubles; three times the double nearest to one sixth is one
    half. *)
Lemma Double_round_examples :
  Double.round (1 # 10) = 3602879701896397 # 36028797018963968 /\
  Double.round (1 # 2) = 1 # 2 /\
  Double.round (Double.round (1 # 10)) = Double.round (1 # 10) /\
  Double.round (sixth * 3) = 1 # 2 /\
  Double.round (- (1 # 3)) == - (sixth * 2).
Proof. repeat split; vm_compute; reflexivity. Qed.

(** [set()] converts to the element type of the target and leaves the
    elements after those of the source: sixteen 16-bit elements over sixteen
    floats, and eight floats [2.5] over sixteen 16-bit elements. *)
Lemma typedArray_set_examples :
  cbind (typedArray_set (typedArray true (data float4x4))
           (typedArray false (data converted4x4)))
    (fun target => Return (samples target)) =
    Return (replicate 16 (Fin 2000)) /\
  cbind (typedArray_set (typedArray false (data sample4x4))
           (typedArray true (mkArrayBuffer 5 (replicate 8 (word_of 1075838976)))))
    (fun target => Return (samples target)) =
    Return (replicate 8 (Fin 2) ++ replicate 8 (Fin 1000)) /\
  typedArray_set (typedArray true (data sample4x4)) (typedArray false (data sample4x4)) =
    Throw.
Proof. repeat split; vm_compute; reflexivity. Qed.

(** ** Running actions *)

Lemma bind_silent {A B} (m : Action A) (k : A -> Action B) d a d' :
  m d = mkResult (Return a) d' [] -> bind m k d = k a d'.
Proof. intros H. unfold bind. rewrite H. cbn. by destruct (k a d'). Qed.

Lemma bind_assoc {A B C} (m : Action A) (k1 : A -> Action B) (k2 : B -> Action C) d :
  bind (bind m k1) k2 d = bind m (fun a => bind (k1 a) k2) d.
Proof.
  unfold bind. destruct (m d) as [[a|] d1 t1]; cbn; [|done].
  destruct (k1 a d1) as [[b|] d2 t2]; cbn; [|done].
  by rewrite app_assoc.
Qed.

Lemma bind_emit {B} e (k : unit -> Action B) d :
  bind (emit e) k d = mkResult (value (k tt d)) (final (k tt d)) (e :: trace (k tt d)).
Proof. reflexivity. Qed.

Lemma element_run {A} (f : Depth -> list A) i d x :
  f d !! i = Some x -> element f i d = mkResult (Return x) d [].
Proof. intros H. unfold element. rewrite H. reflexivity. Qed.

Lemma overwrite_run {A} (f : Depth -> list A) set_f i x d :
  (i < length (f d))%nat ->
  overwrite f set_f i x d = mkResult (Return tt) (set_f (<[i := x]> (f d)) d) [].
Proof.
  intros Hi. apply lookup_lt_is_Some_2 in Hi as [y Hy].
  unfold overwrite. erewrite bind_silent by (apply element_run; exact Hy). reflexivity.
Qed.


(** ** Properties that hold of the state a method leaves behind *)

Section Hoare.
Context {A B : Type}.
Implicit Types (P Q R : Depth -> Prop).

Lemma hoare_bind P Q R (m : Action A) (k : A -> Action B) :
  hoare P m R -> (forall a, hoare R (k a) Q) -> (forall d, R d -> Q d) ->
  hoare P (bind m k) Q.
Proof.
  intros Hm Hk Himp d HP. specialize (Hm d HP). unfold bind.
  destruct (value (m d)) as [a|]; cbn.
  - by apply Hk.
  - by apply Himp.
Qed.

Lemma stable_bind P (m : Action A) (k : A -> Action B) :
  stable P m -> (forall a, stable P (k a)) -> stable P (bind m k).
Proof. intros Hm Hk. by apply hoare_bind with P. Qed.

Lemma stable_ret P (a : A) : stable P (ret a).
Proof. by intros d HP. Qed.

Lemma stable_throw P : stable P (@throw A).
Proof. by intros d HP. Qed.

Lemma stable_gets P (f : Depth -> A) : stable P (gets f).
Proof. by intros d HP. Qed.

Lemma stable_element P (f : Depth -> list A) i : stable P (element f i).
Proof. intros d HP. unfold element. by destruct (f d !! i). Qed.

Lemma hoare_weaken P P' Q Q' (m : Action A) :
  hoare P' m Q' -> (forall d, P d -> P' d) -> (forall d, Q' d -> Q d) -> hoare P m Q.
Proof. intros Hm HP HQ d Hd. by apply HQ, Hm, HP. Qed.

End Hoare.

Lemma stable_emit (P : Depth -> Prop) e : stable P (emit e).
Proof. by intros d HP. Qed.

Lemma stable_modify (P : Depth -> Prop) f :
  (forall d, P d -> P (f d)) -> stable P (modify f).
Proof. intros Hf d HP. by apply Hf. Qed.

Lemma stable_when (P : Depth -> Prop) b m : stable P m -> stable P (when b m).
Proof. intros Hm. destruct b; [exact Hm | apply stable_ret]. Qed.

(** One step of a proof that a method keeps a property: the structure of the
    method is followed, the writes are left to the caller. *)
Ltac stable_step :=
  first
    [ apply stable_ret | apply stable_throw | apply stable_gets | apply stable_emit
    | apply stable_element
    | apply stable_when
    | apply stable_bind; [| intros ?]
    | match goal with
      | |- hoare _ (match ?x with _ => _ end) _ => destruct x
      end ].

(** A write to a field the property does not read. *)
Ltac stable_frame := apply stable_modify; intros ? ?; assumption.

Lemma poseMesh_stable (P : Depth -> Prop) mesh :
  (forall m d, P d -> P (set_depthMesh m d)) -> stable P (poseMesh mesh).
Proof.
  intros HP. unfold poseMesh.
  repeat first [ stable_step | apply stable_modify; intros ? ?; by apply HP ].
Qed.

Lemma gate_stable (P : Depth -> Prop) frame : stable P (gate frame).
Proof. unfold gate. repeat stable_step. Qed.

(** ** The per-view arrays stay aligned *)

Lemma iter_pushView (n : nat) (d : Depth) : Nat.iter n pushView d = pushed n d.
Proof.
  induction n as [|n IH].
  - destruct d. unfold pushed. cbn. by rewrite !app_nil_r.
  - change (Nat.iter (S n) pushView d) with (pushView (Nat.iter n pushView d)).
    rewrite IH. unfold pushView, pushed. cbn.
    by rewrite <- !app_assoc, <- !replicate_S_end.
Qed.

Lemma populate_pushed (viewId : nat) (d : Depth) :
  populate viewId d = pushed (S viewId - length (depthViewMatrices d)) d.
Proof. apply iter_pushView. Qed.

Lemma populate_depthArray viewId d : depthArray (populate viewId d) = depthArray d.
Proof. by rewrite populate_pushed. Qed.

Lemma populate_length viewId d :
  length (depthViewMatrices (populate viewId d)) =
  (length (depthViewMatrices d) `max` S viewId)%nat.
Proof. rewrite populate_pushed. cbn. rewrite length_app, length_replicate. lia. Qed.

Lemma aligned_new defaults : aligned (Depth_new defaults).
Proof. by repeat split. Qed.

Lemma populate_aligned viewId d :
  aligned d ->
  aligned (populate viewId d) /\ (viewId < length (depthViewMatrices (populate viewId d)))%nat.
Proof.
  intros (H1 & H2 & H3 & H4 & H5). rewrite populate_pushed.
  unfold aligned, pushed. cbn. rewrite !length_app, !length_replicate. lia.
Qed.

Lemma withMatrices_aligned invert source viewId d :
  aligned d -> aligned (withMatrices invert source viewId d).
Proof.
  intros H. unfold aligned, withMatrices in *. cbn. by rewrite !length_insert.
Qed.

Lemma populate_renderer viewId d : renderer (populate viewId d) = renderer d.
Proof. by rewrite populate_pushed. Qed.

(** In an aligned state [updateDepthMatrices] returns when it has a source,
    and leaves the state [withMatrices] describes; without one it throws
    with the arrays extended. *)
Lemma updateDepthMatrices_cases env depthData viewId d :
  aligned d ->
  updateDepthMatrices env depthData viewId d =
  if sourced depthData d
  then mkResult (Return tt)
         (withMatrices (Matrix4_invert env) (sourceCamera env depthData viewId) viewId
            (populate viewId d)) []
  else mkResult Throw (populate viewId d) [].
Proof.
  intros Hal. destruct (populate_aligned viewId d Hal) as [(H1 & H2 & H3 & H4 & H5) Hlt].
  unfold updateDepthMatrices, sourceCamera, withMatrices, sourced.
  erewrite bind_silent by reflexivity.
  rewrite <- (populate_renderer viewId d).
  set (d1 := populate viewId d) in *. clearbody d1.
  destruct (projectionMatrix depthData), (transform depthData);
    try (rewrite bind_assoc; erewrite bind_silent by reflexivity;
         destruct (renderer d1) eqn:Hrenderer; [| reflexivity]);
    repeat first
      [ rewrite bind_assoc
      | erewrite bind_silent
          by first [ apply overwrite_run; cbn; rewrite ?length_insert; lia
                   | apply element_run; cbn; apply list_lookup_insert_eq; lia ] ];
    (rewrite overwrite_run by (cbn; rewrite ?length_insert; lia)); reflexivity.
Qed.

Lemma updateDepthMatrices_run env depthData viewId d :
  aligned d -> renderer d = true ->
  updateDepthMatrices env depthData viewId d =
  mkResult (Return tt)
    (withMatrices (Matrix4_invert env) (sourceCamera env depthData viewId) viewId
       (populate viewId d)) [].
Proof.
  intros Hal Hrenderer. rewrite updateDepthMatrices_cases by done.
  unfold sourced. rewrite Hrenderer.
  by destruct (projectionMatrix depthData), (transform depthData).
Qed.

(** ** Every stored depth array has its matrices *)

Lemma covered_new defaults : covered (Depth_new defaults).
Proof.
  split; [apply aligned_new |]. intros i [x Hx]. cbn in Hx.
  by rewrite array_get_nil in Hx.
Qed.

Lemma updateDepthMatrices_covering env depthData viewId :
  hoare covered (updateDepthMatrices env depthData viewId) (covering viewId).
Proof.
  intros d [Hal Hcov]. rewrite updateDepthMatrices_cases by done.
  destruct (populate_aligned viewId d Hal) as [Hal' Hlt].
  destruct (sourced depthData d); cbn [final].
  - split; [split |].
    + by apply withMatrices_aligned.
    + intros i Hi. cbn in *. rewrite length_insert, populate_length.
      rewrite populate_depthArray in Hi. apply Hcov in Hi. lia.
    + cbn. by rewrite length_insert.
  - split; [split |]; [done | | done].
    intros i Hi. rewrite populate_length.
    rewrite populate_depthArray in Hi. apply Hcov in Hi. lia.
Qed.

Lemma covering_store viewId array d :
  covering viewId d ->
  covering viewId (set_depthArray (array_set (depthArray d) viewId array) d).
Proof.
  intros [[Hal Hcov] Hlt]. split; [split |]; [exact Hal | | exact Hlt].
  intros i Hi. cbn in *. destruct (decide (viewId = i)) as [<-|Hne]; [done |].
  rewrite array_get_set_ne in Hi by done. by apply Hcov.
Qed.

Lemma covering_depthMesh viewId m d : covering viewId d -> covering viewId (set_depthMesh m d).
Proof. intros H. exact H. Qed.

Lemma covering_write viewId b d : covering viewId d -> covering viewId (write_buffer b d).
Proof.
  intros [[Hal Hcov] Hlt]. split; [split |]; [exact Hal | | exact Hlt].
  intros i Hi. apply Hcov. cbn in Hi. rewrite array_get_fmap in Hi.
  by apply fmap_is_Some in Hi.
Qed.

Lemma updateCPUDepthData_covered env depthData viewId :
  stable covered (updateCPUDepthData env depthData viewId).
Proof.
  unfold updateCPUDepthData.
  apply stable_bind; [stable_frame | intros _].
  apply hoare_bind with (covering viewId);
    [apply updateDepthMatrices_covering | intros _ | by intros d [H _]].
  apply hoare_weaken with (covering viewId) (covering viewId);
    [| done | by intros d [H _]].
  apply stable_bind; [apply stable_modify; intros d; apply covering_store | intros _].
  repeat first [ stable_step | stable_frame
               | apply poseMesh_stable, covering_depthMesh ].
Qed.

Lemma updateGPUDepthData_covered env depthData viewId :
  stable covered (updateGPUDepthData env depthData viewId).
Proof.
  unfold updateGPUDepthData.
  apply stable_bind; [stable_frame | intros _].
  apply hoare_bind with (covering viewId);
    [apply updateDepthMatrices_covering | intros _ | by intros d [H _]].
  apply hoare_weaken with (covering viewId) (covering viewId);
    [| done | by intros d [H _]].
  repeat first [ stable_step | stable_frame
               | apply stable_modify; intros ?; apply covering_store
               | apply stable_modify; intros ?; apply covering_write
               | apply poseMesh_stable, covering_depthMesh ].
Qed.

Lemma ingestViews_covered env frame views viewId :
  stable covered (ingestViews env frame views viewId).
Proof.
  revert viewId. induction views as [|xrView views IH]; intros viewId; cbn [ingestViews].
  - apply stable_ret.
  - apply stable_bind; [stable_frame | intros _].
    destruct (depthUsage_gpu_optimized (session frame)).
    + destruct (binding_getDepthInformation frame xrView); [| apply stable_ret].
      apply stable_bind; [apply updateGPUDepthData_covered | intros _; apply IH].
    + destruct (frame_getDepthInformation frame xrView); [| apply stable_ret].
      apply stable_bind; [apply updateCPUDepthData_covered | intros _; apply IH].
Qed.

Lemma updateLocalDepth_covered env frame : stable covered (updateLocalDepth env frame).
Proof.
  unfold updateLocalDepth.
  apply stable_bind; [apply gate_stable | intros stop].
  destruct stop; [apply stable_ret |].
  destruct (referenceSpace frame); [| apply stable_ret].
  destruct (viewerPose frame); [apply ingestViews_covered | apply stable_emit].
Qed.

Lemma perform_covered c : stable covered (perform c).
Proof.
  destruct c; cbn [perform].
  - unfold init. stable_frame.
  - apply updateLocalDepth_covered.
  - apply updateCPUDepthData_covered.
  - apply updateGPUDepthData_covered.
  - unfold resumeDepth. repeat first [stable_step | stable_frame].
  - unfold pauseDepth. repeat first [stable_step | stable_frame].
Qed.

Lemma reachable_covered d : reachable d -> covered d.
Proof.
  induction 1 as [defaults options | d c _ IH].
  - apply (perform_covered (CallInit options)), covered_new.
  - by apply perform_covered.
Qed.

Lemma reachable_aligned d : reachable d -> aligned d.
Proof. intros H. by destruct (reachable_covered d H). Qed.

(** ** The renderer stays assigned *)

Lemma updateDepthMatrices_renderer env depthData viewId :
  stable (fun d => renderer d = true) (updateDepthMatrices env depthData viewId).
Proof.
  unfold updateDepthMatrices, overwrite.
  repeat first [ stable_step | stable_frame
               | apply stable_modify; intros d H; rewrite populate_pushed; exact H ].
Qed.

Lemma perform_renderer c : stable (fun d => renderer d = true) (perform c).
Proof.
  assert (Hcpu : forall env depthData viewId,
            stable (fun d => renderer d = true) (updateCPUDepthData env depthData viewId)).
  { intros. unfold updateCPUDepthData.
    repeat first [ apply updateDepthMatrices_renderer | stable_step | stable_frame
                 | apply poseMesh_stable; by intros ]. }
  assert (Hgpu : forall env depthData viewId,
            stable (fun d => renderer d = true) (updateGPUDepthData env depthData viewId)).
  { intros. unfold updateGPUDepthData.
    repeat first [ apply updateDepthMatrices_renderer | stable_step | stable_frame
                 | apply poseMesh_stable; by intros ]. }
  destruct c; cbn [perform].
  - by intros d _.
  - unfold updateLocalDepth.
    apply stable_bind; [apply gate_stable | intros stop].
    destruct stop; [apply stable_ret |].
    destruct (referenceSpace frame); [| apply stable_ret].
    destruct (viewerPose frame) as [views|]; [| apply stable_emit].
    generalize 0%nat. induction views as [|xrView views IH]; intros viewId;
      cbn [ingestViews]; [apply stable_ret |].
    apply stable_bind; [stable_frame | intros _].
    destruct (depthUsage_gpu_optimized (session frame)).
    + destruct (binding_getDepthInformation frame xrView); [| apply stable_ret].
      apply stable_bind; [apply Hgpu | intros _; apply IH].
    + destruct (frame_getDepthInformation frame xrView); [| apply stable_ret].
      apply stable_bind; [apply Hcpu | intros _; apply IH].
  - apply Hcpu.
  - apply Hgpu.
  - unfold resumeDepth. repeat first [stable_step | stable_frame].
  - unfold pauseDepth. repeat first [stable_step | stable_frame].
Qed.

(** In a reachable state [init] has assigned the renderer and the camera. *)
Lemma reachable_renderer d : reachable d -> renderer d = true.
Proof.
  induction 1 as [defaults options | d c _ IH]; [done |].
  by apply perform_renderer.
Qed.

(** ** The request flag is never reset *)

Lemma updateDepthMatrices_initialized env depthData viewId :
  stable (fun d => depthClientsInitialized d = true)
    (updateDepthMatrices env depthData viewId).
Proof.
  unfold updateDepthMatrices, overwrite.
  repeat first [ stable_step | stable_frame
               | apply stable_modify; intros d H; rewrite populate_pushed; exact H ].
Qed.

Lemma ingestViews_initialized env frame views viewId :
  stable (fun d => depthClientsInitialized d = true) (ingestViews env frame views viewId).
Proof.
  revert viewId. induction views as [|xrView views IH]; intros viewId; cbn [ingestViews].
  - apply stable_ret.
  - apply stable_bind; [stable_frame | intros _].
    destruct (depthUsage_gpu_optimized (session frame)).
    + destruct (binding_getDepthInformation frame xrView); [| apply stable_ret].
      apply stable_bind; [| intros _; apply IH].
      unfold updateGPUDepthData.
      repeat first [ apply updateDepthMatrices_initialized | stable_step | stable_frame
                   | apply poseMesh_stable; by intros ].
    + destruct (frame_getDepthInformation frame xrView); [| apply stable_ret].
      apply stable_bind; [| intros _; apply IH].
      unfold updateCPUDepthData.
      repeat first [ apply updateDepthMatrices_initialized | stable_step | stable_frame
                   | apply poseMesh_stable; by intros ].
Qed.

Lemma perform_initialized c :
  stable (fun d => depthClientsInitialized d = true) (perform c).
Proof.
  destruct c; cbn [perform].
  - unfold init. stable_frame.
  - unfold updateLocalDepth.
    apply stable_bind; [apply gate_stable | intros stop].
    destruct stop; [apply stable_ret |].
    destruct (referenceSpace frame); [| apply stable_ret].
    destruct (viewerPose frame); [apply ingestViews_initialized | apply stable_emit].
  - unfold updateCPUDepthData.
    repeat first [ apply updateDepthMatrices_initialized | stable_step | stable_frame
                 | apply poseMesh_stable; by intros ].
  - unfold updateGPUDepthData.
    repeat first [ apply updateDepthMatrices_initialized | stable_step | stable_frame
                 | apply poseMesh_stable; by intros ].
  - by intros d _.
  - by intros d _.
Qed.

(** Once [resumeDepth] or [pauseDepth] was called, the flag stays set. *)
Lemma requested_initialized d : requested d -> depthClientsInitialized d = true.
Proof.
  induction 1 as [d client _ | d client _ | d c _ IH]; [done | done |].
  by apply perform_initialized.
Qed.

Lemma gate_run frame d :
  gate frame d = mkResult (Return (gated frame d)) d (gateCommand frame d).
Proof.
  unfold gate, gated, gateCommand, bind, gets. cbn.
  destruct (depthActive (session frame)) as [active|]; cbn; [| done].
  destruct (depthClientsInitialized d); cbn; [| done].
  destruct (decide (size (depthClients d) = 0%nat)) as [Hz|Hz].
  - rewrite (bool_decide_eq_true_2 _ Hz).
    rewrite (bool_decide_eq_false_2 (0 < size (depthClients d))%nat) by lia.
    destruct active; cbn; done.
  - rewrite (bool_decide_eq_false_2 _ Hz).
    rewrite (bool_decide_eq_true_2 (0 < size (depthClients d))%nat) by lia.
    destruct active; cbn; done.
Qed.

(** ** The views after a missing one *)

Section HoareSteps.
Context {A B : Type}.
Implicit Types (P Q R : Depth -> Prop).






End HoareSteps.






(** The depth array that was written sees the write. *)
Lemma typedArray_set_refresh target source target' :
  typedArray_set target source = Return target' ->
  refresh_array (buffer target') target = target'.
Proof.
  unfold typedArray_set, refresh_array. case_decide; [| done]. intros [= <-].
  cbn. by rewrite decide_True.
Qed.














(** * The claims *)

(** C1, which the code breaks: where the depth array of view 0 exists and
    the getter [rawValueToMeters] returns, [getDepth(u, v)] returns the value
    of the getter times the element at [row * width + col], with
    [col = round(clamp(u * width, 0, width - 1))] and
    [row = round(clamp((1 - v) * height, 0, height - 1))], the products and
    the difference being doubles; the getter throws exactly when the first
    of [cpuDepthData] and [gpuDepthData] that is not empty has no element 0;
    after the CPU sample of the scenario (4 by
    4, raw value 1000, scale 0.001) is ingested into an initialised object,
    in the element type the object reads, [getDepth(0.5, 0.5)] is one meter.
    But the
    getter tests the length of [cpuDepthData] and reads its element 0: in the
    state [holeDepth], reached when a GPU sample is ingested and read back
    for view 0 and a CPU sample is then ingested for view 1, the depth array
    of view 0 exists and [getDepth] throws, for every [u] and [v]. *)
Theorem getDepth_formula :
  (forall (d : Depth) (array : DepthArray) (u v scale : Q),
     array_get (depthArray d) 0 = Some array ->
     rawValueToMeters d = Return scale ->
     let col :=
       Math_round (clamp (Double.round (u * inject_Z (width d))) 0
                     (inject_Z (width d) - 1)) in
     let row :=
       Math_round (clamp (Double.round (Double.round (1 - v) * inject_Z (height d))) 0
                     (inject_Z (height d) - 1)) in
     getDepth d u v =
       Return (Num.mul scale (typedArray_get array (row * width d + col)))) /\
  (forall d : Depth,
     rawValueToMeters d = Throw <->
     (cpuDepthData d <> [] /\ array_get (cpuDepthData d) 0 = None) \/
     (cpuDepthData d = [] /\ gpuDepthData d <> [] /\
      array_get (gpuDepthData d) 0 = None)) /\
  (forall (defaults options : DepthOptions) (env : Env),
     let sample := if useFloat32 options then float4x4 else sample4x4 in
     let scenario :=
       final (updateCPUDepthData env sample 0
                (final (init options (Depth_new defaults)))) in
     exists meters : Q,
       getDepth scenario (1 # 2) (1 # 2) = Return (Fin meters) /\ meters == 1) /\
  (reachable holeDepth /\
   is_Some (array_get (depthArray holeDepth) 0) /\
   rawValueToMeters holeDepth = Throw /\
   forall u v : number, getDepth holeDepth u v = Throw).
Proof.
  split; [| split; [| split]].
  - intros d array u v scale Harray Hscale col row.
    unfold getDepth. by rewrite Harray, Hscale.
  - intros d. unfold rawValueToMeters, array_get.
    destruct (cpuDepthData d) as [|[c|] cs]; [destruct (gpuDepthData d) as [|[g|] gs] | |];
      cbn; split; try done; try (intros [[? ?]|(? & ? & ?)]; done); intros _.
    + right. done.
    + left. done.
  - intros defaults [en f32 tex mesh occ] env.
    exists ((1 # 1000) * inject_Z 1000). split; [| reflexivity].
    destruct f32, tex, mesh; vm_compute; reflexivity.
  - split; [| split; [| split]].
    + apply (reachable_call _ (CallUpdateCPUDepthData exampleEnv sample4x4 1)).
      apply (reachable_call _ (CallUpdateGPUDepthData convertingEnv texture4x4 0)).
      apply reachable_init.
    + vm_compute. eauto.
    + reflexivity.
    + intros u v. unfold getDepth.
      destruct (array_get (depthArray holeDepth) 0) as [array|] eqn:Harray;
        [reflexivity | vm_compute in Harray; discriminate Harray].
Qed.

Lemma getDepth_formula_witness :
  array_get (depthArray exampleDepth) 0 = Some (typedArray false (data sample4x4)) /\
  rawValueToMeters exampleDepth = Return (1 # 1000) /\
  getDepth exampleDepth (1 # 4) (3 # 4) =
    Return (Num.mul (1 # 1000)
              (typedArray_get (typedArray false (data sample4x4)) (1 * 4 + 1))).
Proof.
  split; [vm_compute; reflexivity |]. split; [vm_compute; reflexivity |].
  exact (proj1 getDepth_formula exampleDepth (typedArray false (data sample4x4))
           (1 # 4) (3 # 4) (1 # 1000) eq_refl eq_refl).
Defined.




(** C3: when the session can pause depth sensing ([depthActive] is defined),
    [resumeDepth] or [pauseDepth] was called at least once and no client is
    registered, [updateLocalDepth] returns and leaves the state of the object
    as it was: the depth arrays, the per-view matrices and poses and the stored
    views are not written.  All it may do is ask the session to pause. *)
Theorem updateLocalDepth_gated (env : Env) (frame : XRFrame) (d : Depth) :
  is_Some (depthActive (session frame)) ->
  requested d ->
  size (depthClients d) = 0%nat ->
  final (updateLocalDepth env frame d) = d /\
  value (updateLocalDepth env frame d) = Return tt /\
  trace (updateLocalDepth env frame d) =
    (if default false (depthActive (session frame))
     then [SessionPauseDepthSensing] else []).
Proof.
  intros [active Hactive] Hinit Hsize. apply requested_initialized in Hinit.
  unfold updateLocalDepth, gate, bind, gets. cbn.
  rewrite Hactive, Hinit, Hsize. cbn. by destruct active.
Qed.

Lemma updateLocalDepth_gated_witness :
  final (updateLocalDepth exampleEnv exampleFrame (final (pauseDepth 7%nat exampleDepth))) =
    final (pauseDepth 7%nat exampleDepth) /\
  trace (updateLocalDepth exampleEnv exampleFrame (final (pauseDepth 7%nat exampleDepth))) =
    [SessionPauseDepthSensing].
Proof.
  assert (Hreach : reachable exampleDepth).
  { exact (reachable_call _ (CallUpdateCPUDepthData exampleEnv sample4x4 0)
             (reachable_init exampleOptions exampleOptions)). }
  assert (Hsize : size (depthClients (final (pauseDepth 7%nat exampleDepth))) = 0%nat).
  { apply size_empty_iff. cbn. apply empty_difference. }
  destruct (updateLocalDepth_gated exampleEnv exampleFrame
              (final (pauseDepth 7%nat exampleDepth))
              (ex_intro _ true eq_refl) (requested_pause _ 7%nat Hreach) Hsize)
    as (Hfinal & _ & Htrace).
  split; [exact Hfinal | exact Htrace].
Defined.




(** C5: for every [u] and [v], with a width and a height that are positive,
    the index [getDepth] computes,
    [round(clamp((1 - v) * height, 0, height - 1)) * width
     + round(clamp(u * width, 0, width - 1))], lies in [[0, width * height)];
    so the read of a depth array of [width * height] elements is the read of
    one of its elements. *)
Theorem getDepth_index_in_bounds (d : Depth) (array : DepthArray) (u v : Q) :
  (0 < width d)%Z -> (0 < height d)%Z ->
  let index := (depthY d v * width d + depthX d u)%Z in
  (0 <= index < width d * height d)%Z /\
  rawDepth d array u v = typedArray_get array index /\
  (length (samples array) = Z.to_nat (width d * height d) ->
   exists raw : number,
     samples array !! Z.to_nat index = Some raw /\ rawDepth d array u v = raw).
Proof.
  intros Hw Hh index.
  pose proof (pixel_bounds (Double.round (u * inject_Z (width d))) (width d) Hw) as Hx.
  pose proof (pixel_bounds (Double.round (Double.round (1 - v) * inject_Z (height d)))
                (height d) Hh) as Hy.
  fold (depthX d u) in Hx. fold (depthY d v) in Hy.
  assert (Hindex : (0 <= index < width d * height d)%Z) by (subst index; nia).
  split; [exact Hindex |]. split; [reflexivity |].
  intros Hlen. cbn [rawDepth]. fold index. unfold typedArray_get.
  destruct (index <? 0)%Z eqn:Hneg; [lia |].
  destruct (lookup_lt_is_Some_2 (samples array) (Z.to_nat index)) as [raw Hraw]; [lia |].
  exists raw. by rewrite Hraw.
Qed.

Lemma getDepth_index_in_bounds_witness :
  (0 < width exampleDepth)%Z /\ (0 < height exampleDepth)%Z /\
  (0 <= depthY exampleDepth (- (3)) * width exampleDepth + depthX exampleDepth 7
   < width exampleDepth * height exampleDepth)%Z.
Proof.
  split; [reflexivity |]. split; [reflexivity |].
  exact (proj1 (getDepth_index_in_bounds exampleDepth (typedArray false (data sample4x4))
                  7 (- (3)) eq_refl eq_refl)).
Defined.

(** C6, which the code breaks: on a fresh object, before any frame was
    ingested, [getDepth] returns 0 and [getVertex] returns [null], as the
    claim says, and [getProjectedDepthViewPositionFromWorldPosition] throws:
    it reads [depthViewMatrices[0]] without the check its siblings make. *)
Theorem queries_before_first_frame
    (defaults : DepthOptions) (u v : Q) (position : Vector3) :
  let d := Depth_new defaults in
  getDepth d u v = Return (Fin 0) /\
  getVertex d u v = Return None /\
  getProjectedDepthViewPositionFromWorldPosition d position = Throw.
Proof. repeat split. Qed.

Ltac keep_tail H source :=
  match goal with
  | |- context [final (?m ?d0)] =>
      let Hk := fresh "Hk" in
      pose proof (H (depthArray d0) source d0 eq_refl) as Hk;
      cbv beta in Hk; rewrite Hk; clear Hk
  end.

(** C7: [updateGPUDepthData] converts the GPU sample and writes
    [depthArray[viewId]] only when the depth mesh is enabled and constructed.
    Without that consumer the call returns with the depth array, the size and
    the mesh as they were, and calls nothing but the update of the depth
    texture (when textures are enabled).  With it the conversion is the first
    call made, and its result, when there is one, is stored for the view. *)
Theorem updateGPUDepthData_lazy_conversion
    (env : Env) (depthData : XRWebGLDepthInformation) (viewId : nat) (d : Depth) :
  reachable d ->
  let r := updateGPUDepthData env depthData viewId d in
  let consumer := depthMesh_enabled (options d) && bool_decide (is_Some (depthMesh d)) in
  (consumer = false ->
     value r = Return tt /\
     depthArray (final r) = depthArray d /\
     width (final r) = width d /\ height (final r) = height d /\
     depthMesh (final r) = depthMesh d /\
     trace r = (if depthTexture_enabled (options d) && depthTextures d
                then [TexturesUpdateNativeTexture viewId] else [])) /\
  (consumer = true ->
     head (trace r) = Some (MeshConvertGPUToGPU viewId) /\
     match convertGPUToGPU env depthData with
     | None => depthArray (final r) = depthArray d
     | Some cpuDepth =>
         let source := typedArray (useFloat32 (options d)) (data cpuDepth) in
         match array_get (depthArray d) viewId with
         | None => array_get (depthArray (final r)) viewId = Some source
         | Some target =>
             match typedArray_set target source with
             | Return target' => array_get (depthArray (final r)) viewId = Some target'
             | Throw => value r = Throw /\ depthArray (final r) = depthArray d
             end
         end
     end).
Proof.
  intros Hreach r consumer. pose proof (reachable_renderer d Hreach) as Hrenderer.
  apply reachable_aligned in Hreach.
  subst r consumer. unfold updateGPUDepthData.
  erewrite bind_silent by reflexivity.
  erewrite bind_silent by (apply updateDepthMatrices_run; [exact Hreach | exact Hrenderer]).
  rewrite populate_pushed.
  set (n := (S viewId - _)%nat). clearbody n.
  set (src := sourceCamera _ _ _). clearbody src.
  erewrite bind_silent by reflexivity.
  erewrite bind_silent by reflexivity.
  cbn [options depthMesh withMatrices pushed set_depthViewProjectionMatrices
       set_depthProjectionInverseMatrices set_depthCameraRotations
       set_depthCameraPositions set_depthViewMatrices set_depthProjectionMatrices
       set_gpuDepthData].
  split.
  - intros Hc. rewrite Hc.
    erewrite bind_silent by reflexivity.
    erewrite bind_silent by reflexivity.
    erewrite bind_silent by reflexivity.
    cbn [depthTextures withMatrices pushed set_depthViewProjectionMatrices
       set_depthProjectionInverseMatrices set_depthCameraRotations
       set_depthCameraPositions set_depthViewMatrices set_depthProjectionMatrices
       set_gpuDepthData].
    destruct (depthMesh d) as [mesh|] eqn:Hmesh.
    + rewrite andb_true_r in Hc. rewrite Hc. cbn [when].
      destruct (depthTexture_enabled (options d) && depthTextures d);
        repeat split; cbn; done.
    + destruct (depthTexture_enabled (options d) && depthTextures d);
        repeat split; cbn; done.
  - intros Hc. rewrite Hc.
    apply andb_true_iff in Hc as [Hen Hmesh]. apply bool_decide_eq_true in Hmesh.
    destruct Hmesh as [mesh Hmesh]. rewrite Hmesh.
    rewrite bind_assoc, bind_emit. cbn [trace value final head].
    split; [reflexivity |].
    erewrite bind_silent by reflexivity.
    assert (Htail : forall X source,
      stable (fun d' => depthArray d' = X)
        (let! textures := gets depthTextures in
         when (depthTexture_enabled (options d) && textures)
           (emit (TexturesUpdateNativeTexture viewId)) >>
         when (depthMesh_enabled (options d) && bool_decide (viewId = 0%nat))
           (emit (if source : option XRCPUDepthInformation is Some _
                  then MeshUpdateDepth else MeshUpdateGPUDepth) >>
            poseMesh mesh))).
    { intros X source.
      repeat first [ stable_step | stable_frame | apply poseMesh_stable; by intros ]. }
    destruct (convertGPUToGPU env depthData) as [cpuDepth|].
    + rewrite bind_assoc. erewrite bind_silent by reflexivity.
      cbn [depthArray withMatrices pushed set_depthViewProjectionMatrices
       set_depthProjectionInverseMatrices set_depthCameraRotations
       set_depthCameraPositions set_depthViewMatrices set_depthProjectionMatrices
       set_gpuDepthData].
      destruct (array_get (depthArray d) viewId) as [target|] eqn:Hget.
      * destruct (typedArray_set target _) as [target'|] eqn:Hset.
        -- erewrite bind_silent by reflexivity.
           keep_tail Htail (Some cpuDepth). cbn.
           rewrite array_get_fmap, Hget. cbn.
           by rewrite (typedArray_set_refresh _ _ _ Hset).
        -- split; reflexivity.
      * rewrite bind_assoc. erewrite bind_silent by reflexivity.
        rewrite bind_assoc. erewrite bind_silent by reflexivity.
        erewrite bind_silent by reflexivity.
        keep_tail Htail (Some cpuDepth). cbn.
        apply array_get_set_eq.
    + erewrite bind_silent by reflexivity.
      keep_tail Htail (@None XRCPUDepthInformation). reflexivity.
Qed.

Lemma updateGPUDepthData_lazy_conversion_witness :
  reachable exampleDepth /\
  depthArray (final (updateGPUDepthData exampleEnv texture4x4 0 exampleDepth)) =
    depthArray exampleDepth /\
  trace (updateGPUDepthData exampleEnv texture4x4 0 exampleDepth) = [].
Proof.
  assert (Hreach : reachable exampleDepth).
  { exact (reachable_call _ (CallUpdateCPUDepthData exampleEnv sample4x4 0)
             (reachable_init exampleOptions exampleOptions)). }
  destruct (updateGPUDepthData_lazy_conversion exampleEnv texture4x4 0 exampleDepth Hreach)
    as [Hwithout _].
  destruct (Hwithout eq_refl) as (_ & Harray & _ & _ & _ & Htrace).
  split; [exact Hreach |]. split; [exact Harray | exact Htrace].
Defined.

(** C8: [resumeDepth] and [pauseDepth] are the insertion into and the
    removal from a set.  [resumeDepth] adds the client and no other; a second
    [resumeDepth] of the same client changes nothing, so the registry of a
    client resumed twice from the empty registry has one element.
    [pauseDepth] removes the client and no other: the client is not
    registered afterwards, the registry of a client that was registered has
    one element less, the registry of a client that was not registered is as
    it was, and a second [pauseDepth] changes nothing.  Each of the two
    returns and sets [depthClientsInitialized]. *)
Theorem depthClients_idempotent (d : Depth) (client other : Client) :
  let once := final (resumeDepth client d) in
  let twice := final (resumeDepth client once) in
  let paused := final (pauseDepth client d) in
  depthClients once = {[client]} ∪ depthClients d /\
  client ∈ depthClients once /\
  twice = once /\
  size (depthClients twice) = size (depthClients once) /\
  (depthClients d = ∅ -> size (depthClients twice) = 1%nat) /\
  depthClients paused = depthClients d ∖ {[client]} /\
  (client ∉ depthClients paused) /\
  (client ∈ depthClients d -> S (size (depthClients paused)) = size (depthClients d)) /\
  (client ∉ depthClients d -> depthClients paused = depthClients d) /\
  final (pauseDepth client paused) = paused /\
  (client ∉ depthClients (final (pauseDepth client once))) /\
  (other <> client ->
     (other ∈ depthClients once <-> other ∈ depthClients d) /\
     (other ∈ depthClients paused <-> other ∈ depthClients d)) /\
  depthClientsInitialized once = true /\
  depthClientsInitialized paused = true /\
  value (resumeDepth client d) = Return tt /\
  value (pauseDepth client d) = Return tt.
Proof.
  cbn.
  assert (Hout : forall X : gset Client, client ∉ X ∖ {[client]}).
  { intros X. apply not_elem_of_difference. right. by apply elem_of_singleton. }
  assert (Hagain : (depthClients d ∖ {[client]}) ∖ {[client]} = depthClients d ∖ {[client]}).
  { apply difference_disjoint_L, disjoint_singleton_r, Hout. }
  rewrite (assoc_L (∪)), (idemp_L (∪)), Hagain.
  split; [reflexivity |].
  split; [apply elem_of_union_l; by apply elem_of_singleton |].
  split; [reflexivity |]. split; [reflexivity |].
  split; [intros ->; rewrite union_empty_r_L; apply size_singleton |].
  split; [reflexivity |]. split; [apply Hout |].
  split.
  { intros Hin. rewrite size_difference by (by apply singleton_subseteq_l).
    rewrite size_singleton.
    assert (size (depthClients d) <> 0%nat); [| lia].
    intros Hzero. apply size_empty_inv in Hzero.
    apply (not_elem_of_empty (C := gset Client) client). by apply Hzero. }
  split; [intros Hnot; apply difference_disjoint_L; by apply disjoint_singleton_r |].
  split; [reflexivity |]. split; [apply Hout |].
  split.
  { intros Hne. rewrite elem_of_union, elem_of_difference, !elem_of_singleton. tauto. }
  done.
Qed.

Lemma depthClients_idempotent_witness :
  7%nat ∈ depthClients (final (resumeDepth 7%nat initialDepth)) /\
  size (depthClients (final (resumeDepth 7%nat (final (resumeDepth 7%nat
          initialDepth))))) = 1%nat /\
  S (size (depthClients
             (final (pauseDepth 7%nat (final (resumeDepth 7%nat initialDepth)))))) =
    size (depthClients (final (resumeDepth 7%nat initialDepth))) /\
  (7%nat ∉ depthClients
             (final (pauseDepth 7%nat (final (resumeDepth 7%nat initialDepth))))) /\
  depthClients (final (pauseDepth 8%nat initialDepth)) = depthClients initialDepth.
Proof.
  destruct (depthClients_idempotent initialDepth 7%nat 8%nat)
    as (_ & Hin & _ & _ & Hsize & _).
  destruct (depthClients_idempotent (final (resumeDepth 7%nat initialDepth)) 7%nat 8%nat)
    as (_ & _ & _ & _ & _ & _ & Hout & Hless & _).
  destruct (depthClients_idempotent initialDepth 8%nat 7%nat)
    as (_ & _ & _ & _ & _ & _ & _ & _ & Hkeeps & _).
  split; [exact Hin |]. split; [apply Hsize; reflexivity |].
  split; [apply Hless; exact Hin |]. split; [exact Hout |].
  apply Hkeeps. apply not_elem_of_empty.
Defined.

(** C9: in a state with a depth array and an inverse projection matrix for
    view 0, let [w] be the image of [(2u - 1, 2v - 1, -1)] under the inverse
    projection matrix; when the z-component of [w] is not zero, [getVertex(u, v)]
    is [w] scaled by [-depth / w.z], where [depth] is [getDepth(u, v)], and the
    z-component of the vertex is [-depth]. *)
Theorem getVertex_unprojects
    (d : Depth) (array : DepthArray) (inverse : Matrix4) (u v : Q)
    (w : Vector3) (wz : Q) (depth : number) :
  array_get (depthArray d) 0 = Some array ->
  depthProjectionInverseMatrices d !! 0%nat = Some inverse ->
  w = Vector3.applyMatrix4 (mkVector3 (2 * u - 1) (2 * v - 1) (- (1))) inverse ->
  vz w = Fin wz -> ~ wz == 0 ->
  getDepth d u v = Return depth ->
  exists vertex,
    getVertex d u v = Return (Some vertex) /\
    Vector3.equiv vertex (Vector3.multiplyScalar w (Num.div (Num.opp depth) (vz w))) /\
    Num.equiv (vz vertex) (Num.opp depth).
Proof.
  intros Harray Hinverse Hw Hwz Hnz Hdepth.
  unfold getDepth in Hdepth. unfold getVertex, object_at.
  rewrite Harray in *. rewrite Hinverse.
  destruct (rawValueToMeters d) as [scale|]; [| done]. cbv zeta in *. cbn [cbind] in *.
  assert (Hd : Num.mul scale (rawDepth d array u v) = depth) by (by injection Hdepth).
  rewrite Hd. clear Hd Hdepth.
  set (p := Vector3.applyMatrix4 (clipPoint u v) inverse).
  assert (Hp : Vector3.equiv p w).
  { subst p w. apply applyMatrix4_equiv, clipPoint_equiv. }
  clearbody p. eexists. split; [reflexivity |].
  assert (Hs : Num.equiv (Num.div (Num.opp depth) (vz p)) (Num.div (Num.opp depth) (vz w))).
  { apply Num_div_equiv; [apply Num_equiv_refl | apply Hp]. }
  split; [by apply multiplyScalar_equiv |].
  destruct Hp as (_ & _ & Hz). rewrite Hwz in Hz.
  cbn [Vector3.multiplyScalar vz].
  destruct (vz p) as [pz|]; [| done]. cbn in Hz.
  destruct depth as [q|]; cbn; [| done].
  assert (Hpz0 : ~ pz == 0) by (by rewrite Hz).
  destruct (Qeq_bool pz 0) eqn:Hb; [by apply Qeq_bool_iff in Hb |].
  cbn. by field.
Qed.

Lemma getVertex_unprojects_witness :
  exists vertex,
    getVertex exampleDepth (1 # 2) (1 # 2) = Return (Some vertex) /\
    Num.equiv (vz vertex) (Num.opp exampleMeters).
Proof.
  destruct (getVertex_unprojects exampleDepth (typedArray false (data sample4x4))
              Matrix4.identity (1 # 2) (1 # 2) exampleRay exampleRayZ exampleMeters)
    as (vertex & Hvertex & _ & Hz).
  - vm_compute. reflexivity.
  - vm_compute. reflexivity.
  - reflexivity.
  - vm_compute. reflexivity.
  - apply Qeq_bool_neq. vm_compute. reflexivity.
  - vm_compute. reflexivity.
  - exists vertex. split; [exact Hvertex | exact Hz].
Defined.

(** C10: in every reachable state, when [depthArray[viewId]] is there, each
    of the six per-view arrays is longer than [viewId]; for view 0 the inverse
    projection matrix that [getVertex] reads after its check of the depth
    array is there. *)
Theorem depthArray_has_matrices (d : Depth) (viewId : nat) :
  reachable d ->
  is_Some (array_get (depthArray d) viewId) ->
  (viewId < length (depthViewMatrices d))%nat /\
  (viewId < length (depthProjectionMatrices d))%nat /\
  (viewId < length (depthProjectionInverseMatrices d))%nat /\
  (viewId < length (depthViewProjectionMatrices d))%nat /\
  (viewId < length (depthCameraPositions d))%nat /\
  (viewId < length (depthCameraRotations d))%nat /\
  (viewId = 0%nat ->
   exists inverse, object_at (depthProjectionInverseMatrices d) 0 = Return inverse).
Proof.
  intros Hreach Hsome.
  destruct (reachable_covered d Hreach) as [(H1 & H2 & H3 & H4 & H5) Hcov].
  specialize (Hcov viewId Hsome).
  repeat split; try lia.
  intros ->. unfold object_at.
  destruct (lookup_lt_is_Some_2 (depthProjectionInverseMatrices d) 0) as [m Hm]; [lia |].
  exists m. by rewrite Hm.
Qed.

Lemma depthArray_has_matrices_witness :
  is_Some (array_get (depthArray exampleDepth) 0) /\
  (0 < length (depthProjectionInverseMatrices exampleDepth))%nat.
Proof.
  assert (Hreach : reachable exampleDepth).
  { exact (reachable_call _ (CallUpdateCPUDepthData exampleEnv sample4x4 0)
             (reachable_init exampleOptions exampleOptions)). }
  assert (Hsome : is_Some (array_get (depthArray exampleDepth) 0)).
  { exists (typedArray false (data sample4x4)). vm_compute. reflexivity. }
  destruct (depthArray_has_matrices exampleDepth 0 Hreach Hsome) as (_ & _ & Hinv & _).
  split; [exact Hsome | exact Hinv].
Defined.

(** * Further properties *)

(** ** Methods that return *)

Section Total.
Context {A B : Type}.
Implicit Types (P : Depth -> Prop).

Lemma total_bind P (R : A -> Depth -> Prop) (Q : B -> Depth -> Prop)
    (m : Action A) (k : A -> Action B) :
  total P m R -> (forall a, total (R a) (k a) Q) -> total P (bind m k) Q.
Proof.
  intros Hm Hk d HP. destruct (Hm d HP) as (a & Ha & HR).
  destruct (Hk a _ HR) as (b & Hb & HQ).
  exists b. unfold bind. rewrite Ha. cbn. by split.
Qed.

Lemma total_ret P (Q : A -> Depth -> Prop) (a : A) :
  (forall d, P d -> Q a d) -> total P (ret a) Q.
Proof. intros H d HP. exists a. split; [done | by apply H]. Qed.

Lemma total_gets P (Q : A -> Depth -> Prop) (f : Depth -> A) :
  (forall d, P d -> Q (f d) d) -> total P (gets f) Q.
Proof. intros H d HP. exists (f d). split; [done | by apply H]. Qed.

Lemma total_element P (Q : A -> Depth -> Prop) (f : Depth -> list A) i :
  (forall d, P d -> exists x, f d !! i = Some x /\ Q x d) -> total P (element f i) Q.
Proof.
  intros H d HP. destruct (H d HP) as (x & Hx & HQ).
  exists x. unfold element. rewrite Hx. by split.
Qed.

Lemma total_weaken P P' (Q Q' : A -> Depth -> Prop) (m : Action A) :
  total P' m Q' -> (forall d, P d -> P' d) -> (forall a d, Q' a d -> Q a d) ->
  total P m Q.
Proof.
  intros Hm HP HQ d Hd. destruct (Hm d (HP d Hd)) as (a & Ha & Hq).
  exists a. split; [done | by apply HQ].
Qed.
End Total.

Lemma total_modify (P : Depth -> Prop) (Q : unit -> Depth -> Prop) f :
  (forall d, P d -> Q tt (f d)) -> total P (modify f) Q.
Proof. intros H d HP. exists tt. split; [done | by apply H]. Qed.

Lemma total_emit (P : Depth -> Prop) (Q : unit -> Depth -> Prop) e :
  (forall d, P d -> Q tt d) -> total P (emit e) Q.
Proof. intros H d HP. exists tt. split; [done | by apply H]. Qed.

Lemma total_when (P : Depth -> Prop) (Q : unit -> Depth -> Prop) b m :
  total P m Q -> (forall d, P d -> Q tt d) -> total P (when b m) Q.
Proof. intros Hm H. destruct b; [exact Hm | by apply total_ret]. Qed.

(** ** What [updateCPUDepthData] stores, and what the queries read of it *)

Lemma storedCPU_depthMesh d depthData viewId m d' :
  storedCPU d depthData viewId d' -> storedCPU d depthData viewId (set_depthMesh m d').
Proof. intros H. exact H. Qed.

Lemma poseMesh_total (P : Depth -> Prop) mesh :
  (forall d, P d -> (0 < length (depthViewMatrices d))%nat /\ aligned d) ->
  (forall m d, P d -> P (set_depthMesh m d)) ->
  total P (poseMesh mesh) (fun _ => P).
Proof.
  intros Hlen Hmesh. unfold poseMesh.
  eapply total_bind with (R := fun _ => P).
  { apply total_element. intros d HP. destruct (Hlen d HP) as [Hl (H1 & H2 & H3 & H4 & H5)].
    destruct (lookup_lt_is_Some_2 (depthCameraPositions d) 0) as [x Hx]; [lia |].
    exists x. by split. }
  intros p. eapply total_bind with (R := fun _ => P).
  { apply total_modify. intros d HP. by apply Hmesh. }
  intros _. eapply total_bind with (R := fun _ => P).
  { apply total_element. intros d HP. destruct (Hlen d HP) as [Hl (H1 & H2 & H3 & H4 & H5)].
    destruct (lookup_lt_is_Some_2 (depthCameraRotations d) 0) as [x Hx]; [lia |].
    exists x. by split. }
  intros q. apply total_modify. intros d HP. by apply Hmesh.
Qed.

Lemma covering_set_width viewId x d : covering viewId d -> covering viewId (set_width x d).
Proof. intros H. exact H. Qed.

Lemma covering_set_height viewId x d : covering viewId d -> covering viewId (set_height x d).
Proof. intros H. exact H. Qed.

Lemma storedCPU_written d0 d2 depthData viewId :
  covering viewId d2 ->
  depthArray d2 = depthArray d0 -> options d2 = options d0 ->
  gpuDepthData d2 = gpuDepthData d0 -> view d2 = view d0 ->
  cpuDepthData d2 = array_set (cpuDepthData d0) viewId depthData ->
  storedCPU d0 depthData viewId
    (set_height (info_height (cpu_info depthData))
       (set_width (info_width (cpu_info depthData))
          (set_depthArray
             (array_set (depthArray d2) viewId
                (typedArray (useFloat32 (options d2)) (data depthData))) d2))).
Proof.
  intros Hcovering HA HO HG HV HC.
  split; [apply covering_set_height, covering_set_width, covering_store, Hcovering |].
  destruct d2. cbn in *. subst.
  split; [apply array_get_set_eq |]. split; [apply array_get_set_eq |].
  split; [reflexivity |]. split; [reflexivity |].
  split; [reflexivity |]. split; [reflexivity |]. split; [reflexivity |].
  split; intros j Hj; by apply array_get_set_ne.
Qed.

Lemma updateCPUDepthData_post env depthData viewId d0 :
  renderer d0 = true ->
  total (fun d => d = d0 /\ covered d0)
    (updateCPUDepthData env depthData viewId)
    (fun _ => storedCPU d0 depthData viewId).
Proof.
  intros Hrenderer. unfold updateCPUDepthData.
  remember (set_cpuDepthData (array_set (cpuDepthData d0) viewId depthData) d0)
    as d1 eqn:Hd1.
  assert (Hrenderer1 : renderer d1 = true) by (by subst d1).
  remember (withMatrices (Matrix4_invert env) (sourceCamera env (cpu_info depthData) viewId)
              viewId (populate viewId d1)) as d2 eqn:Hd2.
  assert (Hcovering : covered d0 -> covering viewId d2).
  { intros Hcov.
    assert (Hcov1 : covered d1) by (by subst d1).
    pose proof (updateDepthMatrices_covering env (cpu_info depthData) viewId d1 Hcov1) as H.
    rewrite updateDepthMatrices_run in H by (by destruct Hcov1). by subst d2. }
  assert (Hfields : depthArray d2 = depthArray d0 /\ options d2 = options d0 /\
            gpuDepthData d2 = gpuDepthData d0 /\ view d2 = view d0 /\
            cpuDepthData d2 = array_set (cpuDepthData d0) viewId depthData).
  { subst d2 d1. rewrite populate_pushed. by cbn. }
  destruct Hfields as (HA & HO & HG & HV & HC).
  eapply total_bind with (R := fun _ d => d = d1 /\ covered d0).
  { apply total_modify. intros d [-> H]. by subst d1. }
  intros _. eapply total_bind with (R := fun _ d => d = d2 /\ covered d0).
  { intros d [-> Hcov]. exists tt.
    assert (Hal1 : aligned d1) by (subst d1; by destruct Hcov).
    rewrite updateDepthMatrices_run by done. by subst d2. }
  clear Hd1 Hd2.
  intros _. eapply total_bind with (R := fun _ d =>
    d = set_depthArray (array_set (depthArray d2) viewId
          (typedArray (useFloat32 (options d2)) (data depthData))) d2 /\ covered d0).
  { apply total_modify. by intros d [-> H]. }
  intros _. eapply total_bind with (R := fun _ d =>
    d = set_width (info_width (cpu_info depthData))
          (set_depthArray (array_set (depthArray d2) viewId
             (typedArray (useFloat32 (options d2)) (data depthData))) d2) /\ covered d0).
  { apply total_modify. by intros d [-> H]. }
  intros _. eapply total_bind with (R := fun _ => storedCPU d0 depthData viewId).
  { apply total_modify. intros d [-> Hcov]. specialize (Hcovering Hcov).
    by apply storedCPU_written. }
  intros _. eapply total_bind with (R := fun _ => storedCPU d0 depthData viewId).
  { by apply total_gets. }
  intros opts. eapply total_bind with (R := fun _ => storedCPU d0 depthData viewId).
  { by apply total_gets. }
  intros textures. eapply total_bind with (R := fun _ => storedCPU d0 depthData viewId).
  { apply total_when; [by apply total_emit | done]. }
  intros _. eapply total_bind with (R := fun _ => storedCPU d0 depthData viewId).
  { by apply total_gets. }
  intros [mesh|]; [| by apply total_ret].
  destruct (depthMesh_enabled opts && bool_decide (viewId = 0%nat)) eqn:Hb; cbn [when];
    [| by apply total_ret].
  apply andb_true_iff in Hb as [_ Hv]. apply bool_decide_eq_true in Hv. subst viewId.
  eapply total_bind with (R := fun _ => storedCPU d0 depthData 0).
  { by apply total_emit. }
  intros _. apply poseMesh_total.
  - intros d [[[Hal _] Hlt] _]. by split.
  - intros m d. apply storedCPU_depthMesh.
Qed.

Lemma rawValueToMeters_cpu d depthData :
  array_get (cpuDepthData d) 0 = Some depthData ->
  rawValueToMeters d = Return (info_rawValueToMeters (cpu_info depthData)).
Proof.
  unfold array_get, rawValueToMeters. destruct (cpuDepthData d) as [|[c|] l]; cbn; try done.
  by intros [= ->].
Qed.

(** X1: [updateCPUDepthData] returns in every reachable state, and has then
    stored the sample and a typed array on its data for the view and set the
    shared size to the size of the sample; the entries of the other views are
    as they were. *)
Theorem updateCPUDepthData_stores
    (env : Env) (depthData : XRCPUDepthInformation) (viewId : nat) (d : Depth) :
  reachable d ->
  let r := updateCPUDepthData env depthData viewId d in
  value r = Return tt /\
  array_get (depthArray (final r)) viewId =
    Some (typedArray (useFloat32 (options d)) (data depthData)) /\
  array_get (cpuDepthData (final r)) viewId = Some depthData /\
  width (final r) = info_width (cpu_info depthData) /\
  height (final r) = info_height (cpu_info depthData) /\
  (forall j, j <> viewId ->
     array_get (depthArray (final r)) j = array_get (depthArray d) j /\
     array_get (cpuDepthData (final r)) j = array_get (cpuDepthData d) j).
Proof.
  intros Hreach r.
  destruct (updateCPUDepthData_post env depthData viewId d (reachable_renderer d Hreach) d
              (conj eq_refl (reachable_covered d Hreach)))
    as ([] & Hvalue & _ & HA & HC & HW & HH & _ & _ & _ & HAj & HCj).
  repeat split; try done.
  - by apply HAj.
  - by apply HCj.
Qed.

Lemma updateCPUDepthData_stores_witness :
  value (updateCPUDepthData exampleEnv sample4x4 1 initialDepth) = Return tt /\
  width (final (updateCPUDepthData exampleEnv sample4x4 1 initialDepth)) = 4%Z.
Proof.
  destruct (updateCPUDepthData_stores exampleEnv sample4x4 1 initialDepth
              (reachable_init exampleOptions exampleOptions)) as (Hvalue & _ & _ & Hwidth & _).
  split; [exact Hvalue | exact Hwidth].
Defined.

(** X2: after [updateCPUDepthData] for view 0 with a sample of positive size
    whose buffer has as many elements as pixels, [getDepth] reads an element
    of the typed array on that buffer, at the index whose products are
    doubles, and scales it by the sample's own factor: it never runs past
    the data. *)
Theorem getDepth_after_updateCPUDepthData
    (env : Env) (depthData : XRCPUDepthInformation) (d : Depth) (u v : Q) :
  reachable d ->
  (0 < info_width (cpu_info depthData))%Z ->
  (0 < info_height (cpu_info depthData))%Z ->
  length (samples (typedArray (useFloat32 (options d)) (data depthData))) =
    Z.to_nat (info_width (cpu_info depthData) * info_height (cpu_info depthData)) ->
  let d' := final (updateCPUDepthData env depthData 0 d) in
  let col :=
    Math_round (clamp (Double.round (u * inject_Z (info_width (cpu_info depthData)))) 0
                  (inject_Z (info_width (cpu_info depthData)) - 1)) in
  let row :=
    Math_round (clamp (Double.round (Double.round (1 - v)
                                     * inject_Z (info_height (cpu_info depthData)))) 0
                  (inject_Z (info_height (cpu_info depthData)) - 1)) in
  exists raw : number,
    samples (typedArray (useFloat32 (options d)) (data depthData))
      !! Z.to_nat (row * info_width (cpu_info depthData) + col) = Some raw /\
    getDepth d' u v = Return (Num.mul (info_rawValueToMeters (cpu_info depthData)) raw).
Proof.
  intros Hreach Hw Hh Hlen d' col row.
  destruct (updateCPUDepthData_post env depthData 0 d (reachable_renderer d Hreach) d
              (conj eq_refl (reachable_covered d Hreach)))
    as ([] & _ & _ & HA & HC & HW & HH & _).
  fold d' in HA, HC, HW, HH.
  pose proof (pixel_bounds
                (Double.round (u * inject_Z (info_width (cpu_info depthData))))
                _ Hw) as Hx.
  pose proof (pixel_bounds
                (Double.round (Double.round (1 - v)
                               * inject_Z (info_height (cpu_info depthData))))
                _ Hh) as Hy.
  fold col in Hx. fold row in Hy.
  set (index := (row * info_width (cpu_info depthData) + col)%Z).
  assert (Hindex : (0 <= index < info_width (cpu_info depthData)
                                  * info_height (cpu_info depthData))%Z).
  { subst index. nia. }
  destruct (lookup_lt_is_Some_2
              (samples (typedArray (useFloat32 (options d)) (data depthData)))
              (Z.to_nat index)) as [raw Hraw]; [lia |].
  exists raw. split; [exact Hraw |].
  unfold getDepth. rewrite HA, (rawValueToMeters_cpu d' depthData HC). cbn [cbind rawDepth].
  unfold depthX, depthY. rewrite HW, HH. fold col. fold row. fold index.
  unfold typedArray_get.
  destruct (index <? 0)%Z eqn:Hneg; [lia |]. by rewrite Hraw.
Qed.

Lemma getDepth_after_updateCPUDepthData_witness :
  getDepth exampleDepth (3 # 4) (1 # 4) = Return (Num.mul (1 # 1000) (inject_Z 1000)) /\
  sixth * 3 < 1 # 2 /\
  getDepth (final (updateCPUDepthData exampleEnv sample3x2 0 initialDepth)) sixth 1 =
    Return (Num.mul (1 # 1000) (inject_Z 20)).
Proof.
  destruct (getDepth_after_updateCPUDepthData exampleEnv sample4x4 initialDepth
              (3 # 4) (1 # 4) (reachable_init exampleOptions exampleOptions)
              eq_refl eq_refl eq_refl) as (raw & Hraw & Hdepth).
  destruct (getDepth_after_updateCPUDepthData exampleEnv sample3x2 initialDepth
              sixth 1 (reachable_init exampleOptions exampleOptions)
              eq_refl eq_refl eq_refl) as (raw' & Hraw' & Hdepth').
  vm_compute in Hraw. injection Hraw as <-.
  vm_compute in Hraw'. injection Hraw' as <-.
  split; [exact Hdepth |]. split; [reflexivity | exact Hdepth'].
Defined.

(** X3: once a CPU sample was ingested for view 0 the three queries return:
    [getDepth] a number, [getVertex] a vertex and not [null], and
    [getProjectedDepthViewPositionFromWorldPosition] a position, without a
    [TypeError]. *)
Theorem queries_after_updateCPUDepthData
    (env : Env) (depthData : XRCPUDepthInformation) (d : Depth) (u v : number)
    (position : Vector3) :
  reachable d ->
  let d' := final (updateCPUDepthData env depthData 0 d) in
  (exists depth, getDepth d' u v = Return depth) /\
  (exists vertex, getVertex d' u v = Return (Some vertex)) /\
  (exists target, getProjectedDepthViewPositionFromWorldPosition d' position = Return target).
Proof.
  intros Hreach d'.
  destruct (updateCPUDepthData_post env depthData 0 d (reachable_renderer d Hreach) d
              (conj eq_refl (reachable_covered d Hreach)))
    as ([] & _ & [[(H1 & H2 & H3 & H4 & H5) _] Hlt] & HA & HC & _).
  fold d' in H1, H2, H3, H4, H5, Hlt, HA, HC.
  destruct (lookup_lt_is_Some_2 (depthViewMatrices d') 0) as [V HV]; [lia |].
  destruct (lookup_lt_is_Some_2 (depthProjectionMatrices d') 0) as [P HP]; [lia |].
  destruct (lookup_lt_is_Some_2 (depthProjectionInverseMatrices d') 0) as [I HI]; [lia |].
  pose proof (rawValueToMeters_cpu d' depthData HC) as Hscale.
  unfold getProjectedDepthViewPositionFromWorldPosition, getVertex, getDepth, object_at.
  rewrite HA, Hscale, HV, HP, HI. cbn [cbind].
  repeat split; eexists; reflexivity.
Qed.

Lemma queries_after_updateCPUDepthData_witness :
  exists target,
    getProjectedDepthViewPositionFromWorldPosition exampleDepth (mkVector3 0 0 (- (1)))
    = Return target.
Proof.
  exact (proj2 (proj2 (queries_after_updateCPUDepthData exampleEnv sample4x4
                         initialDepth 0 0 (mkVector3 0 0 (- (1)))
                         (reachable_init exampleOptions exampleOptions)))).
Defined.

(** X4: with matrices and a depth array for view 0,
    [getProjectedDepthViewPositionFromWorldPosition] of a world position is
    [getVertex] at the image coordinates the position projects to. *)
Theorem getProjected_agrees_with_getVertex
    (d : Depth) (position : Vector3) (viewMatrix projection : Matrix4) :
  depthViewMatrices d !! 0%nat = Some viewMatrix ->
  depthProjectionMatrices d !! 0%nat = Some projection ->
  is_Some (array_get (depthArray d) 0) ->
  let clip := Vector3.applyMatrix4 (Vector3.applyMatrix4 position viewMatrix) projection in
  let u := Num.mul (1 # 2) (Num.add (vx clip) 1) in
  let v := Num.mul (1 # 2) (Num.add (vy clip) 1) in
  getVertex d u v =
  cbind (getProjectedDepthViewPositionFromWorldPosition d position)
    (fun target => Return (Some target)).
Proof.
  intros HV HP [array Harray] clip u v.
  unfold getProjectedDepthViewPositionFromWorldPosition, getVertex, getDepth, object_at.
  rewrite HV, HP, Harray. cbn [cbind]. fold clip. fold u. fold v.
  destruct (rawValueToMeters d) as [scale|]; cbn [cbind]; [| done].
  by destruct (depthProjectionInverseMatrices d !! 0%nat).
Qed.

Lemma getProjected_agrees_with_getVertex_witness :
  getVertex exampleDepth (Num.mul (1 # 2) (Num.add 0 1)) (Num.mul (1 # 2) (Num.add 0 1)) =
  cbind (getProjectedDepthViewPositionFromWorldPosition exampleDepth (mkVector3 0 0 (- (1))))
    (fun target => Return (Some target)).
Proof.
  assert (HV : depthViewMatrices exampleDepth !! 0%nat = Some Matrix4.identity).
  { vm_compute. reflexivity. }
  assert (HP : depthProjectionMatrices exampleDepth !! 0%nat = Some Matrix4.identity).
  { vm_compute. reflexivity. }
  assert (Hsome : is_Some (array_get (depthArray exampleDepth) 0)).
  { exists (typedArray false (data sample4x4)). vm_compute. reflexivity. }
  exact (getProjected_agrees_with_getVertex exampleDepth (mkVector3 0 0 (- (1)))
           Matrix4.identity Matrix4.identity HV HP Hsome).
Defined.

(** ** Nothing that was ingested is dropped *)

Lemma extends_refl d : extends d d.
Proof. unfold extends. repeat split; auto. Qed.

Lemma array_set_is_Some {A} (a : list (option A)) i j x :
  is_Some (array_get a j) -> is_Some (array_get (array_set a i x) j).
Proof.
  intros H. destruct (decide (i = j)) as [->|Hne].
  - rewrite array_get_set_eq. by eexists.
  - by rewrite array_get_set_ne.
Qed.

Lemma extends_pushView d0 d : extends d0 d -> extends d0 (pushView d).
Proof.
  unfold extends, pushView. cbn. rewrite !length_app. cbn.
  intros (H1 & H2 & H3 & H4 & H5 & H6 & H7). repeat split; try lia; apply H7.
Qed.

Lemma extends_populate d0 viewId d : extends d0 d -> extends d0 (populate viewId d).
Proof.
  intros H. unfold populate.
  induction (S viewId - length (depthViewMatrices d))%nat as [|n IH]; [exact H |].
  cbn [Nat.iter]. by apply extends_pushView.
Qed.

Ltac extends_write :=
  apply stable_modify; intros ? (H1 & H2 & H3 & H4 & H5 & H6 & H7 & H8 & H9 & H10);
  unfold extends; cbn; rewrite ?length_insert;
  repeat split; try assumption;
  intros ? ?; apply array_set_is_Some; auto.

Lemma overwrite_extends {A} d0 (f : Depth -> list A) set_f i x :
  (forall d, extends d0 d -> extends d0 (set_f (<[i := x]> (f d)) d)) ->
  stable (extends d0) (overwrite f set_f i x).
Proof.
  intros H. unfold overwrite. apply stable_bind; [apply stable_element |].
  intros _. by apply stable_modify.
Qed.

Ltac extends_overwrite :=
  apply overwrite_extends; intros ? (H1 & H2 & H3 & H4 & H5 & H6 & H7);
  unfold extends; cbn; rewrite ?length_insert; repeat split; try assumption; apply H7.

Lemma updateDepthMatrices_extends env depthData viewId d0 :
  stable (extends d0) (updateDepthMatrices env depthData viewId).
Proof.
  unfold updateDepthMatrices.
  apply stable_bind; [apply stable_modify; intros d; apply extends_populate |].
  intros _.
  repeat first [ extends_overwrite | stable_step ].
Qed.

Lemma poseMesh_extends d0 mesh : stable (extends d0) (poseMesh mesh).
Proof. apply poseMesh_stable. intros m d H. exact H. Qed.

Lemma updateCPUDepthData_extends env depthData viewId d0 :
  stable (extends d0) (updateCPUDepthData env depthData viewId).
Proof.
  unfold updateCPUDepthData.
  repeat first
    [ apply updateDepthMatrices_extends | apply poseMesh_extends
    | stable_step | extends_write ].
Qed.

Lemma write_buffer_extends d0 b : stable (extends d0) (modify (write_buffer b)).
Proof.
  apply stable_modify. intros d (H1 & H2 & H3 & H4 & H5 & H6 & H7 & H8 & H9 & H10).
  unfold extends, write_buffer. cbn. repeat split; try assumption.
  - intros i Hi. rewrite array_get_fmap. apply fmap_is_Some. by apply H8.
  - intros i Hi. rewrite array_get_fmap. apply fmap_is_Some. by apply H10.
Qed.

Lemma updateGPUDepthData_extends env depthData viewId d0 :
  stable (extends d0) (updateGPUDepthData env depthData viewId).
Proof.
  unfold updateGPUDepthData.
  repeat first
    [ apply updateDepthMatrices_extends | apply poseMesh_extends
    | apply write_buffer_extends | stable_step | extends_write ].
Qed.

Lemma ingestViews_extends env frame views viewId d0 :
  stable (extends d0) (ingestViews env frame views viewId).
Proof.
  revert viewId. induction views as [|xrView views IH]; intros viewId; cbn [ingestViews].
  - apply stable_ret.
  - apply stable_bind; [extends_write |]. intros _.
    destruct (depthUsage_gpu_optimized (session frame)).
    + destruct (binding_getDepthInformation frame xrView); [| apply stable_ret].
      apply stable_bind; [apply updateGPUDepthData_extends | intros _; apply IH].
    + destruct (frame_getDepthInformation frame xrView); [| apply stable_ret].
      apply stable_bind; [apply updateCPUDepthData_extends | intros _; apply IH].
Qed.

Lemma updateLocalDepth_extends env frame d0 :
  stable (extends d0) (updateLocalDepth env frame).
Proof.
  unfold updateLocalDepth.
  apply stable_bind; [apply gate_stable |]. intros stop.
  destruct stop; [apply stable_ret |].
  destruct (referenceSpace frame); [| apply stable_ret].
  destruct (viewerPose frame); [apply ingestViews_extends | apply stable_emit].
Qed.

(** X5: no call of a method, from any state and whether it returns or
    throws, shortens a per-view array or empties an index that held a view, a
    depth sample or a depth array. *)
Theorem perform_extends (c : Call) (d : Depth) : extends d (final (perform c d)).
Proof.
  assert (H : stable (extends d) (perform c)).
  { destruct c; cbn [perform].
    - apply stable_modify. intros d' H. exact H.
    - apply updateLocalDepth_extends.
    - apply updateCPUDepthData_extends.
    - apply updateGPUDepthData_extends.
    - unfold resumeDepth. apply stable_bind; [| intros _]; apply stable_modify;
        intros d' H; exact H.
    - unfold pauseDepth. apply stable_bind; [| intros _]; apply stable_modify;
        intros d' H; exact H. }
  apply H, extends_refl.
Qed.

(** ** The depth mesh follows the depth camera *)

Lemma withMatrices_pose invert source viewId d :
  aligned d -> (viewId < length (depthViewMatrices d))%nat ->
  depthCameraPositions (withMatrices invert source viewId d) !! viewId
    = Some (camera_position source) /\
  depthCameraRotations (withMatrices invert source viewId d) !! viewId
    = Some (camera_quaternion source).
Proof.
  intros (H1 & H2 & H3 & H4 & H5) Hlt. unfold withMatrices. cbn.
  split; apply list_lookup_insert_eq; lia.
Qed.

Lemma poseMesh_poses (P : Depth -> Prop) (Q : option DepthMesh -> Prop) mesh p q :
  (forall d, P d -> depthCameraPositions d !! 0%nat = Some p /\
                    depthCameraRotations d !! 0%nat = Some q) ->
  (forall m d, P d -> P (set_depthMesh m d)) ->
  total P (poseMesh mesh)
    (fun _ d => P d /\ depthMesh d = Some (mkDepthMesh p q)).
Proof.
  intros Hpose Hmesh. unfold poseMesh.
  eapply total_bind with (R := fun x d => P d /\ x = p).
  { apply total_element. intros d HP. exists p. by destruct (Hpose d HP). }
  intros x. eapply total_bind with (R := fun _ d => P d /\ x = p).
  { apply total_modify. intros d [HP ->]. split; [by apply Hmesh | done]. }
  intros _. eapply total_bind with (R := fun y d => P d /\ x = p /\ y = q).
  { apply total_element. intros d [HP ->]. exists q. by destruct (Hpose d HP). }
  intros y. apply total_modify. intros d (HP & -> & ->). split; [by apply Hmesh | done].
Qed.

Lemma updateCPUDepthData_posed env depthData viewId d0 :
  renderer d0 = true ->
  total (fun d => d = d0 /\ aligned d0)
    (updateCPUDepthData env depthData viewId)
    (fun _ d' =>
       depthMesh d' = posedMesh d0 (sourceCamera env (cpu_info depthData) viewId) viewId).
Proof.
  intros Hrenderer. unfold updateCPUDepthData.
  set (source := sourceCamera env (cpu_info depthData) viewId).
  set (K := fun d : Depth =>
    depthMesh d = depthMesh d0 /\ options d = options d0 /\
    depthCameraPositions d !! viewId = Some (camera_position source) /\
    depthCameraRotations d !! viewId = Some (camera_quaternion source)).
  eapply total_bind with (R := fun _ d =>
    d = set_cpuDepthData (array_set (cpuDepthData d0) viewId depthData) d0 /\ aligned d0).
  { apply total_modify. by intros d [-> Hal]. }
  intros _. eapply total_bind with (R := fun _ d => K d).
  { intros d [-> Hal].
    rewrite updateDepthMatrices_run by (first [exact Hal | exact Hrenderer]).
    exists tt. split; [reflexivity |].
    cbn [final].
    destruct (populate_aligned viewId
                (set_cpuDepthData (array_set (cpuDepthData d0) viewId depthData) d0) Hal)
      as [Hal' Hlt].
    destruct (withMatrices_pose (Matrix4_invert env) source viewId _ Hal' Hlt) as [Hp Hq].
    split; [| split; [| split; [exact Hp | exact Hq]]].
    - rewrite populate_pushed. reflexivity.
    - rewrite populate_pushed. reflexivity. }
  intros _. eapply total_bind with (R := fun _ d => K d).
  { apply total_modify. intros d H. exact H. }
  intros _. eapply total_bind with (R := fun _ d => K d).
  { apply total_modify. intros d H. exact H. }
  intros _. eapply total_bind with (R := fun _ d => K d).
  { apply total_modify. intros d H. exact H. }
  intros _. eapply total_bind with (R := fun opts d => K d /\ opts = options d0).
  { apply total_gets. intros d H. split; [exact H | apply H]. }
  intros opts. eapply total_bind with (R := fun _ d => K d /\ opts = options d0).
  { by apply total_gets. }
  intros textures. eapply total_bind with (R := fun _ d => K d /\ opts = options d0).
  { apply total_when; [by apply total_emit | done]. }
  intros _. eapply total_bind
    with (R := fun mesh d => K d /\ opts = options d0 /\ mesh = depthMesh d0).
  { apply total_gets. intros d [H ->]. split; [exact H |]. split; [done | apply H]. }
  intros mesh. unfold posedMesh.
  destruct mesh as [mesh|].
  - destruct (depthMesh_enabled opts && bool_decide (viewId = 0%nat)) eqn:Hb; cbn [when].
    + eapply total_bind with (R := fun _ d =>
        K d /\ opts = options d0 /\ viewId = 0%nat /\ depthMesh d0 = Some mesh).
      { apply total_emit. intros d (H & Ho & Hmesh). repeat split; try apply H; try done.
        apply andb_true_iff in Hb as [_ Hv]. by apply bool_decide_eq_true in Hv. }
      intros _.
      eapply total_weaken.
      * apply (poseMesh_poses
                 (fun d =>
                    depthCameraPositions d !! 0%nat = Some (camera_position source) /\
                    depthCameraRotations d !! 0%nat = Some (camera_quaternion source) /\
                    opts = options d0 /\ viewId = 0%nat /\ depthMesh d0 = Some mesh)
                 (fun _ => True) mesh (camera_position source) (camera_quaternion source)).
        -- intros d (Hp & Hq & _). by split.
        -- intros m d H. exact H.
      * intros d ((_ & _ & Hp & Hq) & -> & -> & Hm). by repeat split.
      * cbn beta. intros _ d [(_ & _ & -> & -> & Hm) Hposed].
        rewrite Hm, Hposed. by rewrite Hb.
    + apply total_ret. intros d ((Hm & _) & -> & Hmesh). rewrite <- Hmesh, Hm.
      rewrite <- Hmesh. by rewrite Hb.
  - apply total_ret. intros d ((Hm & _) & _ & Hmesh). by rewrite <- Hmesh, Hm, <- Hmesh.
Qed.

(** X6: [updateCPUDepthData] moves the depth mesh exactly when the mesh is
    enabled, constructed and the view is view 0, and then to the position and
    rotation of the camera the matrices were taken from; otherwise the mesh is
    as it was. *)
Theorem updateCPUDepthData_poses_mesh
    (env : Env) (depthData : XRCPUDepthInformation) (viewId : nat) (d : Depth) :
  reachable d ->
  depthMesh (final (updateCPUDepthData env depthData viewId d)) =
  posedMesh d (sourceCamera env (cpu_info depthData) viewId) viewId.
Proof.
  intros Hreach.
  destruct (updateCPUDepthData_posed env depthData viewId d (reachable_renderer d Hreach) d
              (conj eq_refl (reachable_aligned d Hreach))) as (_ & _ & H).
  exact H.
Qed.

Lemma updateCPUDepthData_poses_mesh_witness :
  depthMesh (final (updateCPUDepthData exampleEnv sample4x4 0 meshDepth)) =
  Some (mkDepthMesh Vector3.zero (mkQuaternion 0 0 0 1)).
Proof.
  exact (updateCPUDepthData_poses_mesh exampleEnv sample4x4 0 meshDepth
           (reachable_init exampleOptions meshOptions)).
Defined.

(** ** A stored depth array keeps its size *)

Lemma hoare_gets_bind {A B} (P Q : Depth -> Prop) (f : Depth -> A) (k : A -> Action B) :
  (forall d, P d -> Q (final (k (f d) d))) -> hoare P (bind (gets f) k) Q.
Proof. intros H d HP. unfold bind, gets. cbn. by apply H. Qed.

Lemma halves_length ws : length (halves ws) = (2 * length ws)%nat.
Proof. unfold halves. induction ws as [|w ws IH]; cbn; [done | lia]. Qed.

Lemma words_length n hs : length hs = (2 * n)%nat -> length (words hs) = n.
Proof.
  revert hs. induction n as [|n IH]; intros [|h0 [|h1 hs]] Hlen; cbn in *; try lia.
  f_equal. apply IH. lia.
Qed.

Lemma samples_length a :
  length (samples a) =
  if isFloat32 a then length (buffer_words (buffer a))
  else (2 * length (buffer_words (buffer a)))%nat.
Proof.
  unfold samples. destruct (isFloat32 a); rewrite length_map; [done |].
  apply halves_length.
Qed.

Lemma typedArray_set_length target source target' :
  typedArray_set target source = Return target' ->
  length (samples target') = length (samples target) /\
  isFloat32 target' = isFloat32 target.
Proof.
  unfold typedArray_set. case_decide as Hle; [| done]. intros [= <-].
  split; [| done]. rewrite !samples_length in *. cbn [isFloat32 buffer buffer_words].
  destruct (isFloat32 target), (isFloat32 source);
    rewrite ?(words_length (length (buffer_words (buffer target))));
    rewrite ?length_app, ?length_drop, ?length_map, ?halves_length; lia.
Qed.

Lemma updateDepthMatrices_frame env depthData viewId (P : Depth -> Prop) :
  (forall n d, P d -> P (pushed n d)) ->
  (forall x d, P d -> P (set_depthProjectionMatrices x d)) ->
  (forall x d, P d -> P (set_depthViewMatrices x d)) ->
  (forall x d, P d -> P (set_depthCameraPositions x d)) ->
  (forall x d, P d -> P (set_depthCameraRotations x d)) ->
  (forall x d, P d -> P (set_depthProjectionInverseMatrices x d)) ->
  (forall x d, P d -> P (set_depthViewProjectionMatrices x d)) ->
  stable P (updateDepthMatrices env depthData viewId).
Proof.
  intros Hpush H1 H2 H3 H4 H5 H6. unfold updateDepthMatrices, overwrite.
  apply stable_bind.
  { apply stable_modify. intros d HP. rewrite populate_pushed. by apply Hpush. }
  intros _.
  repeat first
    [ stable_step
    | apply stable_modify; intros ? ?;
      first [ by apply H1 | by apply H2 | by apply H3 | by apply H4 | by apply H5
            | by apply H6 ] ].
Qed.

(** X7: when a depth array is already stored for the view,
    [updateGPUDepthData] leaves [width] and [height] as they were, and the
    array it leaves for the view has the length and the element type of the
    stored one, whatever the converted sample holds. *)
Theorem updateGPUDepthData_keeps_dimensions
    (env : Env) (depthData : XRWebGLDepthInformation) (viewId : nat) (d : Depth)
    (target : DepthArray) :
  array_get (depthArray d) viewId = Some target ->
  let d' := final (updateGPUDepthData env depthData viewId d) in
  width d' = width d /\ height d' = height d /\
  exists target',
    array_get (depthArray d') viewId = Some target' /\
    length (samples target') = length (samples target) /\
    isFloat32 target' = isFloat32 target.
Proof.
  intros Hget d'.
  set (K := fun s : Depth =>
    width s = width d /\ height s = height d /\
    exists target',
      array_get (depthArray s) viewId = Some target' /\
      length (samples target') = length (samples target) /\
      isFloat32 target' = isFloat32 target).
  assert (H : stable K (updateGPUDepthData env depthData viewId)).
  { unfold updateGPUDepthData.
    apply stable_bind; [apply stable_modify; intros s Hs; exact Hs |]. intros _.
    apply stable_bind.
    { apply updateDepthMatrices_frame; intros; assumption. }
    intros _. apply stable_bind; [apply stable_gets |]. intros opts.
    apply stable_bind; [apply stable_gets |]. intros mesh.
    apply stable_bind; [repeat stable_step |]. intros cpuDepth.
    apply stable_bind.
    { destruct cpuDepth as [cpuDepth|]; [| apply stable_ret].
      apply hoare_gets_bind. intros s (Hw & Hh & target' & Hs & Hlen & Hfloat).
      rewrite Hs.
      destruct (typedArray_set target' _) as [target''|] eqn:Hset;
        unfold modify, throw; cbn [final width height depthArray set_depthArray].
      - destruct (typedArray_set_length _ _ _ Hset) as [Hlen' Hfloat'].
        split; [exact Hw |]. split; [exact Hh |].
        exists target''. split; [| split; congruence].
        unfold write_buffer. cbn. rewrite array_get_fmap, Hs. cbn.
        by rewrite (typedArray_set_refresh _ _ _ Hset).
      - split; [exact Hw |]. split; [exact Hh |]. by exists target'. }
    intros _.
    repeat first [ apply poseMesh_stable; intros ? ? Hs; exact Hs | stable_step ]. }
  apply H. unfold K. split; [done |]. split; [done |]. by exists target.
Qed.

Lemma updateGPUDepthData_keeps_dimensions_witness :
  width (final (updateGPUDepthData exampleEnv texture4x4 0 exampleDepth)) = 4%Z.
Proof.
  assert (Hget : array_get (depthArray exampleDepth) 0
                 = Some (typedArray false (data sample4x4))).
  { vm_compute. reflexivity. }
  exact (proj1 (updateGPUDepthData_keeps_dimensions exampleEnv texture4x4 0 exampleDepth
                  _ Hget)).
Defined.

(** ** What [updateLocalDepth] sends to the session *)

Section Emits.
Context {A B : Type}.
Implicit Types (E : Event -> Prop).

Lemma emits_bind E (m : Action A) (k : A -> Action B) :
  emits E m -> (forall a, emits E (k a)) -> emits E (bind m k).
Proof.
  intros Hm Hk d. unfold bind. specialize (Hm d).
  destruct (value (m d)) as [a|]; cbn; [| exact Hm].
  apply Forall_app. split; [exact Hm | apply Hk].
Qed.

Lemma emits_ret E (a : A) : emits E (ret a).
Proof. intros d. constructor. Qed.

Lemma emits_throw E : emits E (@throw A).
Proof. intros d. constructor. Qed.

Lemma emits_gets E (f : Depth -> A) : emits E (gets f).
Proof. intros d. constructor. Qed.

Lemma emits_element E (f : Depth -> list A) i : emits E (element f i).
Proof. intros d. unfold element. destruct (f d !! i); constructor. Qed.
End Emits.

Lemma emits_modify (E : Event -> Prop) f : emits E (modify f).
Proof. intros d. constructor. Qed.

Lemma emits_emit (E : Event -> Prop) e : E e -> emits E (emit e).
Proof. intros He d. by repeat constructor. Qed.

Lemma emits_when (E : Event -> Prop) b m : emits E m -> emits E (when b m).
Proof. intros Hm. destruct b; [exact Hm | apply emits_ret]. Qed.

Ltac emits_step :=
  first
    [ apply emits_ret | apply emits_throw | apply emits_gets | apply emits_modify
    | apply emits_element
    | apply emits_emit; reflexivity
    | apply emits_when
    | apply emits_bind; [| intros ?]
    | match goal with
      | |- emits _ (match ?x with _ => _ end) => destruct x
      end ].

Lemma emits_ingesting e :
  sessionCommand e = false -> e <> ConsoleError -> emits ingesting (emit e).
Proof. intros H1 H2 d. by repeat constructor. Qed.

Ltac ingesting_step :=
  first
    [ apply emits_ingesting; [reflexivity | discriminate]
    | match goal with
      | |- emits _ (emit (match ?x with _ => _ end)) => destruct x
      end
    | emits_step ].

Lemma updateDepthMatrices_emits env depthData viewId :
  emits ingesting (updateDepthMatrices env depthData viewId).
Proof. unfold updateDepthMatrices, overwrite. repeat ingesting_step. Qed.

Lemma poseMesh_emits mesh : emits ingesting (poseMesh mesh).
Proof. unfold poseMesh. repeat ingesting_step. Qed.

Lemma updateCPUDepthData_emits env depthData viewId :
  emits ingesting (updateCPUDepthData env depthData viewId).
Proof.
  unfold updateCPUDepthData.
  repeat first [ apply updateDepthMatrices_emits | apply poseMesh_emits | ingesting_step ].
Qed.

Lemma updateGPUDepthData_emits env depthData viewId :
  emits ingesting (updateGPUDepthData env depthData viewId).
Proof.
  unfold updateGPUDepthData.
  repeat first [ apply updateDepthMatrices_emits | apply poseMesh_emits | ingesting_step ].
Qed.

Lemma ingestViews_emits env frame views viewId :
  emits ingesting (ingestViews env frame views viewId).
Proof.
  revert viewId. induction views as [|xrView views IH]; intros viewId; cbn [ingestViews].
  - apply emits_ret.
  - apply emits_bind; [apply emits_modify |]. intros _.
    destruct (depthUsage_gpu_optimized (session frame)).
    + destruct (binding_getDepthInformation frame xrView); [| apply emits_ret].
      apply emits_bind; [apply updateGPUDepthData_emits | intros _; apply IH].
    + destruct (frame_getDepthInformation frame xrView); [| apply emits_ret].
      apply emits_bind; [apply updateCPUDepthData_emits | intros _; apply IH].
Qed.

(** X8: the only command [updateLocalDepth] sends to the session is the one
    of its gate, sent first; the ingestion sends none, and reports an error
    only when there is no pose. *)
Theorem updateLocalDepth_session_commands (env : Env) (frame : XRFrame) (d : Depth) :
  exists events,
    trace (updateLocalDepth env frame d) = gateCommand frame d ++ events /\
    Forall (fun e => sessionCommand e = false) events /\
    (is_Some (viewerPose frame) -> Forall (fun e => e <> ConsoleError) events).
Proof.
  unfold updateLocalDepth, bind. rewrite gate_run.
  cbn [value final trace].
  destruct (gated frame d); cbn [value final trace ret]; [by exists [] |].
  destruct (referenceSpace frame); [| by exists []].
  destruct (viewerPose frame) as [views|].
  - eexists. split; [reflexivity |].
    pose proof (ingestViews_emits env frame views 0 d) as H.
    split; [| intros _]; eapply Forall_impl; try exact H; by intros e [].
  - exists [ConsoleError]. split; [done |]. split; [by repeat constructor |].
    by intros [? [=]].
Qed.

(** X9: without a reference space or without a viewer pose
    [updateLocalDepth] returns and leaves the object as it was; beyond the
    command of the gate it reports one error, exactly when the gate lets the
    call through and a reference space exists. *)
Theorem updateLocalDepth_without_pose (env : Env) (frame : XRFrame) (d : Depth) :
  referenceSpace frame = false \/ viewerPose frame = None ->
  let r := updateLocalDepth env frame d in
  final r = d /\ value r = Return tt /\
  trace r = gateCommand frame d ++
            (if negb (gated frame d) && referenceSpace frame then [ConsoleError] else []).
Proof.
  intros Hno r. subst r. unfold updateLocalDepth, bind. rewrite gate_run.
  cbn [value final trace].
  destruct (gated frame d); cbn [value final trace ret negb andb]; [done |].
  destruct (referenceSpace frame) eqn:Href.
  - destruct Hno as [Hno|Hno]; [done |]. by rewrite Hno.
  - done.
Qed.

Lemma updateLocalDepth_without_pose_witness :
  trace (updateLocalDepth exampleEnv
           (mkXRFrame (mkXRSession None false) true None (fun _ => None) (fun _ => None))
           initialDepth) = [ConsoleError].
Proof.
  exact (proj2 (proj2 (updateLocalDepth_without_pose exampleEnv
           (mkXRFrame (mkXRSession None false) true None (fun _ => None) (fun _ => None))
           initialDepth (or_intror eq_refl)))).
Defined.

(** ** Clients *)

(** X10: [resumeDepth] of a client that is not registered adds one client,
    and [pauseDepth] of it afterwards gives the set of clients back. *)
Theorem resumeDepth_pauseDepth_round_trip (d : Depth) (client : Client) :
  client ∉ depthClients d ->
  let resumed := final (resumeDepth client d) in
  size (depthClients resumed) = S (size (depthClients d)) /\
  depthClients (final (pauseDepth client resumed)) = depthClients d /\
  size (depthClients (final (pauseDepth client resumed))) = size (depthClients d).
Proof.
  intros Hnew resumed. subst resumed. cbn.
  assert (Hback : ({[client]} ∪ depthClients d) ∖ {[client]} = depthClients d).
  { rewrite difference_union_distr_l_L, difference_diag_L, (left_id_L ∅ (∪)).
    apply difference_disjoint_L. by apply disjoint_singleton_r. }
  split; [| by rewrite Hback].
  rewrite size_union by (by apply disjoint_singleton_l).
  by rewrite size_singleton.
Qed.

Lemma resumeDepth_pauseDepth_round_trip_witness :
  depthClients (final (pauseDepth 7%nat (final (resumeDepth 7%nat exampleDepth))))
  = depthClients exampleDepth.
Proof.
  assert (Hnew : 7%nat ∉ depthClients exampleDepth).
  { change (depthClients exampleDepth) with (∅ : gset Client). apply not_elem_of_empty. }
  exact (proj1 (proj2 (resumeDepth_pauseDepth_round_trip exampleDepth 7%nat Hnew))).
Defined.

(** X11: after [resumeDepth] the gate of [updateLocalDepth] lets a frame
    through, whatever the session, and asks the session to resume exactly
    when it reports depth sensing as inactive. *)
Theorem resumeDepth_opens_gate (frame : XRFrame) (client : Client) (d : Depth) :
  let resumed := final (resumeDepth client d) in
  gated frame resumed = false /\
  gateCommand frame resumed =
    match depthActive (session frame) with
    | Some false => [SessionResumeDepthSensing]
    | _ => []
    end.
Proof.
  intros resumed. subst resumed. unfold gated, gateCommand. cbn.
  assert (Hsize : size ({[client]} ∪ depthClients d) <> 0%nat).
  { intros Hz. apply size_empty_iff in Hz.
    assert (Hin : client ∈ ({[client]} ∪ depthClients d)).
    { apply elem_of_union_l. by apply elem_of_singleton. }
    rewrite Hz in Hin. by apply not_elem_of_empty in Hin. }
  rewrite (bool_decide_eq_false_2 _ Hsize), andb_false_r.
  split; [done |].
  by destruct (depthActive (session frame)) as [[]|].
Qed.

(** X12: after [pauseDepth] of the only client, on a session that can pause,
    [updateLocalDepth] ingests nothing: it returns with the object unchanged,
    having asked the session to pause when depth sensing was active. *)
Theorem updateLocalDepth_after_last_pause
    (env : Env) (frame : XRFrame) (client : Client) (active : bool) (d : Depth) :
  depthActive (session frame) = Some active ->
  depthClients d ⊆ {[client]} ->
  updateLocalDepth env frame (final (pauseDepth client d)) =
  mkResult (Return tt) (final (pauseDepth client d))
    (if active then [SessionPauseDepthSensing] else []).
Proof.
  intros Hactive Hsub.
  assert (Hempty : depthClients d ∖ {[client]} = ∅).
  { apply leibniz_equiv. apply elem_of_equiv_empty. intros x Hx.
    apply elem_of_difference in Hx as [Hx Hne]. apply Hne, Hsub, Hx. }
  unfold updateLocalDepth, bind. rewrite gate_run.
  unfold gated, gateCommand. cbn [pauseDepth bind modify final value trace
    depthClientsInitialized depthClients set_depthClients set_depthClientsInitialized].
  rewrite Hactive, Hempty, size_empty. cbn.
  destruct active; cbn; by rewrite ?app_nil_r.
Qed.

Lemma updateLocalDepth_after_last_pause_witness :
  trace (updateLocalDepth exampleEnv exampleFrame
           (final (pauseDepth 7%nat (final (resumeDepth 7%nat exampleDepth)))))
  = [SessionPauseDepthSensing].
Proof.
  assert (Hsub : depthClients (final (resumeDepth 7%nat exampleDepth)) ⊆ {[7%nat]}).
  { change (depthClients (final (resumeDepth 7%nat exampleDepth)))
      with ({[7%nat]} ∪ (∅ : gset Client)).
    rewrite (right_id_L ∅ (∪)). reflexivity. }
  exact (f_equal trace
           (updateLocalDepth_after_last_pause exampleEnv exampleFrame 7%nat true
              (final (resumeDepth 7%nat exampleDepth)) eq_refl Hsub)).
Defined.

(** ** A frame whose views all have depth information *)

Lemma ingestViews_ingested env frame views :
  depthUsage_gpu_optimized (session frame) = false ->
  (forall xrView, xrView ∈ views -> is_Some (frame_getDepthInformation frame xrView)) ->
  forall viewId d0,
    renderer d0 = true ->
    total (fun d => d = d0 /\ covered d0) (ingestViews env frame views viewId)
      (fun _ => ingested frame views viewId d0).
Proof.
  intros Hcpu. induction views as [|xrView views IH]; intros Hall viewId d0 Hrenderer;
    cbn [ingestViews].
  - apply total_ret. intros d [-> Hcov]. split; [done |]. split; [done |].
    split; [intros k v Hk; by rewrite lookup_nil in Hk | done].
  - rewrite Hcpu.
    destruct (Hall xrView) as [depthData HdepthData]; [by left |].
    rewrite HdepthData.
    remember (set_view (array_set (view d0) viewId xrView) d0) as d1 eqn:Hd1.
    eapply total_bind with (R := fun _ d => d = d1 /\ covered d0).
    { apply total_modify. intros d [-> H]. by subst d1. }
    intros _.
    assert (Hrenderer1 : renderer d1 = true) by (by subst d1).
    eapply total_bind with (R := fun _ d =>
      storedCPU d1 depthData viewId d /\ covered d0 /\ renderer d = true).
    { intros d [-> Hcov].
      assert (Hcov1 : covered d1) by (subst d1; exact Hcov).
      destruct (updateCPUDepthData_post env depthData viewId d1 Hrenderer1 d1
                  (conj eq_refl Hcov1)) as (a & Ha & Hstored).
      exists a. split; [exact Ha |]. split; [exact Hstored |]. split; [exact Hcov |].
      exact (perform_renderer (CallUpdateCPUDepthData env depthData viewId) d1 Hrenderer1). }
    intros _ d2 (Hstored & Hcov & Hrenderer2).
    destruct Hstored as ([Hcov2 _] & HA & HC & _ & _ & HO & _ & HV & HAj & HCj).
    assert (Hall' : forall v, v ∈ views -> is_Some (frame_getDepthInformation frame v)).
    { intros v Hv. apply Hall. by right. }
    destruct (IH Hall' (S viewId) d2 Hrenderer2 d2 (conj eq_refl Hcov2))
      as (a & Ha & Hcov' & HO' & Hnew & Hold).
    exists a. split; [exact Ha |].
    assert (HO1 : options d1 = options d0) by (by subst d1).
    assert (HA1 : depthArray d1 = depthArray d0) by (by subst d1).
    assert (HC1 : cpuDepthData d1 = cpuDepthData d0) by (by subst d1).
    assert (HV1 : view d1 = array_set (view d0) viewId xrView) by (by subst d1).
    clear Hd1.
    split; [exact Hcov' |]. split; [congruence |]. split.
    + intros [|k] v Hv.
      * cbn in Hv. injection Hv as <-. exists depthData.
        rewrite Nat.add_0_r.
        destruct (Hold viewId) as (-> & -> & ->); [lia |].
        rewrite HA, HC, HV, HV1, HO1. split; [done |]. split; [done |].
        split; [done | apply array_get_set_eq].
      * cbn in Hv. destruct (Hnew k v Hv) as (dd & Hdd & H1 & H2 & H3).
        exists dd. replace (viewId + S k)%nat with (S viewId + k)%nat by lia.
        rewrite H1, H2, H3, HO, HO1. done.
    + intros j Hj. destruct (Hold j) as (-> & -> & ->); [lia |].
      rewrite HAj, HCj, HV, HV1, HA1, HC1 by lia.
      by rewrite array_get_set_ne by lia.
Qed.

(** X13: on the CPU path, when the gate lets the frame through and every view
    of the pose has depth information, [updateLocalDepth] returns and has
    stored, for each view of the pose at its index, the view, its sample and a
    typed array on the sample's data. *)
Theorem updateLocalDepth_ingests_all_views
    (env : Env) (frame : XRFrame) (views : list XRView) (d : Depth) :
  reachable d ->
  gated frame d = false ->
  referenceSpace frame = true ->
  viewerPose frame = Some views ->
  depthUsage_gpu_optimized (session frame) = false ->
  (forall xrView, xrView ∈ views -> is_Some (frame_getDepthInformation frame xrView)) ->
  let r := updateLocalDepth env frame d in
  value r = Return tt /\
  forall k xrView, views !! k = Some xrView ->
    exists depthData,
      frame_getDepthInformation frame xrView = Some depthData /\
      array_get (depthArray (final r)) k =
        Some (typedArray (useFloat32 (options d)) (data depthData)) /\
      array_get (cpuDepthData (final r)) k = Some depthData /\
      array_get (view (final r)) k = Some xrView.
Proof.
  intros Hreach Hgate Href Hpose Hcpu Hall r. subst r.
  destruct (ingestViews_ingested env frame views Hcpu Hall 0 d (reachable_renderer d Hreach)
              d (conj eq_refl (reachable_covered d Hreach)))
    as ([] & Hvalue & _ & _ & Hnew & _).
  unfold updateLocalDepth, bind. rewrite gate_run, Hgate, Href, Hpose.
  cbn [value final trace]. split; [exact Hvalue |].
  intros k xrView Hk. exact (Hnew k xrView Hk).
Qed.

Lemma updateLocalDepth_ingests_all_views_witness :
  value (updateLocalDepth exampleEnv stereoFrame initialDepth) = Return tt.
Proof.
  assert (Hall : forall xrView, xrView ∈ [0%nat; 1%nat] ->
                   is_Some (frame_getDepthInformation stereoFrame xrView)).
  { intros xrView _. by exists sample4x4. }
  exact (proj1 (updateLocalDepth_ingests_all_views exampleEnv stereoFrame [0%nat; 1%nat]
                  initialDepth (reachable_init exampleOptions exampleOptions)
                  eq_refl eq_refl eq_refl eq_refl Hall)).
Defined.

(** ** The sorting function of the raycaster *)

Lemma Qle_bool_false (x y : Q) : Qle_bool x y = false <-> y < x.
Proof.
  split.
  - intros H. apply Qnot_le_lt. intros Hle. apply Qle_bool_iff in Hle. congruence.
  - intros H. destruct (Qle_bool x y) eqn:E; [| done].
    apply Qle_bool_iff in E. apply Qlt_not_le in H. contradiction.
Qed.

Lemma Qeq_bool_sym (x y : Q) : Qeq_bool x y = Qeq_bool y x.
Proof.
  destruct (Qeq_bool x y) eqn:E1, (Qeq_bool y x) eqn:E2; try done.
  - apply Qeq_bool_iff in E1. symmetry in E1. apply Qeq_bool_iff in E1. congruence.
  - apply Qeq_bool_iff in E2. symmetry in E2. apply Qeq_bool_iff in E2. congruence.
Qed.

Lemma Qle_bool_Qabs_sym (x y e : Q) :
  Qle_bool (Qabs (x - y)) e = Qle_bool (Qabs (y - x)) e.
Proof. by rewrite (Qabs_Qminus x y). Qed.

(** X14: [defaultSortFunction] is antisymmetric: swapping its arguments
    negates the result. *)
Theorem defaultSortFunction_antisymmetric (a b : Raycaster.Intersection) :
  Raycaster.defaultSortFunction b a == - Raycaster.defaultSortFunction a b.
Proof.
  unfold Raycaster.defaultSortFunction.
  rewrite (Qle_bool_Qabs_sym (Raycaster.distance b) (Raycaster.distance a)).
  rewrite (Qeq_bool_sym (Raycaster.object_renderOrder b) (Raycaster.object_renderOrder a)).
  destruct (negb (Qle_bool _ _)); [ring |].
  destruct (negb (Qeq_bool _ _)); ring.
Qed.

Lemma defaultSortFunction_tied (a b : Raycaster.Intersection) :
  Raycaster.tied a b ->
  Raycaster.defaultSortFunction a b < 0 <->
  Raycaster.object_renderOrder b < Raycaster.object_renderOrder a \/
  (Raycaster.object_renderOrder a == Raycaster.object_renderOrder b /\
   (Raycaster.object_id b < Raycaster.object_id a)%Z).
Proof.
  intros Htied. unfold Raycaster.defaultSortFunction.
  apply Qle_bool_iff in Htied. rewrite Htied. cbn [negb].
  destruct (Qeq_bool (Raycaster.object_renderOrder a) (Raycaster.object_renderOrder b))
    eqn:E; cbn [negb].
  - apply Qeq_bool_iff in E. rewrite Zlt_Qlt. split.
    + intros H. right. split; [exact E |]. lra.
    + intros [H | [_ H]]; lra.
  - apply Qeq_bool_neq in E. split.
    + intros H. left. lra.
    + intros [H | [H _]]; [lra | contradiction].
Qed.

(** X15: on intersections whose distances are pairwise within the
    tolerance, [defaultSortFunction] orders by render order and then by id,
    both descending, and is transitive. *)
Theorem defaultSortFunction_transitive_when_tied (a b c : Raycaster.Intersection) :
  Raycaster.tied a b -> Raycaster.tied b c -> Raycaster.tied a c ->
  Raycaster.defaultSortFunction a b < 0 ->
  Raycaster.defaultSortFunction b c < 0 ->
  Raycaster.defaultSortFunction a c < 0.
Proof.
  intros Hab Hbc Hac.
  rewrite (defaultSortFunction_tied a b Hab), (defaultSortFunction_tied b c Hbc),
    (defaultSortFunction_tied a c Hac).
  intros [H1 | [H1 H1']] [H2 | [H2 H2']].
  - left. lra.
  - left. lra.
  - left. lra.
  - right. split; [lra | lia].
Qed.

Lemma defaultSortFunction_transitive_when_tied_witness :
  Raycaster.defaultSortFunction (Raycaster.mkIntersection (9 # 1000000) 2 3)
    Raycaster.near < 0.
Proof.
  apply (defaultSortFunction_transitive_when_tied
           (Raycaster.mkIntersection (9 # 1000000) 2 3) Raycaster.middle Raycaster.near);
    vm_compute; first [reflexivity | discriminate].
Defined.

(** X16: [defaultSortFunction] is not transitive: three intersections, each
    within the tolerance of the next and the first and last farther apart, are
    ordered in a cycle. *)
Theorem defaultSortFunction_not_transitive :
  exists a b c : Raycaster.Intersection,
    Raycaster.defaultSortFunction a b < 0 /\
    Raycaster.defaultSortFunction b c < 0 /\
    0 < Raycaster.defaultSortFunction a c.
Proof.
  exists Raycaster.far, Raycaster.middle, Raycaster.near.
  repeat split; vm_compute; reflexivity.
Qed.

(** ** The traversal of the scene graph *)

Lemma Object3D_children_ind (P : Raycaster.Object3D -> Prop) :
  (forall mask pushes stops children,
     Forall P children -> P (Raycaster.mkObject3D mask pushes stops children)) ->
  forall object, P object.
Proof.
  intros H. fix IH 1. intros [mask pushes stops children]. apply H.
  induction children as [|child children IHchildren]; constructor.
  - apply IH.
  - exact IHchildren.
Qed.

Lemma intersect_children (L : Z) (children : list Raycaster.Object3D) :
  Forall (fun child => forall intersects,
            Raycaster.intersect child L intersects true =
            intersects ++ flat_map (Raycaster.hits L) (Raycaster.visited L child))
    children ->
  forall intersects,
    fold_left (fun intersects child => Raycaster.intersect child L intersects true)
      children intersects =
    intersects ++
    flat_map (Raycaster.hits L) (flat_map (Raycaster.visited L) children).
Proof.
  induction 1 as [|child children Hchild _ IH]; intros intersects; cbn [fold_left flat_map].
  - by rewrite app_nil_r.
  - rewrite Hchild, IH, flat_map_app. by rewrite <- app_assoc.
Qed.

Lemma intersect_recursive (L : Z) (object : Raycaster.Object3D) :
  forall intersects,
    Raycaster.intersect object L intersects true =
    intersects ++ flat_map (Raycaster.hits L) (Raycaster.visited L object).
Proof.
  induction object as [mask pushes stops children IH] using Object3D_children_ind.
  intros intersects.
  cbn [Raycaster.intersect Raycaster.visited flat_map Raycaster.layers
       Raycaster.raycast_pushes Raycaster.raycast_returns_false Raycaster.children].
  unfold Raycaster.hits at 1. cbn [Raycaster.layers Raycaster.raycast_pushes].
  destruct (Raycaster.Layers_test mask L); cbn [andb negb].
  - destruct stops; cbn [andb negb].
    + by rewrite app_nil_r.
    + rewrite (intersect_children L children IH). by rewrite <- app_assoc.
  - rewrite (intersect_children L children IH). reflexivity.
Qed.

(** X17: [intersect] keeps the intersections it is given and appends those of
    the objects it visits, in the order of the traversal: the object alone
    when not recursive, else the object and its descendants, where an object
    on other layers is skipped but its children are not, and the children of
    an object whose [raycast] returns [false] are not visited. *)
Theorem intersect_visits
    (object : Raycaster.Object3D) (L : Z) (intersects : list Raycaster.Intersection)
    (recursive : bool) :
  Raycaster.intersect object L intersects recursive =
  intersects ++
  flat_map (Raycaster.hits L) (if recursive then Raycaster.visited L object else [object]).
Proof.
  destruct recursive; [apply intersect_recursive |].
  destruct object as [mask pushes stops children].
  cbn [Raycaster.intersect flat_map Raycaster.layers Raycaster.raycast_pushes
       Raycaster.raycast_returns_false Raycaster.children].
  unfold Raycaster.hits. cbn [Raycaster.layers Raycaster.raycast_pushes].
  rewrite andb_false_r, app_nil_r.
  destruct (Raycaster.Layers_test mask L); [reflexivity | by rewrite app_nil_r].
Qed.

Lemma intersect_objects (L : Z) (recursive : bool) (objects : list Raycaster.Object3D) :
  forall intersects,
    fold_left (fun intersects object => Raycaster.intersect object L intersects recursive)
      objects intersects =
    intersects ++
    flat_map (fun object =>
                flat_map (Raycaster.hits L)
                  (if recursive then Raycaster.visited L object else [object]))
      objects.
Proof.
  induction objects as [|object objects IH]; intros intersects; cbn [fold_left flat_map].
  - by rewrite app_nil_r.
  - rewrite IH, intersect_visits. by rewrite <- app_assoc.
Qed.

(** X18: for a [sort] that permutes, [intersectObjects] returns the
    intersections it was given together with those found under each object,
    rearranged; [intersectObject] is [intersectObjects] of the one object. *)
Theorem intersectObjects_permutation
    (sort : (Raycaster.Intersection -> Raycaster.Intersection -> Q) ->
            list Raycaster.Intersection -> list Raycaster.Intersection)
    (this : Raycaster.Raycaster) (objects : list Raycaster.Object3D) (recursive : bool)
    (intersects : list Raycaster.Intersection) :
  (forall compare l, sort compare l ≡ₚ l) ->
  let L := Raycaster.raycaster_layers this in
  Raycaster.intersectObjects sort this objects recursive intersects ≡ₚ
    intersects ++
    flat_map (fun object =>
                flat_map (Raycaster.hits L)
                  (if recursive then Raycaster.visited L object else [object]))
      objects /\
  forall object,
    Raycaster.intersectObject sort this object recursive intersects =
    Raycaster.intersectObjects sort this [object] recursive intersects.
Proof.
  intros Hsort L. split; [| reflexivity].
  unfold Raycaster.intersectObjects. rewrite Hsort. by rewrite intersect_objects.
Qed.

Lemma mergeSort_permutation compare l : Raycaster.mergeSort compare l ≡ₚ l.
Proof. apply merge_sort_Permutation. Qed.

Lemma intersectObjects_permutation_witness :
  Raycaster.intersectObjects Raycaster.mergeSort (Raycaster.Raycaster_new 1)
    [Raycaster.exampleScene] true [] ≡ₚ [Raycaster.far; Raycaster.near].
Proof.
  exact (proj1 (intersectObjects_permutation Raycaster.mergeSort (Raycaster.Raycaster_new 1)
                  [Raycaster.exampleScene] true [] mergeSort_permutation)).
Defined.

(** ** Detected meshes *)

Lemma fold_left_sum_length (array : list (list Q)) (n : nat) :
  fold_left (fun sum arr => (sum + length arr)%nat) array n
  = (n + length (concat array))%nat.
Proof.
  revert n. induction array as [|arr array IH]; intros n; cbn [fold_left concat].
  - cbn. lia.
  - rewrite IH, length_app. lia.
Qed.

Lemma toFlatArray_loop (array : list (list Q)) (done : list Q) :
  fold_left
    (fun state arr =>
       cbind state (fun '(result, offset) =>
       cbind (DetectedMesh.Float32Array_set result arr offset) (fun result =>
       Return (result, (offset + length arr)%nat))))
    array
    (Return (done ++ replicate (length (concat array)) 0, length done))
  = Return (done ++ concat array, length (done ++ concat array)).
Proof.
  revert done. induction array as [|arr array IH]; intros done; cbn [fold_left concat].
  - cbn. by rewrite !app_nil_r.
  - cbn [cbind]. unfold DetectedMesh.Float32Array_set.
    rewrite length_app, length_replicate, length_app.
    rewrite decide_True by lia. cbn [cbind].
    rewrite take_app_length.
    rewrite drop_app_ge by lia.
    rewrite drop_replicate.
    replace (length done + length arr - length done)%nat with (length arr) by lia.
    replace (length arr + length (concat array) - length arr)%nat
      with (length (concat array)) by lia.
    rewrite (app_assoc done arr), <- (length_app done arr).
    rewrite IH. by rewrite <- app_assoc.
Qed.

(** X19: [toFlatArray] of an array of chunks returns their concatenation; no
    [set] runs out of range. *)
Theorem toFlatArray_concat (array : list (list Q)) :
  DetectedMesh.toFlatArray (DetectedMesh.Chunks array) = Return (concat array).
Proof.
  unfold DetectedMesh.toFlatArray, DetectedMesh.Float32Array_new.
  rewrite fold_left_sum_length. cbn [Nat.add].
  pose proof (toFlatArray_loop array []) as H. cbn [app length] in H.
  rewrite H. reflexivity.
Qed.

Lemma toFlatArray_returns (array : DetectedMesh.Vertices) :
  exists flat, DetectedMesh.toFlatArray array = Return flat.
Proof.
  destruct array as [flat|array].
  - by exists flat.
  - exists (concat array). apply toFlatArray_concat.
Qed.

(** X20: a second [updateVertices] with the same mesh, and a first one with
    the mesh the object was constructed from, changes nothing and calls
    nothing. *)
Theorem updateVertices_idempotent
    (mesh : DetectedMesh.XRMesh) (this : DetectedMesh.DetectedMesh) :
  let once := DetectedMesh.after (DetectedMesh.updateVertices mesh this) in
  DetectedMesh.updateVertices mesh once = DetectedMesh.mkOutcome (Return tt) once [] /\
  forall made, DetectedMesh.constructor mesh = Return made ->
    DetectedMesh.updateVertices mesh made = DetectedMesh.mkOutcome (Return tt) made [].
Proof.
  intros once.
  assert (Htime : Qeq_bool (DetectedMesh.mesh_lastChangedTime mesh)
                    (DetectedMesh.lastChangedTime once) = true).
  { subst once. unfold DetectedMesh.updateVertices.
    destruct (Qeq_bool (DetectedMesh.mesh_lastChangedTime mesh)
                (DetectedMesh.lastChangedTime this)) eqn:E; [exact E |].
    destruct (toFlatArray_returns (DetectedMesh.vertices mesh)) as [flat ->].
    cbn [DetectedMesh.collider DetectedMesh.RAPIER DetectedMesh.blendedWorld].
    destruct (DetectedMesh.collider this), (DetectedMesh.RAPIER this),
      (DetectedMesh.blendedWorld this); cbn; apply Qeq_bool_refl. }
  split.
  - unfold DetectedMesh.updateVertices at 1. by rewrite Htime.
  - intros made Hmade. unfold DetectedMesh.constructor in Hmade.
    destruct (DetectedMesh.toFlatArray _); [| done]. injection Hmade as <-.
    unfold DetectedMesh.updateVertices. cbn [DetectedMesh.lastChangedTime].
    by rewrite Qeq_bool_refl.
Qed.

Lemma reachable_collider_current this :
  DetectedMesh.reachable this -> DetectedMesh.collider_current this.
Proof.
  induction 1 as [xrMesh this Hnew | this _ IH | mesh this _ IH].
  - unfold DetectedMesh.constructor in Hnew.
    destruct (DetectedMesh.toFlatArray _); [| done].
    injection Hnew as <-. by intros c.
  - intros c [= <-]. done.
  - unfold DetectedMesh.updateVertices.
    destruct (Qeq_bool _ _); [exact IH |].
    destruct (toFlatArray_returns (DetectedMesh.vertices mesh)) as [flat ->].
    cbn [DetectedMesh.collider DetectedMesh.RAPIER DetectedMesh.blendedWorld].
    destruct (DetectedMesh.collider this) as [old|] eqn:Hold.
    + destruct (IH old Hold) as (-> & -> & _).
      intros c [= <-]. done.
    + intros c Hc. cbn in Hc. congruence.
Qed.

(** X21: on a mesh produced by the constructor, [initRapierPhysics] and
    [updateVertices], [updateVertices] returns, and the collider, when there
    is one, is the triangle mesh of the geometry the object has now. *)
Theorem updateVertices_keeps_collider_current
    (mesh : DetectedMesh.XRMesh) (this : DetectedMesh.DetectedMesh) :
  DetectedMesh.reachable this ->
  let r := DetectedMesh.updateVertices mesh this in
  DetectedMesh.outcome r = Return tt /\
  forall collider, DetectedMesh.collider (DetectedMesh.after r) = Some collider ->
    collider = DetectedMesh.trimesh
                 (DetectedMesh.position (DetectedMesh.geometry (DetectedMesh.after r)))
                 (DetectedMesh.index (DetectedMesh.geometry (DetectedMesh.after r))).
Proof.
  intros Hreach r. split.
  - pose proof (reachable_collider_current this Hreach) as Hcur.
    subst r. unfold DetectedMesh.updateVertices.
    destruct (Qeq_bool _ _); [done |].
    destruct (toFlatArray_returns (DetectedMesh.vertices mesh)) as [flat ->].
    cbn [DetectedMesh.collider DetectedMesh.RAPIER DetectedMesh.blendedWorld].
    destruct (DetectedMesh.collider this) as [old|] eqn:Hold; [| done].
    destruct (Hcur old Hold) as (-> & -> & _). done.
  - intros c Hc.
    pose proof (reachable_collider_current _
                  (DetectedMesh.reachable_updateVertices mesh this Hreach)) as Hcur.
    by destruct (Hcur c Hc) as (_ & _ & ->).
Qed.

Lemma updateVertices_keeps_collider_current_witness :
  DetectedMesh.outcome
    (DetectedMesh.updateVertices DetectedMesh.laterMesh
       (DetectedMesh.after (DetectedMesh.initRapierPhysics DetectedMesh.exampleDetectedMesh)))
  = Return tt.
Proof.
  assert (Hreach : DetectedMesh.reachable
                     (DetectedMesh.after
                        (DetectedMesh.initRapierPhysics DetectedMesh.exampleDetectedMesh))).
  { apply DetectedMesh.reachable_initRapierPhysics.
    apply (DetectedMesh.reachable_constructor DetectedMesh.exampleMesh).
    vm_compute. reflexivity. }
  exact (proj1 (updateVertices_keeps_collider_current DetectedMesh.laterMesh _ Hreach)).
Defined.

(** ** The crossfade between splats *)

Lemma index_of_denotes {A} (array : list A) (i : option number) (k : nat) :
  Walkthrough.denotes i k -> (k < length array)%nat ->
  Walkthrough.index_of array i = Some k.
Proof.
  intros (q & -> & Hq) Hlt. unfold Walkthrough.index_of.
  assert (Hfloor : Qfloor q = Z.of_nat k) by (rewrite (Qfloor_comp _ _ Hq); apply Qfloor_Z).
  rewrite Hfloor, Nat2Z.id.
  assert (H1 : Qeq_bool (inject_Z (Z.of_nat k)) q = true).
  { apply Qeq_bool_iff. by symmetry. }
  assert (H2 : (0 <=? Z.of_nat k)%Z = true) by (apply Z.leb_le; lia).
  assert (H3 : (k <? length array)%nat = true) by (by apply Nat.ltb_lt).
  by rewrite H1, H2, H3.
Qed.

Lemma index_of_Some {A} (array : list A) (i : option number) (k : nat) :
  Walkthrough.index_of array i = Some k ->
  Walkthrough.denotes i k /\ (k < length array)%nat.
Proof.
  unfold Walkthrough.index_of. destruct i as [[q|]|]; try done.
  destruct (Qeq_bool _ _) eqn:H1; [| done].
  destruct (0 <=? Qfloor q)%Z eqn:H2; [| done].
  destruct (Z.to_nat (Qfloor q) <? length array)%nat eqn:H3; [| done].
  cbn. intros [= <-]. split; [| by apply Nat.ltb_lt].
  exists q. split; [done |]. apply Qeq_bool_iff in H1. apply Z.leb_le in H2.
  rewrite Z2Nat.id by done. by symmetry.
Qed.

Lemma denotes_unique i k k' :
  Walkthrough.denotes i k -> Walkthrough.denotes i k' -> k = k'.
Proof.
  intros (q & -> & Hq) (q' & [= <-] & Hq'). rewrite Hq in Hq'.
  apply Nat2Z.inj. by apply inject_Z_injective.
Qed.

Lemma shows_index_of current this :
  Walkthrough.shows current this ->
  Walkthrough.index_of (Walkthrough.splatMeshes this) (Walkthrough.currentIndex this)
  = Some current.
Proof. intros (Hlt & Hden & _). by apply index_of_denotes. Qed.

Lemma shows_has_parent current this :
  Walkthrough.shows current this -> Walkthrough.has_parent current this = true.
Proof.
  intros (Hlt & _ & Hparent & _). unfold Walkthrough.has_parent.
  destruct (lookup_lt_is_Some_2 _ _ Hlt) as [mesh Hmesh]. rewrite Hmesh.
  by apply (Hparent current mesh Hmesh).
Qed.

(** Writing the opacity of a mesh changes nothing [shows] reads. *)
Lemma shows_set_opacity current i x meshes index progress next :
  Walkthrough.shows current
    (Walkthrough.mkWalkthroughManager meshes index progress next) ->
  Walkthrough.shows current
    (Walkthrough.set_opacity i x
       (Walkthrough.mkWalkthroughManager meshes index progress next)).
Proof.
  unfold Walkthrough.shows, Walkthrough.set_opacity, Walkthrough.set_mesh.
  cbn. rewrite length_alter.
  intros (Hlt & Hden & Hparent & Hfade). repeat split; try done.
  - intros Hp. destruct (decide (k = i)) as [->|Hne].
    + rewrite list_lookup_alter_eq in H.
      destruct (meshes !! i) as [m|] eqn:Hm; [| done].
      cbn in H. injection H as <-. cbn in Hp. by apply (Hparent i m Hm).
    + rewrite list_lookup_alter_ne in H by done. by apply (Hparent k mesh H).
  - intros ->. destruct (decide (current = i)) as [->|Hne].
    + rewrite list_lookup_alter_eq in H.
      destruct (meshes !! i) as [m|] eqn:Hm; [| done].
      cbn in H. injection H as <-. cbn. by apply (Hparent i m Hm).
    + rewrite list_lookup_alter_ne in H by done. by apply (Hparent current mesh H).
Qed.

Lemma rem_successor (q : Q) (k n : nat) :
  q == inject_Z (Z.of_nat k) -> (0 < n)%nat ->
  Walkthrough.denotes
    (Some (Walkthrough.rem (Num.add (Fin q) (Fin 1)) (Fin (inject_Z (Z.of_nat n)))))
    ((k + 1) mod n).
Proof.
  intros Hq Hn. unfold Walkthrough.rem, Num.add, Num.lift2.
  assert (Hnz : ~ inject_Z (Z.of_nat n) == 0).
  { intros H. change 0 with (inject_Z 0) in H.
    assert (Z.of_nat n = 0%Z) by (by apply inject_Z_injective). lia. }
  destruct (Qeq_bool (inject_Z (Z.of_nat n)) 0) eqn:E.
  { apply Qeq_bool_iff in E. contradiction. }
  eexists. split; [reflexivity |].
  assert (Hsum : q + 1 == inject_Z (Z.of_nat k + 1)).
  { rewrite inject_Z_plus, Hq. reflexivity. }
  assert (Hpos : 0 <= (q + 1) / inject_Z (Z.of_nat n)).
  { rewrite Hsum. apply Qle_shift_div_l.
    - change 0 with (inject_Z 0). rewrite <- Zlt_Qlt. lia.
    - rewrite Qmult_0_l. change 0 with (inject_Z 0). rewrite <- Zle_Qle. lia. }
  unfold Walkthrough.trunc. apply Qle_bool_iff in Hpos. rewrite Hpos.
  assert (Hfloor : Qfloor ((q + 1) / inject_Z (Z.of_nat n))
                   = ((Z.of_nat k + 1) / Z.of_nat n)%Z).
  { rewrite Zdiv_Qdiv. apply Qfloor_comp. by rewrite Hsum. }
  rewrite Hfloor, Hsum, <- inject_Z_mult.
  unfold Qminus. rewrite <- inject_Z_opp, <- inject_Z_plus.
  apply inject_Z_injective.
  rewrite Nat2Z.inj_mod, Nat2Z.inj_add, Z.mod_eq by lia. cbn. lia.
Qed.

Lemma init_shows meshes :
  meshes <> [] -> Forall (fun mesh => Walkthrough.parent mesh = false) meshes ->
  Walkthrough.shows 0 (Walkthrough.init meshes).
Proof.
  intros Hne Hall. unfold Walkthrough.shows, Walkthrough.init, Walkthrough.scene_add,
    Walkthrough.set_mesh. cbn. rewrite length_alter.
  split; [destruct meshes; [done | cbn; lia] |].
  split; [by exists 0 |].
  split; [| done].
  intros k mesh Hk. destruct (decide (k = 0%nat)) as [->|Hk0].
  - rewrite list_lookup_alter_eq in Hk.
    destruct (meshes !! 0%nat); [| done]. cbn in Hk. by injection Hk as <-.
  - rewrite list_lookup_alter_ne in Hk by done.
    rewrite Forall_lookup in Hall. rewrite (Hall k mesh Hk). split; [done | lia].
Qed.

Lemma cycleSplat_shows current this :
  Walkthrough.shows current this -> Walkthrough.shows current (Walkthrough.cycleSplat this).
Proof.
  intros Hshows. unfold Walkthrough.cycleSplat.
  destruct (Walkthrough.fadeProgress this) eqn:Hfade; [exact Hshows |].
  destruct Hshows as (Hlt & Hden & Hparent & _).
  unfold Walkthrough.shows. cbn. repeat split; try done; try apply Hparent; try done.
  exists ((current + 1) mod length (Walkthrough.splatMeshes this))%nat.
  split; [apply Nat.mod_upper_bound; lia |].
  destruct Hden as (q & -> & Hq). cbn. apply rem_successor; [done | lia].
Qed.

Lemma onKeyDown_shows toLowerCase parseInt event_key current this :
  Walkthrough.shows current this ->
  Walkthrough.shows current (Walkthrough.onKeyDown toLowerCase parseInt event_key this).
Proof.
  intros Hshows. unfold Walkthrough.onKeyDown.
  destruct (parseInt (toLowerCase event_key)) as [n|]; [| exact Hshows].
  destruct (Qle_bool 0 (inject_Z n - 1)) eqn:H0; [| exact Hshows].
  destruct (Walkthrough.Qlt_bool _ _) eqn:H1; [| exact Hshows].
  destruct (Walkthrough.strict_ne _ _); [| exact Hshows].
  destruct (bool_decide _); [| exact Hshows]. cbn [andb].
  destruct Hshows as (Hlt & Hden & Hparent & _).
  apply Qle_bool_iff in H0. unfold Walkthrough.Qlt_bool in H1.
  apply negb_true_iff, Qle_bool_false in H1.
  assert (Hn : (1 <= n)%Z).
  { rewrite Zle_Qle. change (inject_Z 1) with 1. lra. }
  unfold Walkthrough.shows. cbn. repeat split; try done; try apply Hparent; try done.
  exists (Z.to_nat (n - 1)). split.
  - apply Nat2Z.inj_lt. rewrite Z2Nat.id by lia. rewrite Zlt_Qlt.
    unfold Z.sub. rewrite inject_Z_plus. exact H1.
  - eexists. split; [reflexivity |]. rewrite Z2Nat.id by lia.
    unfold Z.sub. by rewrite inject_Z_plus.
Qed.

Lemma Qlt_bool_true (x y : Q) : Walkthrough.Qlt_bool x y = true <-> x < y.
Proof.
  unfold Walkthrough.Qlt_bool. rewrite negb_true_iff. apply Qle_bool_false.
Qed.

Lemma Qlt_bool_false (x y : Q) : Walkthrough.Qlt_bool x y = false <-> y <= x.
Proof.
  unfold Walkthrough.Qlt_bool. rewrite negb_false_iff. apply Qle_bool_iff.
Qed.

Section UpdateFade.
Variable Math_cos : Q -> Q.
Variable Math_PI : Q.

(** A frame of the fade-out phase. *)
Lemma updateFade_fade_out dt current progress this :
  Walkthrough.shows current this ->
  Walkthrough.fadeProgress this = Some progress ->
  progress + dt < Walkthrough.FADE_DURATION_S ->
  Walkthrough.updateFade Math_cos Math_PI dt this =
  Walkthrough.mkOutcome (Return tt)
    (Walkthrough.set_opacity current
       (1 - Walkthrough.easeInOutSine Math_cos Math_PI
              ((progress + dt) / Walkthrough.FADE_DURATION_S))
       (Walkthrough.mkWalkthroughManager (Walkthrough.splatMeshes this)
          (Walkthrough.currentIndex this) (Some (progress + dt))
          (Walkthrough.nextIndex this))).
Proof.
  intros Hshows Hfade Hlt. unfold Walkthrough.updateFade. rewrite Hfade.
  cbn [Walkthrough.splatMeshes Walkthrough.currentIndex].
  rewrite (shows_index_of current this Hshows).
  apply Qlt_bool_true in Hlt. by rewrite Hlt.
Qed.

(** A frame of the fade-in phase: the swap runs whenever the current mesh is
    in the scene. *)
Lemma updateFade_fade_in dt current next progress this :
  Walkthrough.shows current this ->
  Walkthrough.fadeProgress this = Some progress ->
  Walkthrough.denotes (Walkthrough.nextIndex this) next ->
  (next < length (Walkthrough.splatMeshes this))%nat ->
  Walkthrough.FADE_DURATION_S <= progress + dt ->
  progress + dt < 2 * Walkthrough.FADE_DURATION_S ->
  Walkthrough.updateFade Math_cos Math_PI dt this =
  Walkthrough.mkOutcome (Return tt)
    (Walkthrough.mkWalkthroughManager
       (alter (fun _ => Walkthrough.mkSplatMesh
                 (Walkthrough.easeInOutSine Math_cos Math_PI
                    ((progress + dt - Walkthrough.FADE_DURATION_S)
                     / Walkthrough.FADE_DURATION_S)) true) next
          (alter (fun mesh => Walkthrough.mkSplatMesh (Walkthrough.opacity mesh) false)
             current (Walkthrough.splatMeshes this)))
       (Walkthrough.nextIndex this) (Some (progress + dt)) (Walkthrough.nextIndex this)).
Proof.
  intros Hshows Hfade Hnext Hlt Hge Hlt2. unfold Walkthrough.updateFade. rewrite Hfade.
  cbn [Walkthrough.splatMeshes Walkthrough.currentIndex].
  rewrite (shows_index_of current this Hshows).
  apply Qlt_bool_false in Hge. rewrite Hge.
  apply Qlt_bool_true in Hlt2. rewrite Hlt2.
  assert (Hparent : Walkthrough.has_parent current
            (Walkthrough.mkWalkthroughManager (Walkthrough.splatMeshes this)
               (Walkthrough.currentIndex this) (Some (progress + dt))
               (Walkthrough.nextIndex this)) = true).
  { exact (shows_has_parent current this Hshows). }
  rewrite Hparent.
  unfold Walkthrough.scene_remove, Walkthrough.scene_add, Walkthrough.set_opacity,
    Walkthrough.set_mesh.
  cbn [Walkthrough.splatMeshes Walkthrough.currentIndex Walkthrough.fadeProgress
       Walkthrough.nextIndex].
  rewrite (index_of_denotes _ _ next Hnext) by (by rewrite length_alter).
  cbn [Walkthrough.outcome Walkthrough.after Walkthrough.splatMeshes
       Walkthrough.currentIndex Walkthrough.fadeProgress Walkthrough.nextIndex].
  rewrite (index_of_denotes _ _ next Hnext) by (by rewrite !length_alter).
  rewrite !list_alter_alter_eq. reflexivity.
Qed.

(** A frame past the end of the fade. *)
Lemma updateFade_complete dt current progress this :
  Walkthrough.shows current this ->
  Walkthrough.fadeProgress this = Some progress ->
  2 * Walkthrough.FADE_DURATION_S <= progress + dt ->
  Walkthrough.updateFade Math_cos Math_PI dt this =
  Walkthrough.mkOutcome (Return tt)
    (Walkthrough.mkWalkthroughManager
       (alter (fun mesh => Walkthrough.mkSplatMesh 1 (Walkthrough.parent mesh)) current
          (Walkthrough.splatMeshes this))
       (Walkthrough.currentIndex this) None None).
Proof.
  intros Hshows Hfade Hge. unfold Walkthrough.updateFade. rewrite Hfade.
  cbn [Walkthrough.splatMeshes Walkthrough.currentIndex].
  rewrite (shows_index_of current this Hshows).
  assert (Hge1 : Walkthrough.FADE_DURATION_S <= progress + dt).
  { unfold Walkthrough.FADE_DURATION_S in *. lra. }
  apply Qlt_bool_false in Hge1. rewrite Hge1.
  apply Qlt_bool_false in Hge. by rewrite Hge.
Qed.
End UpdateFade.

Lemma shows_swapped current next x progress this :
  Walkthrough.shows current this ->
  Walkthrough.denotes (Walkthrough.nextIndex this) next ->
  (next < length (Walkthrough.splatMeshes this))%nat ->
  Walkthrough.shows next
    (Walkthrough.mkWalkthroughManager
       (alter (fun _ => Walkthrough.mkSplatMesh x true) next
          (alter (fun mesh => Walkthrough.mkSplatMesh (Walkthrough.opacity mesh) false)
             current (Walkthrough.splatMeshes this)))
       (Walkthrough.nextIndex this) (Some progress) (Walkthrough.nextIndex this)).
Proof.
  intros (Hlt & Hden & Hparent & _) Hnext Hlt'.
  unfold Walkthrough.shows. cbn. rewrite !length_alter.
  split; [exact Hlt' |]. split; [exact Hnext |].
  split; [| by exists next].
  intros k mesh Hk. destruct (decide (k = next)) as [->|Hne].
  - rewrite list_lookup_alter_eq in Hk.
    destruct (alter _ current _ !! next); [| done]. cbn in Hk. by injection Hk as <-.
  - rewrite list_lookup_alter_ne in Hk by done.
    destruct (decide (k = current)) as [->|Hne'].
    + rewrite list_lookup_alter_eq in Hk.
      destruct (Walkthrough.splatMeshes this !! current); [| done].
      cbn in Hk. injection Hk as <-. cbn. split; [done | by intros <-].
    + rewrite list_lookup_alter_ne in Hk by done.
      split; [intros Hp; by apply (Hparent k mesh Hk) in Hp | done].
Qed.

Lemma shows_completed current this :
  Walkthrough.shows current this ->
  Walkthrough.shows current
    (Walkthrough.mkWalkthroughManager
       (alter (fun mesh => Walkthrough.mkSplatMesh 1 (Walkthrough.parent mesh)) current
          (Walkthrough.splatMeshes this))
       (Walkthrough.currentIndex this) None None).
Proof.
  intros (Hlt & Hden & Hparent & _).
  apply (shows_set_opacity current current 1 (Walkthrough.splatMeshes this)
           (Walkthrough.currentIndex this) None None).
  unfold Walkthrough.shows. cbn. repeat split; try done; by apply Hparent.
Qed.

Lemma shows_fading current progress progress' this :
  Walkthrough.shows current this ->
  Walkthrough.fadeProgress this = Some progress ->
  Walkthrough.shows current
    (Walkthrough.mkWalkthroughManager (Walkthrough.splatMeshes this)
       (Walkthrough.currentIndex this) (Some progress') (Walkthrough.nextIndex this)).
Proof.
  intros (Hlt & Hden & Hparent & Hfade) Hprogress. rewrite Hprogress in Hfade.
  unfold Walkthrough.shows. cbn. repeat split; try done; by apply Hparent.
Qed.

Lemma updateFade_shows Math_cos Math_PI dt current this :
  Walkthrough.shows current this ->
  Walkthrough.outcome (Walkthrough.updateFade Math_cos Math_PI dt this) = Return tt /\
  exists current',
    Walkthrough.shows current'
      (Walkthrough.after (Walkthrough.updateFade Math_cos Math_PI dt this)).
Proof.
  intros Hshows.
  destruct (Walkthrough.fadeProgress this) as [progress|] eqn:Hfade.
  - destruct (Qlt_le_dec (progress + dt) Walkthrough.FADE_DURATION_S) as [Hout|Hin].
    { rewrite (updateFade_fade_out _ _ dt current progress this Hshows Hfade Hout).
      split; [done |]. exists current. cbn [Walkthrough.after].
      apply shows_set_opacity. by apply shows_fading with progress. }
    destruct (Qlt_le_dec (progress + dt) (2 * Walkthrough.FADE_DURATION_S))
      as [Hin2|Hdone].
    + pose proof Hshows as (_ & _ & _ & Htarget). rewrite Hfade in Htarget.
      destruct Htarget as (next & Hlt & Hnext).
      rewrite (updateFade_fade_in _ _ dt current next progress this
                 Hshows Hfade Hnext Hlt Hin Hin2).
      split; [done |]. exists next. by apply shows_swapped.
    + rewrite (updateFade_complete _ _ dt current progress this Hshows Hfade Hdone).
      split; [done |]. exists current. by apply shows_completed.
  - unfold Walkthrough.updateFade. rewrite Hfade. split; [done |]. by exists current.
Qed.

(** X23: in every state reached from [init] by [cycleSplat], [onKeyDown] and
    [updateFade], the current index denotes a mesh, that mesh alone is in the
    scene, a fade in progress has a target among the meshes, and [updateFade]
    returns. *)
Theorem walkthrough_shows_one_splat
    (Math_cos : Q -> Q) (Math_PI : Q) (toLowerCase : String.string -> String.string)
    (parseInt : String.string -> option Z) (this : Walkthrough.WalkthroughManager) :
  Walkthrough.reachable Math_cos Math_PI toLowerCase parseInt this ->
  (exists current, Walkthrough.shows current this) /\
  forall dt, Walkthrough.outcome (Walkthrough.updateFade Math_cos Math_PI dt this)
             = Return tt.
Proof.
  intros Hreach.
  assert (H : exists current, Walkthrough.shows current this).
  { induction Hreach as [meshes Hne Hall | this _ [c IH] | key this _ [c IH]
                         | dt this _ [c IH]].
    - exists 0%nat. by apply init_shows.
    - exists c. by apply cycleSplat_shows.
    - exists c. by apply onKeyDown_shows.
    - by destruct (updateFade_shows Math_cos Math_PI dt c this IH) as [_ H]. }
  split; [exact H |]. destruct H as [c Hc]. intros dt.
  by destruct (updateFade_shows Math_cos Math_PI dt c this Hc) as [H _].
Qed.

(** X22: [cycleSplat] on an idle manager starts a fade towards the next splat,
    wrapping around after the last one, and changes neither the meshes nor
    the current index; a second [cycleSplat] during the fade does nothing. *)
Theorem cycleSplat_wraps (current : nat) (this : Walkthrough.WalkthroughManager) :
  Walkthrough.shows current this ->
  Walkthrough.fadeProgress this = None ->
  let started := Walkthrough.cycleSplat this in
  Walkthrough.fadeProgress started = Some 0 /\
  Walkthrough.denotes (Walkthrough.nextIndex started)
    ((current + 1) mod length (Walkthrough.splatMeshes this)) /\
  Walkthrough.splatMeshes started = Walkthrough.splatMeshes this /\
  Walkthrough.currentIndex started = Walkthrough.currentIndex this /\
  Walkthrough.cycleSplat started = started.
Proof.
  intros (Hlt & (q & Hq & Hden) & _) Hidle started. subst started.
  unfold Walkthrough.cycleSplat. rewrite Hidle. cbn.
  repeat split. rewrite Hq. cbn. apply rem_successor; [done | lia].
Qed.

Lemma cycleSplat_wraps_witness :
  Walkthrough.denotes
    (Walkthrough.nextIndex
       (Walkthrough.cycleSplat
          (Walkthrough.mkWalkthroughManager
             [Walkthrough.mkSplatMesh 1 false; Walkthrough.mkSplatMesh 1 true]
             (Some (Fin 1)) None None)))
    0.
Proof.
  assert (Hshows : Walkthrough.shows 1
            (Walkthrough.mkWalkthroughManager
               [Walkthrough.mkSplatMesh 1 false; Walkthrough.mkSplatMesh 1 true]
               (Some (Fin 1)) None None)).
  { split; [cbn; lia |]. split; [by exists 1 |]. split; [| done].
    intros [|[|k]] mesh; cbn; intros [= <-]; cbn; split; (done || lia). }
  exact (proj1 (proj2 (cycleSplat_wraps 1 _ Hshows eq_refl))).
Defined.

Lemma walkthrough_shows_one_splat_witness :
  Walkthrough.outcome
    (Walkthrough.updateFade (fun x => 1 - 2 * x / 3) 3 (1 # 2)
       (Walkthrough.cycleSplat (Walkthrough.init Walkthrough.loaded)))
  = Return tt.
Proof.
  assert (Hreach : Walkthrough.reachable (fun x => 1 - 2 * x / 3) 3 (fun key => key)
                     (fun _ => None)
                     (Walkthrough.cycleSplat (Walkthrough.init Walkthrough.loaded))).
  { apply Walkthrough.reachable_cycleSplat, Walkthrough.reachable_init.
    - discriminate.
    - repeat constructor. }
  exact (proj2 (walkthrough_shows_one_splat _ _ _ _ _ Hreach) (1 # 2)).
Defined.



(** X26: a frame that lands past the end of the fade ends it with the current
    index as it was and the current mesh at opacity 1: when no frame fell into
    the fade-in phase, the requested splat is never shown. *)
Theorem updateFade_long_frame
    (Math_cos : Q -> Q) (Math_PI : Q) (dt progress : Q) (current : nat)
    (this : Walkthrough.WalkthroughManager) :
  Walkthrough.shows current this ->
  Walkthrough.fadeProgress this = Some progress ->
  2 * Walkthrough.FADE_DURATION_S <= progress + dt ->
  let r := Walkthrough.updateFade Math_cos Math_PI dt this in
  Walkthrough.outcome r = Return tt /\
  Walkthrough.shows current (Walkthrough.after r) /\
  Walkthrough.currentIndex (Walkthrough.after r) = Walkthrough.currentIndex this /\
  Walkthrough.fadeProgress (Walkthrough.after r) = None /\
  Walkthrough.nextIndex (Walkthrough.after r) = None /\
  Walkthrough.opacity <$> Walkthrough.splatMeshes (Walkthrough.after r) !! current
  = Some 1.
Proof.
  intros Hshows Hfade Hdone r. subst r.
  rewrite (updateFade_complete _ _ dt current progress this Hshows Hfade Hdone).
  cbn [Walkthrough.after Walkthrough.outcome].
  split; [done |]. split; [by apply shows_completed |]. repeat split.
  cbn [Walkthrough.splatMeshes]. rewrite list_lookup_alter_eq.
  destruct Hshows as (Hlt & _).
  destruct (lookup_lt_is_Some_2 _ _ Hlt) as [mesh ->]. reflexivity.
Qed.

Lemma fading_shows : Walkthrough.shows 0 Walkthrough.fading.
Proof.
  split; [cbn; lia |]. split; [by exists 0 |]. split.
  - intros [|[|k]] mesh; cbn; intros [= <-]; cbn; split; (done || lia).
  - exists 1%nat. split; [cbn; lia | by exists 1].
Qed.




Lemma updateFade_long_frame_witness :
  Walkthrough.currentIndex
    (Walkthrough.after
       (Walkthrough.updateFade (fun x => 1 - 2 * x / 3) 3 2 Walkthrough.fading))
  = Some (Fin 0).
Proof.
  assert (Hdone : 2 * Walkthrough.FADE_DURATION_S <= 0 + 2) by (vm_compute; discriminate).
  exact (proj1 (proj2 (proj2 (updateFade_long_frame (fun x => 1 - 2 * x / 3) 3 2 0 0%nat
                                Walkthrough.fading fading_shows eq_refl Hdone)))).
Defined.
